(** * libcvmfs: path canonicalisation and symlink resolution

    A shallow embedding of the resolver of [cvmfs/libcvmfs.cc]
    ([expand_path], [expand_ppath]) and of the file operations built on
    it ([cvmfs_open], [cvmfs_close], [cvmfs_readlink], [cvmfs_stat],
    [cvmfs_lstat], [cvmfs_listdir], [cvmfs_fini]), followed by the
    properties the specification states about them.  Then the option
    strings of the same file ([parse_options], the two [set_option] and
    [verify_sanity], [cvmfs_attach_repo], [cvmfs_init]) and [Main] of
    [cvmfs/swissknife_letter.cc], with further properties of all three.

    Conventions.
    - A C string or [std::string] is a [string]; the end of the string
      plays the role of the terminating NUL.
    - [int] values (status codes, [errno], the depth counter) are [Z].
      Status codes are taken in the range of [int] without [INT_MIN], and
      the depth is incremented only while it does not exceed 1000, so no
      negation or increment of the code overflows.
    - The repository context is an object with methods; it is a record of
      functions over an abstract backend state [B], threaded explicitly.
    - The debug messages [expand_path] hands to [LogCvmfs] are the list
      of messages a call has logged.
    - [expand_path] is recursive on data the backend supplies; it is
      written with open recursion ([expand_path_body]) and closed with a
      fuel counter.  [None] means that the fuel ran out, never a result
      of the code. *)

From Stdlib Require Import String Ascii ZArith List Bool Arith Lia.
Import ListNotations.
Open Scope string_scope.
Open Scope Z_scope.

(* ================================================================= *)
(** ** Strings *)

Module Str.

(** [std::string::find_last_of(c)]: index of the last occurrence. *)
Fixpoint find_last_of (c : ascii) (s : string) : option nat :=
  match s with
  | EmptyString => None
  | String a s' =>
      match find_last_of c s' with
      | Some i => Some (S i)
      | None => if Ascii.eqb a c then Some 0%nat else None
      end
  end.

(** [std::string::substr(pos)]: the suffix that starts at [pos]. *)
Definition substr_from (pos : nat) (s : string) : string :=
  substring pos (String.length s - pos) s.

(** [s[s.length()-1] == '/'] for a non-empty [s]. *)
Definition last_is_slash (s : string) : bool :=
  match String.get (String.length s - 1) s with
  | Some c => Ascii.eqb c "/"
  | None => false
  end.

(** [p[0] == '/'] on a C string (the terminator is not a slash). *)
Definition starts_with_slash (p : string) : bool :=
  match p with
  | String c _ => Ascii.eqb c "/"
  | EmptyString => false
  end.

(** [strncmp(a, b, n) == 0] on NUL-terminated strings. *)
Fixpoint strncmp_eq (a b : string) (n : nat) {struct n} : bool :=
  match n with
  | O => true
  | S n' =>
      match a, b with
      | EmptyString, EmptyString => true
      | String x a', String y b' => Ascii.eqb x y && strncmp_eq a' b' n'
      | _, _ => false
      end
  end.

(** The fields of a path between its slashes: [components "/a/b"] is
    [[""; "a"; "b"]]. *)
Fixpoint components (s : string) : list string :=
  match s with
  | EmptyString => [""]
  | String c s' =>
      if Ascii.eqb c "/" then "" :: components s'
      else match components s' with
           | h :: t => String c h :: t
           | [] => [String c ""]
           end
  end.

(** Number of components of a path; the empty path has none. *)
Definition component_count (s : string) : nat :=
  match s with
  | EmptyString => 0
  | _ => List.length (components s)
  end.

Definition no_slash (s : string) : Prop := find_last_of "/" s = None.

End Str.

(* ================================================================= *)
(** ** Path helpers of util.h *)

(** Modelled from the spec: [GetParentPath] and [GetFileName] are declared
    in util.h, which is not part of the sources at hand.  The spec has a
    path "decomposed on demand into (parent path, final component) via
    pure string helpers": the parent is everything before the last slash
    (empty when the path has no slash). *)
Definition GetParentPath (path : string) : string :=
  match Str.find_last_of "/" path with
  | Some idx => substring 0 idx path
  | None => ""
  end.

(** Modelled from the spec: the final component is everything after the
    last slash (the whole path when it has no slash); see [GetParentPath]. *)
Definition GetFileName (path : string) : string :=
  match Str.find_last_of "/" path with
  | Some idx => Str.substr_from (S idx) path
  | None => path
  end.

(* ================================================================= *)
(** ** The repository context and the resolver's results *)

(** The two fields of [struct stat] the resolver reads. *)
Record stat : Type := { st_mode : Z; st_size : Z }.

(** <sys/stat.h> and <errno.h>, Linux values. *)
Definition S_IFMT : Z := 61440.   (* 0170000 *)
Definition S_IFLNK : Z := 40960.  (* 0120000 *)
Definition S_IFDIR : Z := 16384.  (* 0040000 *)
Definition S_IFREG : Z := 32768.  (* 0100000 *)
Definition S_ISLNK (m : Z) : bool := Z.land m S_IFMT =? S_IFLNK.
Definition ENOENT : Z := 2.
Definition ENOMEM : Z := 12.
Definition EINVAL : Z := 22.
Definition ELOOP : Z := 40.

(** The methods of [cvmfs_context] the file uses.  Each takes the backend
    state and gives it back; the first component of an answer is the
    method's [int] status. *)
Record cvmfs_context (B : Type) : Type := {
  GetAttr : string -> B -> Z * stat * B;
  Readlink : string -> Z -> B -> Z * string * B;
  Open : string -> B -> Z * B;
  Close : Z -> B -> Z * B;
  ListDirectory : string -> B -> Z * list string * B
}.
Arguments GetAttr {B} _ _ _.
Arguments Readlink {B} _ _ _ _.
Arguments Open {B} _ _ _.
Arguments Close {B} _ _ _.
Arguments ListDirectory {B} _ _ _.

(** What [expand_path] hands back: return code 0 with [expanded_path]
    written, or return code -1 with [errno] set. *)
Inductive result : Type :=
| Ok (expanded_path : string)
| Err (errno : Z).

(** The three [LogCvmfs] calls of [expand_path], by what they report. *)
Inductive log_entry : Type :=
| LogAboveRoot (path : string)
| LogRecursionLimit (path : string)
| LogOutsideMountpoint (path ln_buf mountpoint : string).

(** A finished call: its result, the backend state it leaves and the
    messages it logged. *)
Definition run (B : Type) : Type := (result * B * list log_entry)%type.

(* ================================================================= *)
(** ** expand_path and expand_ppath *)

(** The target of a symbolic link as a repository path: an absolute
    target loses the mountpoint prefix, a relative one is taken from the
    directory of the link [buf].  [None] is the branch that reports a
    target outside of the repository. *)
Definition link_target (mountpoint buf ln_buf : string) : option string :=
  if Str.starts_with_slash ln_buf then
    let len := String.length mountpoint in
    if Str.strncmp_eq ln_buf mountpoint len
       && match String.get len ln_buf with
          | Some c => Ascii.eqb c "/"
          | None => true
          end
    then
      let buf := Str.substr_from len ln_buf in
      Some (match String.get len ln_buf with
            | None => buf ++ "/"
            | Some _ => buf
            end)
    else None
  else
    let buf := GetParentPath buf in
    let buf := buf ++ "/" in
    Some (buf ++ ln_buf).

Section Resolver.

Context {B : Type}.
Variable ctx : cvmfs_context B.
(** [smalloc] of smalloc.h is not part of the sources: whether an
    allocation of the given size returns a non-null pointer. *)
Variable smalloc : Z -> bool.
(** The file-level [static string mountpoint].  The resolver is given
    for every value of it; the value it has in the program is
    [static_mountpoint] below, which is empty whatever calls were
    made. *)
Variable mountpoint : string.

(** [expand_path] from the construction of the candidate [buf] on: the
    backend is asked about the candidate, and a link is followed. *)
Definition stat_and_follow (rec : string -> Z -> B -> option (run B))
    (path fname : string) (depth : Z)
    (buf : string) (s : B) (log : list log_entry) : option (run B) :=
  let buf :=
    if (String.length buf =? 0)%nat || negb (Str.last_is_slash buf)
    then buf ++ "/" else buf in
  let buf := buf ++ fname in
  let '(rc, st, s) := GetAttr ctx buf s in
  if negb (rc =? 0) then Some (Err (- rc), s, log)
  else if negb (S_ISLNK (st_mode st)) then Some (Ok buf, s, log)
  else if depth >? 1000 then
    Some (Err ELOOP, s, (log ++ [LogRecursionLimit path])%list)
  else if negb (smalloc (st_size st + 2)) then Some (Err ENOMEM, s, log)
  else
    let '(rc, ln_buf, s) := Readlink ctx buf (st_size st + 2) s in
    if negb (rc =? 0) then Some (Err (- rc), s, log)
    else
      match link_target mountpoint buf ln_buf with
      | None =>
          Some (Err ENOENT, s,
                (log ++ [LogOutsideMountpoint path ln_buf mountpoint])%list)
      | Some buf =>
          match rec buf (depth + 1) s with
          | None => None
          | Some (r, s, log') => Some (r, s, (log ++ log')%list)
          end
      end.

(** The body of [expand_path], its recursive calls going through [rec]. *)
Definition expand_path_body (rec : string -> Z -> B -> option (run B))
    (path : string) (depth : Z) (s : B) : option (run B) :=
  let p_path := GetParentPath path in
  let fname := GetFileName path in
  if (fname =? "..")%string then
    match rec p_path depth s with
    | None => None
    | Some (Err e, s, log) => Some (Err e, s, log)
    | Some (Ok expanded_path, s, log) =>
        if (expanded_path =? "/")%string then
          Some (Err ENOENT, s, (log ++ [LogAboveRoot path])%list)
        else
          let expanded_path := GetParentPath expanded_path in
          let expanded_path :=
            if (expanded_path =? "")%string then "/" else expanded_path in
          Some (Ok expanded_path, s, log)
    end
  else if negb (p_path =? "")%string then
    match rec p_path depth s with
    | None => None
    | Some (Err e, s, log) => Some (Err e, s, log)
    | Some (Ok buf, s, log) =>
        if (fname =? ".")%string then Some (Ok buf, s, log)
        else stat_and_follow rec path fname depth buf s log
    end
  else stat_and_follow rec path fname depth "" s [].

Fixpoint expand_path (fuel : nat) (path : string) (depth : Z) (s : B)
  : option (run B) :=
  match fuel with
  | O => None
  | S fuel' => expand_path_body (expand_path fuel') path depth s
  end.

(** A call of [expand_path] that returns. *)
Definition expand_path_returns (path : string) (depth : Z) (s : B)
    (out : run B) : Prop :=
  exists fuel, expand_path fuel path depth s = Some out.

Definition expand_ppath (fuel : nat) (path : string) (s : B)
  : option (run B) :=
  let p_path := GetParentPath path in
  let fname := GetFileName path in
  if (p_path =? "")%string then Some (Ok path, s, [])
  else
    match expand_path fuel p_path 0 s with
    | None => None
    | Some (Err e, s, log) => Some (Err e, s, log)
    | Some (Ok expanded_path, s, log) =>
        let expanded_path := expanded_path ++ "/" in
        Some (Ok (expanded_path ++ fname), s, log)
    end.

Definition expand_ppath_returns (path : string) (s : B) (out : run B)
  : Prop :=
  exists fuel, expand_ppath fuel path s = Some out.

End Resolver.

(* ================================================================= *)
(** ** The file operations *)

(** What a file operation leaves behind: its return value, the value of
    [errno], what it wrote for the caller (if anything) and the backend
    state. *)
Record reply (B A : Type) : Type := Reply {
  retval : Z;
  errno_after : Z;
  data : option A;
  backend_after : B
}.
Arguments Reply {B A} _ _ _ _.
Arguments retval {B A} _.
Arguments errno_after {B A} _.
Arguments data {B A} _.
Arguments backend_after {B A} _.

Section FileAPI.

Context {B : Type}.
Variable ctx : cvmfs_context B.
Variable smalloc : Z -> bool.
Variable mountpoint : string.

(** Each operation takes the value [errno] has when it is called. *)
Definition cvmfs_open (fuel : nat) (path : string) (errno : Z) (s : B)
  : option (reply B unit) :=
  match expand_path ctx smalloc mountpoint fuel path 0 s with
  | None => None
  | Some (Err e, s, _) => Some (Reply (-1) e None s)
  | Some (Ok lpath, s, _) =>
      let '(rc, s) := Open ctx lpath s in
      if rc <? 0 then Some (Reply (-1) (- rc) None s)
      else Some (Reply rc errno None s)
  end.

Definition cvmfs_close (fd : Z) (errno : Z) (s : B) : reply B unit :=
  let '(rc, s) := Close ctx fd s in
  if rc <? 0 then Reply (-1) (- rc) None s
  else Reply 0 errno None s.

Definition cvmfs_readlink (fuel : nat) (path : string) (size : Z)
    (errno : Z) (s : B) : option (reply B string) :=
  match expand_ppath ctx smalloc mountpoint fuel path s with
  | None => None
  | Some (Err e, s, _) => Some (Reply (-1) e None s)
  | Some (Ok lpath, s, _) =>
      let '(rc, buf, s) := Readlink ctx lpath size s in
      if rc <? 0 then Some (Reply (-1) (- rc) None s)
      else Some (Reply 0 errno (Some buf) s)
  end.

Definition cvmfs_stat (fuel : nat) (path : string) (errno : Z) (s : B)
  : option (reply B stat) :=
  match expand_path ctx smalloc mountpoint fuel path 0 s with
  | None => None
  | Some (Err e, s, _) => Some (Reply (-1) e None s)
  | Some (Ok lpath, s, _) =>
      let '(rc, st, s) := GetAttr ctx lpath s in
      if rc <? 0 then Some (Reply (-1) (- rc) None s)
      else Some (Reply 0 errno (Some st) s)
  end.

Definition cvmfs_lstat (fuel : nat) (path : string) (errno : Z) (s : B)
  : option (reply B stat) :=
  match expand_ppath ctx smalloc mountpoint fuel path s with
  | None => None
  | Some (Err e, s, _) => Some (Reply (-1) e None s)
  | Some (Ok lpath, s, _) =>
      let '(rc, st, s) := GetAttr ctx lpath s in
      if rc <? 0 then Some (Reply (-1) (- rc) None s)
      else Some (Reply 0 errno (Some st) s)
  end.

Definition cvmfs_listdir (fuel : nat) (path : string) (errno : Z) (s : B)
  : option (reply B (list string)) :=
  match expand_path ctx smalloc mountpoint fuel path 0 s with
  | None => None
  | Some (Err e, s, _) => Some (Reply (-1) e None s)
  | Some (Ok lpath, s, _) =>
      let '(rc, buf, s) := ListDirectory ctx lpath s in
      if rc <? 0 then Some (Reply (-1) (- rc) None s)
      else Some (Reply 0 errno (Some buf) s)
  end.

End FileAPI.

(** The static [mountpoint] is default-constructed, and [cvmfs_fini]
    assigns the empty string to it; nothing else in the file writes it. *)
Definition mountpoint_initial : string := "".
Definition cvmfs_fini (mountpoint : string) : string := "".

(** The calls of the interface of libcvmfs.cc, by name and arguments. *)
Inductive api_call : Type :=
| CallInit (options : string)
| CallAttachRepo (options : string)
| CallFini
| CallOpen (path : string)
| CallClose (fd : Z)
| CallReadlink (path : string) (size : Z)
| CallStat (path : string)
| CallLstat (path : string)
| CallListdir (path : string)
| CallSetLogFn
| CallRemount.

(** What a call leaves in the static [mountpoint].  The assignment in
    [cvmfs_fini] is the only one in the file, and the variable is
    [static], so no other file reaches it: [cvmfs_attach_repo] hands its
    options, the mountpoint option among them, to [cvmfs_context::Create]
    and leaves the static as it is. *)
Definition mountpoint_after (c : api_call) (mountpoint : string) : string :=
  match c with
  | CallFini => cvmfs_fini mountpoint
  | _ => mountpoint
  end.

(** The static [mountpoint] after a sequence of calls from the start of
    the program: the mountpoint [expand_path] runs with. *)
Definition static_mountpoint (calls : list api_call) : string :=
  fold_left (fun m c => mountpoint_after c m) calls mountpoint_initial.

(** The repository of the scenarios is attached with these options. *)
Definition attach_cvmfs_repo : api_call :=
  CallAttachRepo "url=http://host/repo,mountpoint=/cvmfs/repo".

(* ================================================================= *)
(** ** Backends to run the resolver on *)

(** A repository given by a table of its entries.  The backend state is
    the list of the paths [GetAttr] was asked about, in call order. *)
Inductive entry : Type :=
| Dir
| File
| Link (target : string).

Definition tree : Type := list (string * entry).

Fixpoint lookup (p : string) (t : tree) : option entry :=
  match t with
  | [] => None
  | (q, e) :: t' => if (p =? q)%string then Some e else lookup p t'
  end.

Definition stat_of (e : entry) : stat :=
  match e with
  | Dir => {| st_mode := S_IFDIR + 493; st_size := 4096 |}
  | File => {| st_mode := S_IFREG + 420; st_size := 0 |}
  | Link target =>
      {| st_mode := S_IFLNK + 511;
         st_size := Z.of_nat (String.length target) |}
  end.

Definition tree_ctx (t : tree) : cvmfs_context (list string) := {|
  GetAttr p asked :=
    match lookup p t with
    | Some e => (0, stat_of e, (asked ++ [p])%list)
    | None => (- ENOENT, {| st_mode := 0; st_size := 0 |}, (asked ++ [p])%list)
    end;
  Readlink p size asked :=
    match lookup p t with
    | Some (Link target) => (0, target, asked)
    | Some _ => (- EINVAL, "", asked)
    | None => (- ENOENT, "", asked)
    end;
  Open p asked :=
    match lookup p t with
    | Some File => (3, asked)
    | Some _ => (- 21, asked)
    | None => (- ENOENT, asked)
    end;
  Close fd asked := if fd =? 3 then (0, asked) else (- 9, asked);
  ListDirectory p asked :=
    match lookup p t with
    | Some Dir => (0, [], asked)
    | Some _ => (- 20, [], asked)
    | None => (- ENOENT, [], asked)
    end
|}.

(** A backend in which every path is a plain directory. *)
Definition plain_ctx : cvmfs_context unit := {|
  GetAttr p s := (0, stat_of Dir, s);
  Readlink p size s := (- EINVAL, "", s);
  Open p s := (- 21, s);
  Close fd s := (- 9, s);
  ListDirectory p s := (0, [], s)
|}.

(** A chain of [n] relative links in the root directory: "/a" points to
    "aa", "/aa" to "aaa", and so on; the link number [k] is the path
    [chain_link k].  Every other path is a plain file. *)
Fixpoint letters (k : nat) : string :=
  match k with
  | O => ""
  | S k' => String "a" (letters k')
  end.

Definition chain_link (k : nat) : string := "/" ++ letters k.

Definition chain_index (n : nat) (p : string) : option nat :=
  let k := (String.length p - 1)%nat in
  if (1 <=? k)%nat && (k <=? n)%nat && (p =? chain_link k)%string
  then Some k else None.

Definition chain_ctx (n : nat) : cvmfs_context unit := {|
  GetAttr p s :=
    match chain_index n p with
    | Some k => (0, stat_of (Link (letters (S k))), s)
    | None => (0, stat_of File, s)
    end;
  Readlink p size s :=
    match chain_index n p with
    | Some k => (0, letters (S k), s)
    | None => (- EINVAL, "", s)
    end;
  Open p s := (3, s);
  Close fd s := (0, s);
  ListDirectory p s := (- 20, [], s)
|}.

(** A backend that answers every attribute lookup with the status
    [-ELOOP]. *)
Definition looping_ctx : cvmfs_context unit := {|
  GetAttr p s := (- ELOOP, {| st_mode := 0; st_size := 0 |}, s);
  Readlink p size s := (- EINVAL, "", s);
  Open p s := (- ELOOP, s);
  Close fd s := (- 9, s);
  ListDirectory p s := (- ELOOP, [], s)
|}.

(** A backend that never fails: every path is a symbolic link to
    /etc/passwd, and every status is 0 (3 for an opened file). *)
Definition all_links_ctx : cvmfs_context unit := {|
  GetAttr p s := (0, stat_of (Link "/etc/passwd"), s);
  Readlink p size s := (0, "/etc/passwd", s);
  Open p s := (3, s);
  Close fd s := (0, s);
  ListDirectory p s := (0, [], s)
|}.

(** An allocator that never fails. *)
Definition always (n : Z) : bool := true.

(* ================================================================= *)
(** ** The vocabulary of the properties *)

(** The candidate path [expand_path] asks the backend about: the expanded
    parent [buf], a slash unless [buf] ends in one, and the file name. *)
Definition candidate (buf fname : string) : string :=
  (if (String.length buf =? 0)%nat || negb (Str.last_is_slash buf)
   then buf ++ "/" else buf) ++ fname.

(** The path with the given components below the root:
    [join ["a"; "b"]] is ["/a/b"], and [join []] is empty. *)
Fixpoint join (cs : list string) : string :=
  match cs with
  | [] => ""
  | c :: cs' => "/" ++ c ++ join cs'
  end.

(** The absolute path with the given components; the root for none. *)
Definition path_of (cs : list string) : string :=
  match cs with
  | [] => "/"
  | _ => join cs
  end.

(** An ordinary name: not empty, without a slash, and neither of the two
    special names. *)
Definition plain_name (c : string) : Prop :=
  c <> "" /\ Str.no_slash c /\ c <> "." /\ c <> "..".

(** The result of going up from [expanded]: its last component is
    stripped, and what is left is the root if it is empty. *)
Definition strip_last_component (expanded : string) : string :=
  if (GetParentPath expanded =? "")%string then "/"
  else GetParentPath expanded.

(** The resolution of a link target in the words of the specification.
    An absolute target must be the mountpoint followed by nothing or by a
    slash: the mountpoint is stripped, and nothing left is the root.  A
    relative target is put behind the directory of the link [cand]
    itself.  [None] stands for a target that escapes the repository. *)
Inductive target_resolves (mountpoint cand ln : string)
  : option string -> Prop :=
| target_is_mountpoint :
    Str.starts_with_slash ln = true -> ln = mountpoint ->
    target_resolves mountpoint cand ln (Some "/")
| target_below_mountpoint rest :
    Str.starts_with_slash ln = true -> ln = mountpoint ++ rest ->
    Str.starts_with_slash rest = true ->
    target_resolves mountpoint cand ln (Some rest)
| target_outside_mountpoint :
    Str.starts_with_slash ln = true ->
    (forall rest, ln = mountpoint ++ rest ->
                  rest <> "" /\ Str.starts_with_slash rest = false) ->
    target_resolves mountpoint cand ln None
| target_relative :
    Str.starts_with_slash ln = false ->
    target_resolves mountpoint cand ln
      (Some (GetParentPath cand ++ "/" ++ ln)).

Section Vocabulary.

Context {B : Type}.
Variable ctx : cvmfs_context B.
Variable smalloc : Z -> bool.
Variable mountpoint : string.

Local Abbreviation expand := (expand_path ctx smalloc mountpoint).
Local Abbreviation follow := (stat_and_follow ctx smalloc mountpoint).
Local Abbreviation returns := (expand_path_returns ctx smalloc mountpoint).

(** [r2] answers wherever [r1] does, and the same. *)
Definition extends (r1 r2 : string -> Z -> B -> option (run B)) : Prop :=
  forall p d s o, r1 p d s = Some o -> r2 p d s = Some o.

(** A computation indexed by fuel that gives one answer from some amount
    of fuel on. *)
Definition settles (f : nat -> option (run B)) : Prop :=
  exists n o, forall m, (n <= m)%nat -> f m = Some o.

(** The part of a call from the candidate on returns [o]. *)
Definition follow_returns (path fname : string) (depth : Z) (buf : string)
    (s : B) (log : list log_entry) (o : run B) : Prop :=
  exists fuel, follow (expand fuel) path fname depth buf s log = Some o.

(** What the [".."] branch makes of the expansion of the parent. *)
Definition dotdot_outcome (path : string) (o : run B) : run B :=
  match o with
  | (Err e, s, log) => (Err e, s, log)
  | (Ok expanded, s, log) =>
      if (expanded =? "/")%string
      then (Err ENOENT, s, (log ++ [LogAboveRoot path])%list)
      else (Ok (if (GetParentPath expanded =? "")%string
                then "/" else GetParentPath expanded), s, log)
  end.

(** The call on [path] gets to the candidate with the expanded parent
    [buf] (empty for a top-level path), in state [s1], having logged
    [log]. *)
Definition reaches (path : string) (depth : Z) (s : B)
    (buf : string) (s1 : B) (log : list log_entry) : Prop :=
  GetFileName path <> ".." /\
  ((GetParentPath path = "" /\ buf = "" /\ s1 = s /\ log = []) \/
   (GetParentPath path <> "" /\ GetFileName path <> "." /\
    returns (GetParentPath path) depth s (Ok buf, s1, log))).

(** The call on [path] encounters a symbolic link: [GetAttr] succeeds on
    the candidate [cand] and reports a link, leaving the state [s2]. *)
Definition meets_link (path : string) (depth : Z) (s : B)
    (cand : string) (st : stat) (s2 : B) (log : list log_entry) : Prop :=
  exists buf s1,
    reaches path depth s buf s1 log /\
    cand = candidate buf (GetFileName path) /\
    GetAttr ctx cand s1 = (0, st, s2) /\
    S_ISLNK (st_mode st) = true.

(** The call on [path] encounters a link within the depth bound and reads
    its target [ln], leaving the state [s3]. *)
Definition reads_link (path : string) (depth : Z) (s : B)
    (cand ln : string) (s3 : B) (log : list log_entry) : Prop :=
  exists st s2,
    meets_link path depth s cand st s2 log /\
    depth <= 1000 /\
    smalloc (st_size st + 2) = true /\
    Readlink ctx cand (st_size st + 2) s2 = (0, ln, s3).

(** Where a result comes from.  A successful call logs nothing; a failed
    one carries the negated status of a backend call, [ENOMEM], or one of
    the two codes the resolver raises itself together with the message it
    logs then; behind the message about the recursion limit there is a
    call that encountered a link while its depth exceeded 1000. *)
Inductive origin : result -> list log_entry -> Prop :=
| origin_ok p : origin (Ok p) []
| origin_getattr p s rc st s1 :
    GetAttr ctx p s = (rc, st, s1) -> rc <> 0 -> origin (Err (- rc)) []
| origin_readlink p n s rc ln s1 :
    Readlink ctx p n s = (rc, ln, s1) -> rc <> 0 -> origin (Err (- rc)) []
| origin_nomem : origin (Err ENOMEM) []
| origin_above p : origin (Err ENOENT) [LogAboveRoot p]
| origin_outside p ln mp :
    origin (Err ENOENT) [LogOutsideMountpoint p ln mp]
| origin_limit p depth s cand st s2 log :
    meets_link p depth s cand st s2 log -> 1000 < depth ->
    origin (Err ELOOP) [LogRecursionLimit p].

(** In every state the backend answers that [p] exists and is no link. *)
Definition plain_at (p : string) : Prop :=
  forall s, exists st s',
    GetAttr ctx p s = (0, st, s') /\ S_ISLNK (st_mode st) = false.

(** In every state the backend answers that [p] is a symbolic link. *)
Definition link_at (p : string) : Prop :=
  forall s, exists st s',
    GetAttr ctx p s = (0, st, s') /\ S_ISLNK (st_mode st) = true.

(** The backend has answered at least once that [p] exists and is no
    link. *)
Definition seen_plain (p : string) : Prop :=
  exists s st s',
    GetAttr ctx p s = (0, st, s') /\ S_ISLNK (st_mode st) = false.

(** Every successful result is the root or a path that the backend has
    reported as no link, and so is each of its proper prefixes that ends
    before a slash. *)
Definition walked (r : string) : Prop :=
  Str.starts_with_slash r = true /\
  (forall q rest, r = q ++ String "/" rest -> q <> "" -> seen_plain q) /\
  (r = "/" \/ seen_plain r).

(** [rc] is a status some method of the backend answers with. *)
Definition backend_status (rc : Z) : Prop :=
  (exists p s, fst (fst (GetAttr ctx p s)) = rc) \/
  (exists p n s, fst (fst (Readlink ctx p n s)) = rc) \/
  (exists p s, fst (Open ctx p s) = rc) \/
  (exists fd s, fst (Close ctx fd s) = rc) \/
  (exists p s, fst (fst (ListDirectory ctx p s)) = rc).

(** The reply made from the status [rc] of the backend call an operation
    delegates to: [keep] says whether a non-negative status is returned
    as it is ([cvmfs_open]) or as 0. *)
Definition answer {A : Type} (keep : bool) (errno rc : Z)
    (payload : option A) (s : B) : reply B A :=
  if rc <? 0 then Reply (-1) (- rc) None s
  else Reply (if keep then rc else 0) errno payload s.

(** [op] resolves its path in full and hands the result to [delegate]. *)
Definition resolves_fully {A : Type}
    (op : nat -> string -> Z -> B -> option (reply B A))
    (delegate : string -> B -> Z * option A * B) (keep : bool) : Prop :=
  forall path errno s,
    (forall lpath s1 l,
       returns path 0 s (Ok lpath, s1, l) ->
       exists fuel,
         op fuel path errno s
         = Some (let '(rc, a, s2) := delegate lpath s1 in
                 answer keep errno rc a s2)) /\
    (forall e s1 l,
       returns path 0 s (Err e, s1, l) ->
       exists fuel, op fuel path errno s = Some (Reply (-1) e None s1)).

(** [op] resolves the parent of its path only and hands the result, with
    the final component as it was given, to [delegate]; a path without a
    parent component goes to [delegate] as it is. *)
Definition resolves_parent_only {A : Type}
    (op : nat -> string -> Z -> B -> option (reply B A))
    (delegate : string -> B -> Z * option A * B) : Prop :=
  forall path errno s,
    (GetParentPath path = "" ->
     forall fuel,
       op fuel path errno s
       = Some (let '(rc, a, s2) := delegate path s in
               answer false errno rc a s2)) /\
    (GetParentPath path <> "" ->
     (forall pe s1 l,
        returns (GetParentPath path) 0 s (Ok pe, s1, l) ->
        exists fuel,
          op fuel path errno s
          = Some (let '(rc, a, s2) :=
                    delegate (pe ++ "/" ++ GetFileName path) s1 in
                  answer false errno rc a s2)) /\
     (forall e s1 l,
        returns (GetParentPath path) 0 s (Err e, s1, l) ->
        exists fuel, op fuel path errno s = Some (Reply (-1) e None s1))).

(** The backend calls the operations delegate to, as a status, what is
    written for the caller, and the state. *)
Definition getattr_of (p : string) (s : B) : Z * option stat * B :=
  let '(rc, st, s') := GetAttr ctx p s in (rc, Some st, s').

Definition readlink_of (size : Z) (p : string) (s : B)
  : Z * option string * B :=
  let '(rc, buf, s') := Readlink ctx p size s in (rc, Some buf, s').

Definition open_of (p : string) (s : B) : Z * option unit * B :=
  let '(rc, s') := Open ctx p s in (rc, None, s').

Definition listdir_of (p : string) (s : B) : Z * option (list string) * B :=
  let '(rc, buf, s') := ListDirectory ctx p s in (rc, Some buf, s').

End Vocabulary.

(* ================================================================= *)
(** ** The calls a call makes, and why a call fails *)

(** Why an operation fails: a call of the backend answered with the
    status [rc], or the resolver rejects the path itself: it leaves the
    repository, the depth bound is exceeded, or the buffer for a link
    target was not allocated. *)
Inductive cause : Type :=
| BackendStatus (rc : Z)
| RootEscape
| DepthExceeded
| NoBuffer.

(** The value [errno] is set to. *)
Definition errno_of (c : cause) : Z :=
  match c with
  | BackendStatus rc => - rc
  | RootEscape => ENOENT
  | DepthExceeded => ELOOP
  | NoBuffer => ENOMEM
  end.

Section Calls.

Context {B : Type}.
Variable ctx : cvmfs_context B.
Variable smalloc : Z -> bool.
Variable mountpoint : string.

Local Abbreviation returns := (expand_path_returns ctx smalloc mountpoint).
Local Abbreviation preturns :=
  (expand_ppath_returns ctx smalloc mountpoint).
Local Abbreviation reaches := (reaches ctx smalloc mountpoint).
Local Abbreviation meets_link := (meets_link ctx smalloc mountpoint).
Local Abbreviation reads_link := (reads_link ctx smalloc mountpoint).

(** [calls n c c']: the call [c'] of [expand_path], given by its path,
    its depth and the backend state it starts in, is [c] or one of the
    calls made on behalf of [c]: the call on the parent path, which is
    the first thing a call does, the call on the target of the link the
    call has read, and the calls these make.  [n] is the number of links
    read on the way from [c] to [c']. *)
Inductive calls : nat -> string * Z * B -> string * Z * B -> Prop :=
| calls_self c : calls 0 c c
| calls_parent n path depth s c' :
    GetFileName path = ".." \/ GetParentPath path <> "" ->
    calls n (GetParentPath path, depth, s) c' ->
    calls n (path, depth, s) c'
| calls_link n path depth s cand ln s3 t c' :
    reads_link path depth s cand ln s3 [] ->
    link_target mountpoint cand ln = Some t ->
    calls n (t, depth + 1, s3) c' ->
    calls (S n) (path, depth, s) c'.

(** The call on [path] fails by itself, not through a call it makes:
    the cause, the backend state at the failure, and what is logged. *)
Inductive fails_at (path : string) (depth : Z) (s : B)
  : cause -> B -> list log_entry -> Prop :=
| fails_above_root s1 :
    GetFileName path = ".." ->
    returns (GetParentPath path) depth s (Ok "/", s1, []) ->
    fails_at path depth s RootEscape s1 [LogAboveRoot path]
| fails_getattr buf s1 rc st s2 :
    reaches path depth s buf s1 [] ->
    GetAttr ctx (candidate buf (GetFileName path)) s1 = (rc, st, s2) ->
    rc <> 0 ->
    fails_at path depth s (BackendStatus rc) s2 []
| fails_limit cand st s2 :
    meets_link path depth s cand st s2 [] -> 1000 < depth ->
    fails_at path depth s DepthExceeded s2 [LogRecursionLimit path]
| fails_nomem cand st s2 :
    meets_link path depth s cand st s2 [] -> depth <= 1000 ->
    smalloc (st_size st + 2) = false ->
    fails_at path depth s NoBuffer s2 []
| fails_readlink cand st s2 rc ln s3 :
    meets_link path depth s cand st s2 [] -> depth <= 1000 ->
    smalloc (st_size st + 2) = true ->
    Readlink ctx cand (st_size st + 2) s2 = (rc, ln, s3) -> rc <> 0 ->
    fails_at path depth s (BackendStatus rc) s3 []
| fails_outside cand ln s3 :
    reads_link path depth s cand ln s3 [] ->
    link_target mountpoint cand ln = None ->
    fails_at path depth s RootEscape s3
      [LogOutsideMountpoint path ln mountpoint].

(** The resolution of [path] from the state [s] fails for the cause [c]
    and leaves the state [s']: some call made on its behalf fails by
    itself. *)
Definition resolution_fails (path : string) (s : B) (c : cause) (s' : B)
  : Prop :=
  exists n p d s0 l,
    calls n (path, 0, s) (p, d, s0) /\ fails_at p d s0 c s' l.

(** The backend call an operation delegates to, on the resolved path
    [lpath], answers with a negative status. *)
Definition delegate_fails {A : Type}
    (delegate : string -> B -> Z * option A * B)
    (lpath : string) (s1 : B) (c : cause) (s' : B) : Prop :=
  exists rc a,
    delegate lpath s1 = (rc, a, s') /\ rc < 0 /\ c = BackendStatus rc.

(** Why an operation with full resolution fails: the resolution of its
    path does, or the backend call on the resolved path. *)
Definition full_op_fails {A : Type}
    (delegate : string -> B -> Z * option A * B)
    (path : string) (s : B) (c : cause) (s' : B) : Prop :=
  resolution_fails path s c s' \/
  exists lpath s1 l,
    returns path 0 s (Ok lpath, s1, l) /\
    delegate_fails delegate lpath s1 c s'.

(** Why an operation with parent-only resolution fails: the resolution
    of the parent does, or the backend call on the path made of the
    expanded parent and the final component. *)
Definition parent_op_fails {A : Type}
    (delegate : string -> B -> Z * option A * B)
    (path : string) (s : B) (c : cause) (s' : B) : Prop :=
  (GetParentPath path <> "" /\
   resolution_fails (GetParentPath path) s c s') \/
  exists lpath s1 l,
    preturns path s (Ok lpath, s1, l) /\
    delegate_fails delegate lpath s1 c s'.

(** Why [cvmfs_close] fails. *)
Definition close_fails (fd : Z) (s : B) (c : cause) (s' : B) : Prop :=
  exists rc, Close ctx fd s = (rc, s') /\ rc < 0 /\ c = BackendStatus rc.

(** The return convention: a non-negative value with [errno] untouched,
    or -1 with nothing written and [errno] set to the code of the cause
    for which the operation has failed, in the state of that failure. *)
Definition convention {A : Type} (errno : Z) (rep : reply B A)
    (fails : cause -> B -> Prop) : Prop :=
  (0 <= retval rep /\ errno_after rep = errno) \/
  (retval rep = -1 /\ data rep = None /\
   exists c, errno_after rep = errno_of c /\ fails c (backend_after rep)).

End Calls.

(* ================================================================= *)
(** ** Option strings *)

Module Opt.

(** One scanning loop of [parse_options].  Characters are taken up to the
    end of the string or the first character [stop] holds of; a backslash
    takes the character behind it as it is, and a backslash at the very
    end ends the loop.  The result is the text read and the string from
    the place where the loop stopped. *)
Fixpoint scan (stop : ascii -> bool) (s : string) : string * string :=
  match s with
  | EmptyString => ("", "")
  | String c s' =>
      if stop c then ("", s)
      else if Ascii.eqb c "\" then
        match s' with
        | EmptyString => ("", "")
        | String d s'' =>
            let '(text, next) := scan stop s'' in (String d text, next)
        end
      else let '(text, next) := scan stop s' in (String c text, next)
  end.

(** The loop for the name stops at a comma or an equals sign, the loop
    for the value at a comma. *)
Definition name_stop (c : ascii) : bool :=
  Ascii.eqb c "," || Ascii.eqb c "=".
Definition value_stop (c : ascii) : bool := Ascii.eqb c ",".

(** The pointer [next] moves past the character [c] if it stands at
    one. *)
Definition skip (c : ascii) (next : string) : string :=
  match next with
  | String d next' => if Ascii.eqb d c then next' else next
  | EmptyString => next
  end.

Section ParseOptions.

(** [cvmfs_options<DerivedT>]: the options object and the two methods of
    [DerivedT] that [parse_options] calls.  A method gives its [int]
    result and the object it leaves.  What the methods print to stderr is
    not part of the model. *)
Variable Opts : Type.
Variable set_option : string -> string -> Opts -> Z * Opts.
Variable verify_sanity : Opts -> Z * Opts.

(** The [while] loop of [parse_options], one round per unit of fuel;
    [None] means that the fuel ran out. *)
Fixpoint parse_loop (fuel : nat) (options : string) (o : Opts)
  : option (Z * Opts) :=
  match fuel with
  | O => None
  | S fuel' =>
      match options with
      | EmptyString => Some (verify_sanity o)
      | _ =>
          let '(name, next) := scan name_stop options in
          let next := skip "=" next in
          let '(value, next) := scan value_stop next in
          if negb (name =? "")%string || negb (value =? "")%string then
            let '(result, o) := set_option name value o in
            if negb (result =? 0) then Some (result, o)
            else parse_loop fuel' (skip "," next) o
          else parse_loop fuel' (skip "," next) o
      end
  end.

(** Every round moves on in the string, so one unit of fuel per character
    and one more are enough ([parse_options_terminates]). *)
Definition parse_options (options : string) (o : Opts) : option (Z * Opts) :=
  parse_loop (S (String.length options)) options o.

End ParseOptions.

(** [cvmfs_repo_options].  The three fields this file reads are strings;
    the other fields are declared in libcvmfs_int.h, which is not part of
    the sources, so they are kept together as [other_fields], and the
    overload of [::set_option] that assigns one of them is the parameter
    [set_other]. *)
Record repo_options (R : Type) : Type := {
  url : string;
  repo_name : string;
  mountpoint : string;
  other_fields : R
}.
Arguments url {R} _.
Arguments repo_name {R} _.
Arguments mountpoint {R} _.
Arguments other_fields {R} _.

Section RepoOptions.

Context {R : Type}.
Variable set_other : string -> string -> R -> Z * R.

Definition assign_other (name value : string) (o : repo_options R)
  : Z * repo_options R :=
  let '(result, f) := set_other name value (other_fields o) in
  (result, {| url := url o; repo_name := repo_name o;
              mountpoint := mountpoint o; other_fields := f |}).

(** [cvmfs_repo_options::set_option]: the chain of [CVMFS_OPT] tests, in
    the order of the source. *)
Definition repo_set_option (name value : string) (o : repo_options R)
  : Z * repo_options R :=
  if (name =? "url")%string then
    (0, {| url := value; repo_name := repo_name o;
           mountpoint := mountpoint o; other_fields := other_fields o |})
  else if (name =? "timeout")%string then assign_other name value o
  else if (name =? "timeout_direct")%string then assign_other name value o
  else if (name =? "proxies")%string then assign_other name value o
  else if (name =? "tracefile")%string then assign_other name value o
  else if (name =? "allow_unsigned")%string then assign_other name value o
  else if (name =? "pubkey")%string then assign_other name value o
  else if (name =? "deep_mount")%string then assign_other name value o
  else if (name =? "repo_name")%string then
    (0, {| url := url o; repo_name := value;
           mountpoint := mountpoint o; other_fields := other_fields o |})
  else if (name =? "mountpoint")%string then
    (0, {| url := url o; repo_name := repo_name o;
           mountpoint := value; other_fields := other_fields o |})
  else if (name =? "blacklist")%string then assign_other name value o
  else (-1, o).

(** The [while] loop of [verify_sanity], one round per unit of fuel. *)
Fixpoint strip_slashes (fuel : nat) (mountpoint : string) : string :=
  match fuel with
  | O => mountpoint
  | S fuel' =>
      if (0 <? String.length mountpoint)%nat
         && Str.last_is_slash mountpoint
      then strip_slashes fuel'
             (substring 0 (String.length mountpoint - 1) mountpoint)
      else mountpoint
  end.

(** [cvmfs_repo_options::verify_sanity].  The loop removes one character
    per round, so the length of the string bounds its rounds. *)
Definition repo_verify_sanity (o : repo_options R) : Z * repo_options R :=
  let mountpoint :=
    if (mountpoint o =? "")%string && negb (repo_name o =? "")%string
    then "/cvmfs/" ++ repo_name o
    else mountpoint o in
  let mountpoint := strip_slashes (String.length mountpoint) mountpoint in
  (0, {| url := url o; repo_name := repo_name o;
         mountpoint := mountpoint; other_fields := other_fields o |}).

(** [cvmfs_attach_repo].  [defaults] is the default-constructed options
    object and [create] stands for [cvmfs_context::Create]; both belong to
    libcvmfs_int.h.  [W] is the state [create] works on, and [None] for
    the context is the null pointer. *)
Definition cvmfs_attach_repo {W H : Type}
    (defaults : repo_options R)
    (create : repo_options R -> W -> option H * W)
    (options : string) (w : W) : option (option H * W) :=
  match parse_options (repo_options R) repo_set_option repo_verify_sanity
          options defaults with
  | None => None
  | Some (parse_result, opts) =>
      if negb (parse_result =? 0) then Some (None, w)
      else if (url opts =? "")%string then Some (None, w)
      else Some (create opts w)
  end.

End RepoOptions.

Section GlobalOptions.

(** [cvmfs_global_options]: all of its fields are declared in
    libcvmfs_int.h, so the options object is abstract, and [set_field] is
    the overload of [::set_option] that assigns the named field. *)
Context {G : Type}.
Variable set_field : string -> string -> G -> Z * G.

Definition global_set_option (name value : string) (g : G) : Z * G :=
  if (name =? "cache_directory")%string then set_field name value g
  else if (name =? "change_to_cache_directory")%string then
    set_field name value g
  else if (name =? "log_syslog_level")%string then set_field name value g
  else if (name =? "log_prefix")%string then set_field name value g
  else if (name =? "log_file")%string then set_field name value g
  else if (name =? "max_open_files")%string then set_field name value g
  else (-1, g).

Definition global_verify_sanity (g : G) : Z * G := (0, g).

(** [cvmfs_init]; [initialize] stands for [cvmfs_globals::Initialize]. *)
Definition cvmfs_init {W : Type} (defaults : G)
    (initialize : G -> W -> Z * W) (options : string) (w : W)
  : option (Z * W) :=
  match parse_options G global_set_option global_verify_sanity
          options defaults with
  | None => None
  | Some (parse_result, opts) =>
      if negb (parse_result =? 0) then Some (parse_result, w)
      else Some (initialize opts w)
  end.

End GlobalOptions.

(** *** The vocabulary of the properties of option strings *)

(** The place a round of the loop of [parse_options] leaves the pointer
    at. *)
Definition after_round (options : string) : string :=
  skip "," (snd (scan value_stop (skip "=" (snd (scan name_stop options))))).

(** A text with a backslash before every character [special] holds of. *)
Fixpoint escape (special : ascii -> bool) (s : string) : string :=
  match s with
  | EmptyString => ""
  | String c s' =>
      if special c then String "\" (String c (escape special s'))
      else String c (escape special s')
  end.

(** In a name the comma, the backslash and the equals sign are escaped,
    in a value the comma and the backslash. *)
Definition name_special (c : ascii) : bool :=
  Ascii.eqb c "," || Ascii.eqb c "\" || Ascii.eqb c "=".
Definition value_special (c : ascii) : bool :=
  Ascii.eqb c "," || Ascii.eqb c "\".

(** An option as it is written in an option string. *)
Definition written (p : string * string) : string :=
  escape name_special (fst p) ++ "=" ++ escape value_special (snd p).

(** The option string of a list of options, a comma between two. *)
Fixpoint render (ps : list (string * string)) : string :=
  match ps with
  | [] => ""
  | [p] => written p
  | p :: ps' => written p ++ "," ++ render ps'
  end.

Section Apply.

Variable Opts : Type.
Variable set_option : string -> string -> Opts -> Z * Opts.
Variable verify_sanity : Opts -> Z * Opts.

(** The options are set one after the other, an option without name and
    value being passed over, up to the first one that is refused; if none
    is refused the object is checked at the end. *)
Fixpoint apply_all (ps : list (string * string)) (o : Opts) : Z * Opts :=
  match ps with
  | [] => verify_sanity o
  | (name, value) :: ps' =>
      if (name =? "")%string && (value =? "")%string then apply_all ps' o
      else
        let '(result, o') := set_option name value o in
        if negb (result =? 0) then (result, o') else apply_all ps' o'
  end.

End Apply.

(** The options of an option string, read off character by character:
    a comma ends an option; the first equals sign of an option ends its
    name and starts its value; a backslash takes the character behind it
    as it is, and a backslash at the very end is dropped.  [in_value]
    says whether the name has ended, [name] and [value] are what has
    been read of the option at hand.  An option may have no value and no
    equals sign, and an empty string has one option, without name and
    value. *)
Fixpoint lex (s : string) (in_value : bool) (name value : string)
  : list (string * string) :=
  match s with
  | EmptyString => [(name, value)]
  | String c s' =>
      if Ascii.eqb c "," then (name, value) :: lex s' false "" ""
      else if Ascii.eqb c "=" && negb in_value then lex s' true name value
      else if Ascii.eqb c "\" then
        match s' with
        | EmptyString => [(name, value)]
        | String d s'' =>
            if in_value then lex s'' true name (value ++ String d "")
            else lex s'' false (name ++ String d "") value
        end
      else if in_value then lex s' true name (value ++ String c "")
      else lex s' false (name ++ String c "") value
  end.

Definition options_of (s : string) : list (string * string) :=
  lex s false "" "".

(** Whether a string ends in the middle of an escape: its last
    character is a backslash that is not itself escaped. *)
Fixpoint dangling (s : string) : bool :=
  match s with
  | EmptyString => false
  | String c s' =>
      if Ascii.eqb c "\" then
        match s' with
        | EmptyString => true
        | String _ s'' => dangling s''
        end
      else dangling s'
  end.

(** The names [cvmfs_repo_options] and [cvmfs_global_options] know. *)
Definition repo_keys : list string :=
  ["url"; "timeout"; "timeout_direct"; "proxies"; "tracefile";
   "allow_unsigned"; "pubkey"; "deep_mount"; "repo_name"; "mountpoint";
   "blacklist"].
Definition global_keys : list string :=
  ["cache_directory"; "change_to_cache_directory"; "log_syslog_level";
   "log_prefix"; "log_file"; "max_open_files"].

(** A string of slashes. *)
Fixpoint slashes (n : nat) : string :=
  match n with
  | O => ""
  | S n' => String "/" (slashes n')
  end.

End Opt.

(* ================================================================= *)
(** ** A backend that records the attribute lookups *)

(** The backend [ctx] with a record of the paths [GetAttr] is asked
    about, in call order, beside its state. *)
Definition traced {B : Type} (ctx : cvmfs_context B)
  : cvmfs_context (B * list string) := {|
  GetAttr p s :=
    let '(rc, st, b) := GetAttr ctx p (fst s) in
    (rc, st, (b, (snd s ++ [p])%list));
  Readlink p size s :=
    let '(rc, ln, b) := Readlink ctx p size (fst s) in (rc, ln, (b, snd s));
  Open p s := let '(rc, b) := Open ctx p (fst s) in (rc, (b, snd s));
  Close fd s := let '(rc, b) := Close ctx fd (fst s) in (rc, (b, snd s));
  ListDirectory p s :=
    let '(rc, buf, b) := ListDirectory ctx p (fst s) in (rc, buf, (b, snd s))
|}.

(** The paths of the non-empty prefixes of a list of names, shortest
    first: ["/a"; "/a/b"] for the names a and b. *)
Definition prefix_paths (cs : list string) : list string :=
  map (fun k => join (firstn k cs)) (seq 1 (List.length cs)).

(** Whether a path has two slashes in a row. *)
Fixpoint double_slash (r : string) : bool :=
  match r with
  | String a (String b _ as r') =>
      Ascii.eqb a "/" && Ascii.eqb b "/" || double_slash r'
  | _ => false
  end.

(** A backend whose answer to [GetAttr] about a path, status and
    attributes, is the same in every state. *)
Definition steady {B : Type} (ctx : cvmfs_context B) : Prop :=
  forall p s1 s2, fst (GetAttr ctx p s1) = fst (GetAttr ctx p s2).

(** The messages a call may have logged when it returns [r]: none with a
    path, at most one with a failure, and each message with its code. *)
Definition log_fits (r : result) (l : list log_entry) : Prop :=
  match l with
  | [] => True
  | [LogAboveRoot _] => r = Err ENOENT
  | [LogOutsideMountpoint _ _ _] => r = Err ENOENT
  | [LogRecursionLimit _] => r = Err ELOOP
  | _ => False
  end.

(* ================================================================= *)
(** ** swissknife letter: signing and verifying a text *)

Module Letter.

(** What [Main] of [cvmfs/swissknife_letter.cc] writes to stdout: a
    number, a text with a line break, and the prompt without one.  The
    diagnostics it writes to stderr are not part of the model. *)
Inductive output : Type :=
| OutNumber (n : Z)
| OutText (s : string)
| OutPrompt (s : string).

(** How a run of [Main] ends: with an exit code, the state it leaves and
    what it wrote; in undefined behaviour, when an argument the code
    reads without a test is not given ([args.find(c)->second] on the end
    iterator); [Unfinished] means that the fuel of the model ran out,
    never a result of the code. *)
Inductive outcome (S : Type) : Type :=
| Exit (code : Z) (st : S) (out : list output)
| Undefined
| Unfinished.
Arguments Exit {S} _ _ _.
Arguments Undefined {S}.
Arguments Unfinished {S}.

Definition newline : ascii := "010"%char.

(** The loop [while (read(0, &c, 1) == 1) { if (c == '\n') break;
    text.push_back(c); }] on the characters stdin still holds: the text,
    whether the loop ended at a line break (the last [read] returned 1),
    and what is left of stdin. *)
Fixpoint read_line (text stdin : string) : string * bool * string :=
  match stdin with
  | EmptyString => (text, false, "")
  | String c stdin' =>
      if Ascii.eqb c newline then (text, true, stdin')
      else read_line (text ++ String c "") stdin'
  end.

(** The collaborators of [Main], which signature.h, whitelist.h,
    letter.h, download.h, hash.h, util.h and <termios.h> declare: the
    sources do not have them.  [W] is the state they work on (key store,
    network, clock), [WL] a [whitelist::Whitelist] object, [T] a [struct
    termios], [A] a [shash::Algorithms].  A method that returns a
    failure code gives [true] for its [kFailOk].  The calls on the
    terminal and [GetLineFd] work on stdin as well. *)
Record collaborators (W WL T A : Type) : Type := {
  String2Uint64 : string -> Z;
  ParseHashAlgorithm : string -> A;
  is_kAny : A -> bool;
  sm_Init : W -> W;
  sm_Fini : W -> W;
  LoadTrustedCaCrl : string -> W -> bool * W;
  LoadPublicRsaKeys : string -> W -> bool * W;
  LoadCertificatePath : string -> W -> bool * W;
  LoadPrivateKeyPath : string -> string -> W -> bool * W;
  KeysMatch : W -> bool * W;
  dm_Init : W -> W;
  dm_Fini : W -> W;
  whitelist_Load : string -> string -> W -> bool * WL * W;
  expires : WL -> Z;
  IsExpired : WL -> W -> bool * W;
  VerifyLoadedCertificate : WL -> W -> bool * W;
  time : W -> Z * W;
  letter_Verify : string -> string -> Z -> W -> bool * string * W;
  letter_Sign : string -> string -> option A -> W -> string * W;
  tcgetattr : string * W -> T * (string * W);
  echo_off : T -> T;
  tcsetattr_flush : T -> string * W -> Z * (string * W);
  tcsetattr_now : T -> string * W -> string * W;
  GetLineFd : string * W -> string * (string * W)
}.
Arguments String2Uint64 {W WL T A} _.
Arguments ParseHashAlgorithm {W WL T A} _.
Arguments is_kAny {W WL T A} _.
Arguments sm_Init {W WL T A} _.
Arguments sm_Fini {W WL T A} _.
Arguments LoadTrustedCaCrl {W WL T A} _.
Arguments LoadPublicRsaKeys {W WL T A} _.
Arguments LoadCertificatePath {W WL T A} _.
Arguments LoadPrivateKeyPath {W WL T A} _.
Arguments KeysMatch {W WL T A} _.
Arguments dm_Init {W WL T A} _.
Arguments dm_Fini {W WL T A} _.
Arguments whitelist_Load {W WL T A} _.
Arguments expires {W WL T A} _.
Arguments IsExpired {W WL T A} _.
Arguments VerifyLoadedCertificate {W WL T A} _.
Arguments time {W WL T A} _.
Arguments letter_Verify {W WL T A} _.
Arguments letter_Sign {W WL T A} _.
Arguments tcgetattr {W WL T A} _.
Arguments echo_off {W WL T A} _.
Arguments tcsetattr_flush {W WL T A} _.
Arguments tcsetattr_now {W WL T A} _.
Arguments GetLineFd {W WL T A} _.

(** [args.find(c) != args.end()], and the value of an argument that is
    read only when it is given. *)
Definition given (a : option string) : bool :=
  match a with
  | Some _ => true
  | None => false
  end.

Definition value_or_empty (a : option string) : string :=
  match a with
  | Some v => v
  | None => ""
  end.

(** [*args.find(c)->second] without a test before it. *)
Definition mandatory {S : Type} (a : option string)
    (k : string -> outcome S) : outcome S :=
  match a with
  | Some v => k v
  | None => Undefined
  end.

Section Main.

Context {W WL T A : Type}.
Variable env : collaborators W WL T A.

(** The part of a round of the verify loop from the refresh of the
    whitelist to the exit code: the code, the message of the letter, the
    whitelist and the state. *)
Definition judge (fqrn repository_url text : string) (max_age : Z)
    (whitelist : WL) (w : W) : Z * string * WL * W :=
  let '(now, w) := time env w in
  let '(whitelist, w) :=
    if now + 3600 * 24 * 3 >? expires env whitelist then
      let '(ok, refresh, w) := whitelist_Load env fqrn repository_url w in
      (if ok then refresh else whitelist, w)
    else (whitelist, w) in
  let '(ok, message, w) := letter_Verify env fqrn text max_age w in
  if negb ok then (3, message, whitelist, w)
  else
    let '(expired, w) := IsExpired env whitelist w in
    if expired then (4, message, whitelist, w)
    else
      let '(ok, w) := VerifyLoadedCertificate env whitelist w in
      (if ok then 0 else 5, message, whitelist, w).

(** What a round writes. *)
Definition report (loop : bool) (exit_code : Z) (message : string)
  : list output :=
  ((if loop then
      OutNumber exit_code
      :: (if exit_code =? 0
          then [OutNumber (Z.of_nat (String.length message))] else [])
    else [])
   ++ (if exit_code =? 0 then [OutText message] else []))%list.

(** The [do ... while (loop)] of the verify mode, one round per unit of
    fuel. *)
Fixpoint verify_loop (fuel : nat) (loop : bool)
    (fqrn repository_url : string) (max_age : Z)
    (exit_code : Z) (text stdin : string) (whitelist : WL) (w : W)
    (out : list output) : outcome (string * W) :=
  match fuel with
  | O => Unfinished
  | S fuel' =>
      let '(text, retval_is_1, stdin) :=
        if (text =? "")%string then read_line text stdin
        else (text, true, stdin) in
      if negb retval_is_1 then Exit exit_code (stdin, w) out
      else
        let '(exit_code, message, whitelist, w) :=
          judge fqrn repository_url text max_age whitelist w in
        let out := (out ++ report loop exit_code message)%list in
        if loop then
          verify_loop fuel' loop fqrn repository_url max_age
            exit_code "" stdin whitelist w out
        else Exit exit_code (stdin, sm_Fini env (dm_Fini env w)) out
  end.

(** The keys and the whitelist of the verify mode; [None] is the exit
    with code 2. *)
Definition verify_setup (fqrn repository_url key_path cacrl_path : string)
    (w : W) : option WL * W :=
  let '(ok, w) :=
    if negb (cacrl_path =? "")%string
    then LoadTrustedCaCrl env cacrl_path w else (true, w) in
  if negb ok then (None, w)
  else
    let '(retval, w) := LoadPublicRsaKeys env key_path w in
    if negb retval && (cacrl_path =? "")%string then (None, w)
    else
      let w := dm_Init env w in
      let '(ok, whitelist, w) := whitelist_Load env fqrn repository_url w in
      if negb ok then (None, w) else (Some whitelist, w).

(** How the loop that asks for the password ends. *)
Inductive asked : Type :=
| TerminalFailure (st : string * W) (out : list output)
| Answered (success : bool) (st : string * W) (out : list output)
| StillAsking.

(** The [do ... while (!success && (retry < 3))] of the sign mode, one
    round per unit of fuel. *)
Fixpoint password_loop (fuel : nat) (key_path : string) (retry : Z)
    (st : string * W) (out : list output) : asked :=
  match fuel with
  | O => StillAsking
  | S fuel' =>
      let '(defrsett, st) := tcgetattr env st in
      let newrsett := echo_off env defrsett in
      let '(rc, st) := tcsetattr_flush env newrsett st in
      if negb (rc =? 0) then TerminalFailure st out
      else
        let out :=
          (out ++ [OutPrompt "Enter password for private key: "])%list in
        let '(certificate_password, st) := GetLineFd env st in
        let st := tcsetattr_now env defrsett st in
        let out := (out ++ [OutText ""])%list in
        let '(success, w) :=
          LoadPrivateKeyPath env key_path certificate_password (snd st) in
        let st := (fst st, w) in
        let retry := retry + 1 in
        if negb success && (retry <? 3)
        then password_loop fuel' key_path retry st out
        else Answered success st out
  end.

(** The sign mode from the check of the keys on. *)
Definition sign_letter (fqrn text : string) (hash_algorithm : option A)
    (st : string * W) (out : list output) : outcome (string * W) :=
  let '(stdin, w) := st in
  let '(ok, w) := KeysMatch env w in
  if negb ok then Exit 2 (stdin, w) out
  else
    let '(text, stdin) :=
      if (text =? "")%string
      then let '(text, _, stdin) := read_line text stdin in (text, stdin)
      else (text, stdin) in
    let '(signed, w) := letter_Sign env fqrn text hash_algorithm w in
    Exit 0 (stdin, sm_Fini env w) (out ++ [OutText signed])%list.

(** [swissknife::CommandLetter::Main].  [args] is the argument list, a
    map from option characters to strings; the state is what stdin holds
    and the state of the collaborators.  [hash_algorithm] is declared
    without a value, so it has none unless the option a is given. *)
Definition Main (args : ascii -> option string) (st : string * W)
  : outcome (string * W) :=
  let '(stdin, w) := st in
  let verify := given (args "v"%char) in
  if given (args "s"%char) && verify then Exit 1 st []
  else if verify then
    mandatory (args "r"%char) (fun repository_url =>
    mandatory (args "m"%char) (fun m =>
    let max_age := String2Uint64 env m in
    let loop := given (args "l"%char) in
    mandatory (args "f"%char) (fun fqrn =>
    mandatory (args "k"%char) (fun key_path =>
    let text := value_or_empty (args "t"%char) in
    let cacrl_path := value_or_empty (args "z"%char) in
    let w := sm_Init env w in
    match verify_setup fqrn repository_url key_path cacrl_path w with
    | (None, w) => Exit 2 (stdin, w) []
    | (Some whitelist, w) =>
        verify_loop (String.length stdin + 2) loop fqrn repository_url
          max_age 0 text stdin whitelist w []
    end))))
  else
    mandatory (args "c"%char) (fun certificate_path =>
    let certificate_password := value_or_empty (args "p"%char) in
    let hash_algorithm :=
      match args "a"%char with
      | Some a => Some (ParseHashAlgorithm env a)
      | None => None
      end in
    if match hash_algorithm with
       | Some h => is_kAny env h
       | None => false
       end
    then Exit 1 st []
    else
      mandatory (args "f"%char) (fun fqrn =>
      mandatory (args "k"%char) (fun key_path =>
      let text := value_or_empty (args "t"%char) in
      let w := sm_Init env w in
      let '(ok, w) := LoadCertificatePath env certificate_path w in
      if negb ok then Exit 2 (stdin, w) []
      else
        let '(ok, w) :=
          LoadPrivateKeyPath env key_path certificate_password w in
        if negb ok then
          match password_loop 3 key_path 0 (stdin, w) [] with
          | StillAsking => Unfinished
          | TerminalFailure st out => Exit 2 st out
          | Answered success st out =>
              if negb success then Exit 2 st out
              else sign_letter fqrn text hash_algorithm st out
          end
        else sign_letter fqrn text hash_algorithm (stdin, w) []))).

End Main.

(** *** The vocabulary of the properties of the letter command *)


(** A text without a line break. *)
Fixpoint no_newline (s : string) : bool :=
  match s with
  | EmptyString => true
  | String c s' => negb (Ascii.eqb c newline) && no_newline s'
  end.

(** Lines as stdin holds them, each with its line break. *)
Fixpoint terminated (lines : list string) : string :=
  match lines with
  | [] => ""
  | l :: lines' => l ++ String newline (terminated lines')
  end.

(** The letters of a list judged one after the other. *)
Fixpoint judge_all {W WL T A : Type} (env : collaborators W WL T A)
    (loop : bool) (fqrn repository_url : string) (max_age : Z)
    (letters : list string) (exit_code : Z) (whitelist : WL) (w : W)
    (out : list output) : Z * WL * W * list output :=
  match letters with
  | [] => (exit_code, whitelist, w, out)
  | text :: letters' =>
      let '(exit_code, message, whitelist, w) :=
        judge env fqrn repository_url text max_age whitelist w in
      judge_all env loop fqrn repository_url max_age letters' exit_code
        whitelist w (out ++ report loop exit_code message)%list
  end.

(** The number of prompts in what was written. *)
Fixpoint prompts (out : list output) : nat :=
  match out with
  | [] => 0
  | OutPrompt _ :: out' => S (prompts out')
  | _ :: out' => prompts out'
  end.

(** Collaborators over a trivial state, to run [Main] on: every load
    and check succeeds, except that the private key loads only with the
    password [secret]; a letter verifies to itself, and signing puts
    [signed:] before the text.  [GetLineFd] takes a line from stdin. *)
Definition sample_env : collaborators unit unit unit unit := {|
  String2Uint64 _ := 0;
  ParseHashAlgorithm _ := tt;
  is_kAny _ := false;
  sm_Init w := w;
  sm_Fini w := w;
  LoadTrustedCaCrl _ w := (true, w);
  LoadPublicRsaKeys _ w := (true, w);
  LoadCertificatePath _ w := (true, w);
  LoadPrivateKeyPath _ password w := ((password =? "secret")%string, w);
  KeysMatch w := (true, w);
  dm_Init w := w;
  dm_Fini w := w;
  whitelist_Load _ _ w := (true, tt, w);
  expires _ := 0;
  IsExpired _ w := (false, w);
  VerifyLoadedCertificate _ w := (true, w);
  time w := (0, w);
  letter_Verify _ text _ w := (true, text, w);
  letter_Sign _ text _ w := ("signed:" ++ text, w);
  tcgetattr st := (tt, st);
  echo_off t := t;
  tcsetattr_flush _ st := (0, st);
  tcsetattr_now _ st := st;
  GetLineFd st :=
    let '(line, _, stdin) := read_line "" (fst st) in (line, (stdin, snd st))
|}.

(** Argument lists of the verify mode and of the sign mode. *)
Definition verify_args (c : ascii) : option string :=
  if Ascii.eqb c "v" then Some ""
  else if Ascii.eqb c "r" then Some "http://host/repo"
  else if Ascii.eqb c "m" then Some "0"
  else if Ascii.eqb c "f" then Some "repo.example.org"
  else if Ascii.eqb c "k" then Some "/etc/keys"
  else None.

Definition sign_args (c : ascii) : option string :=
  if Ascii.eqb c "c" then Some "/etc/cert.pem"
  else if Ascii.eqb c "f" then Some "repo.example.org"
  else if Ascii.eqb c "k" then Some "/etc/cert.key"
  else if Ascii.eqb c "t" then Some "hello"
  else None.

End Letter.

(* ================================================================= *)
(** * Facts about strings and paths *)

Module StrFacts.
Import Str.

Lemma append_assoc (a b c : string) : (a ++ b) ++ c = a ++ (b ++ c).
Proof. induction a as [|x a IH]; simpl; [reflexivity | now rewrite IH]. Qed.

Lemma append_nil_r (a : string) : a ++ "" = a.
Proof. induction a as [|x a IH]; simpl; [reflexivity | now rewrite IH]. Qed.

Lemma length_append (a b : string) :
  String.length (a ++ b) = (String.length a + String.length b)%nat.
Proof. induction a as [|x a IH]; simpl; [reflexivity | now rewrite IH]. Qed.

Lemma append_eq_nil (a b : string) : a ++ b = "" -> a = "" /\ b = "".
Proof. destruct a; simpl; [auto | discriminate]. Qed.

Lemma append_inv_head (a b c : string) : a ++ b = a ++ c -> b = c.
Proof.
  induction a as [|x a IH]; simpl; intros H; [exact H|].
  injection H as H. auto.
Qed.

Lemma substring_all (f : string) : substring 0 (String.length f) f = f.
Proof. induction f as [|x f IH]; simpl; [reflexivity | now rewrite IH]. Qed.

Lemma substring_0_app (p x : string) :
  substring 0 (String.length p) (p ++ x) = p.
Proof.
  induction p as [|c p IH]; simpl.
  - destruct x; reflexivity.
  - now rewrite IH.
Qed.

Lemma substring_skip (p x : string) (k n : nat) :
  substring (String.length p + k) n (p ++ x) = substring k n x.
Proof. induction p as [|c p IH]; simpl; [reflexivity | exact IH]. Qed.

Lemma substr_from_app (p x : string) :
  substr_from (String.length p) (p ++ x) = x.
Proof.
  unfold substr_from. rewrite length_append.
  replace (String.length p + String.length x - String.length p)%nat
    with (String.length x) by lia.
  rewrite <- (Nat.add_0_r (String.length p)) at 1.
  rewrite substring_skip. apply substring_all.
Qed.

Lemma get_app_length (p x : string) :
  String.get (String.length p) (p ++ x) = String.get 0 x.
Proof. induction p as [|c p IH]; simpl; [reflexivity | exact IH]. Qed.

(** *** The last slash *)

Lemma find_last_of_app (p f : string) :
  find_last_of "/" (p ++ String "/" f) =
  Some (match find_last_of "/" f with
        | Some i => (String.length p + S i)%nat
        | None => String.length p
        end).
Proof.
  induction p as [|c p IH]; simpl.
  - destruct (find_last_of "/" f); reflexivity.
  - rewrite IH. destruct (find_last_of "/" f); reflexivity.
Qed.

Lemma find_last_of_split (s : string) (i : nat) :
  find_last_of "/" s = Some i ->
  exists p f, s = p ++ String "/" f /\ no_slash f /\ String.length p = i.
Proof.
  revert i. induction s as [|c s IH]; simpl; intros i H; [discriminate|].
  destruct (find_last_of "/" s) as [j|] eqn:E.
  - injection H as <-. destruct (IH j eq_refl) as (p & f & -> & Hf & Hl).
    exists (String c p), f. simpl. rewrite Hl. auto.
  - destruct (Ascii.eqb c "/") eqn:Ec; [|discriminate].
    injection H as <-. apply Ascii.eqb_eq in Ec. subst c.
    exists "", s. auto.
Qed.

Lemma no_slash_cons (c : ascii) (s : string) :
  no_slash (String c s) <-> c <> "/"%char /\ no_slash s.
Proof.
  unfold no_slash. simpl. destruct (find_last_of "/" s).
  - split; [discriminate | intros [_ H]; discriminate].
  - destruct (Ascii.eqb_spec c "/") as [Hc|Hc]; split.
    + discriminate.
    + intros [H _]. contradiction.
    + auto.
    + reflexivity.
Qed.

Lemma no_slash_app (a b : string) :
  no_slash (a ++ b) <-> no_slash a /\ no_slash b.
Proof.
  induction a as [|c a IH]; simpl.
  - unfold no_slash at 2. simpl. tauto.
  - rewrite !no_slash_cons, IH. tauto.
Qed.

(** Where two decompositions of one string at a slash can differ: if the
    part after the second slash has no slash, the first slash is the
    second one or lies before it. *)
Lemma slash_split_cases (q rest p f : string) :
  q ++ String "/" rest = p ++ String "/" f -> no_slash f ->
  (q = p /\ rest = f) \/ (exists rest', p = q ++ String "/" rest').
Proof.
  revert p. induction q as [|c q IH]; intros p H Hf.
  - destruct p as [|d p]; simpl in H.
    + injection H as ->. auto.
    + injection H as <- ->. right. exists p. reflexivity.
  - destruct p as [|d p]; simpl in H.
    + injection H as -> <-. exfalso.
      apply no_slash_app in Hf. destruct Hf as [_ Hf].
      apply no_slash_cons in Hf. tauto.
    + injection H as <- H. destruct (IH p H Hf) as [[-> ->]|[r ->]].
      * auto.
      * right. exists r. reflexivity.
Qed.

Lemma slash_split_no_slash (q rest p f : string) :
  q ++ String "/" rest = p ++ f -> no_slash f ->
  exists rest', p = q ++ String "/" rest' /\ rest = rest' ++ f.
Proof.
  revert p. induction q as [|c q IH]; intros p H Hf.
  - destruct p as [|d p]; simpl in H.
    + subst f. apply no_slash_cons in Hf. tauto.
    + injection H as <- ->. exists p. auto.
  - destruct p as [|d p]; simpl in H.
    + subst f. apply no_slash_cons in Hf. destruct Hf as [_ Hf].
      apply no_slash_app in Hf. destruct Hf as [_ Hf].
      apply no_slash_cons in Hf. tauto.
    + injection H as <- H. destruct (IH p H Hf) as (r & -> & ->).
      exists r. auto.
Qed.

(** *** The last character *)

Lemma last_is_slash_cons (c : ascii) (s : string) :
  last_is_slash (String c s) =
  match s with
  | EmptyString => Ascii.eqb c "/"
  | _ => last_is_slash s
  end.
Proof.
  unfold last_is_slash. destruct s as [|d s]; [reflexivity|].
  cbn [String.length]. rewrite !Nat.sub_succ, !Nat.sub_0_r. reflexivity.
Qed.

Lemma last_is_slash_inv (s : string) :
  last_is_slash s = true -> exists b, s = b ++ "/".
Proof.
  induction s as [|c s IH]; [discriminate|].
  rewrite last_is_slash_cons. destruct s as [|d s].
  - intros H. apply Ascii.eqb_eq in H. subst c. exists "". reflexivity.
  - intros H. destruct (IH H) as [b ->]. exists (String c b). reflexivity.
Qed.

Lemma last_is_slash_app_no_slash (p f : string) :
  no_slash f -> f <> "" -> last_is_slash (p ++ f) = false.
Proof.
  intros Hf Hne. induction p as [|c p IH]; simpl.
  - clear Hne. induction f as [|c f IH]; [reflexivity|].
    apply no_slash_cons in Hf. destruct Hf as [Hc Hf].
    rewrite last_is_slash_cons. destruct f; [|auto].
    now apply Ascii.eqb_neq.
  - rewrite last_is_slash_cons. destruct (p ++ f) eqn:E; [|exact IH].
    apply append_eq_nil in E. tauto.
Qed.

(** *** Components *)

Lemma components_nonempty (s : string) : components s <> [].
Proof.
  induction s as [|c s IH]; simpl; [discriminate|].
  destruct (Ascii.eqb c "/"); [discriminate|].
  destruct (components s); discriminate.
Qed.

Lemma components_app (p f : string) :
  components (p ++ String "/" f) = (components p ++ components f)%list.
Proof.
  induction p as [|c p IH]; simpl; [reflexivity|].
  destruct (Ascii.eqb c "/"); rewrite IH; [reflexivity|].
  destruct (components p) eqn:E; [|reflexivity].
  now apply components_nonempty in E.
Qed.

Lemma components_no_slash (f : string) : no_slash f -> components f = [f].
Proof.
  induction f as [|c f IH]; intros H; [reflexivity|].
  apply no_slash_cons in H. destruct H as [Hc Hf]. simpl.
  apply Ascii.eqb_neq in Hc. rewrite Hc, (IH Hf). reflexivity.
Qed.

End StrFacts.

Module PathFacts.
Import Str StrFacts.

Lemma GetParentPath_join (p f : string) :
  no_slash f -> GetParentPath (p ++ String "/" f) = p.
Proof.
  intros Hf. unfold GetParentPath. rewrite find_last_of_app, Hf.
  apply substring_0_app.
Qed.

Lemma GetFileName_join (p f : string) :
  no_slash f -> GetFileName (p ++ String "/" f) = f.
Proof.
  intros Hf. unfold GetFileName. rewrite find_last_of_app, Hf.
  change (p ++ String "/" f) with (p ++ ("/" ++ f)).
  rewrite <- append_assoc.
  replace (S (String.length p)) with (String.length (p ++ "/"))
    by (rewrite length_append; simpl; lia).
  apply substr_from_app.
Qed.

Lemma GetParentPath_no_slash (s : string) : no_slash s -> GetParentPath s = "".
Proof. unfold GetParentPath, no_slash. now intros ->. Qed.

Lemma GetFileName_no_slash (s : string) : no_slash s -> GetFileName s = s.
Proof. unfold GetFileName, no_slash. now intros ->. Qed.

(** A path either has no slash, or is its parent, a slash and its file
    name. *)
Lemma path_cases (s : string) :
  (no_slash s /\ GetParentPath s = "" /\ GetFileName s = s) \/
  (s = GetParentPath s ++ String "/" (GetFileName s) /\
   no_slash (GetFileName s)).
Proof.
  destruct (find_last_of "/" s) as [i|] eqn:E.
  - right. destruct (find_last_of_split s i E) as (p & f & -> & Hf & _).
    rewrite GetParentPath_join, GetFileName_join by assumption. auto.
  - left. auto using GetParentPath_no_slash, GetFileName_no_slash.
Qed.

Lemma GetFileName_has_no_slash (s : string) : no_slash (GetFileName s).
Proof. destruct (path_cases s) as [(H & _ & ->)|[_ H]]; exact H. Qed.

(** The parent handed to a recursive call is a shorter string. *)
Lemma GetParentPath_shorter (path : string) :
  GetFileName path = ".." \/ GetParentPath path <> "" ->
  (String.length (GetParentPath path) < String.length path)%nat.
Proof.
  intros H. destruct (path_cases path) as [(_ & Hp & Hf)|[Hs _]].
  - rewrite Hp. destruct H as [H|H]; [|contradiction].
    rewrite Hf in H. subst path. simpl. lia.
  - rewrite Hs at 2. rewrite length_append. simpl. lia.
Qed.

(** The parent handed to a recursive call has fewer components. *)
Lemma component_count_parent (path : string) :
  GetFileName path = ".." \/ GetParentPath path <> "" ->
  (component_count (GetParentPath path) < component_count path)%nat.
Proof.
  intros H. destruct (path_cases path) as [(_ & Hp & Hf)|[Hs Hn]].
  - rewrite Hp. destruct H as [H|H]; [|contradiction].
    rewrite Hf in H. subst path. simpl. lia.
  - assert (Hc : component_count path =
                 S (List.length (components (GetParentPath path)))).
    { rewrite Hs at 1. unfold component_count.
      destruct (GetParentPath path ++ String "/" (GetFileName path)) eqn:E.
      - destruct (GetParentPath path); discriminate.
      - rewrite <- E, components_app, length_app,
          (components_no_slash _ Hn). simpl. lia. }
    rewrite Hc. unfold component_count at 1.
    destruct (GetParentPath path); [lia|]. lia.
Qed.

(** [strncmp] against the whole of [b] succeeds on the strings that
    begin with [b]. *)
Lemma strncmp_eq_prefix (a b : string) :
  strncmp_eq a b (String.length b) = true <-> exists rest, a = b ++ rest.
Proof.
  revert a. induction b as [|y b IH]; intros a; simpl.
  - split; [intros _; now exists a | reflexivity].
  - destruct a as [|x a].
    + split; [discriminate | intros [r H]; discriminate].
    + rewrite andb_true_iff, IH. split.
      * intros [Hx [r ->]]. apply Ascii.eqb_eq in Hx. subst. now exists r.
      * intros [r H]. injection H as -> ->. split.
        -- apply Ascii.eqb_refl.
        -- now exists r.
Qed.

Lemma starts_with_slash_app (a b : string) :
  starts_with_slash a = true -> starts_with_slash (a ++ b) = true.
Proof. destruct a; [discriminate | auto]. Qed.

End PathFacts.

(* ================================================================= *)
(** * The resolver: fuel, determinism, termination *)

Section ResolverFacts.

Context {B : Type}.
Variable ctx : cvmfs_context B.
Variable smalloc : Z -> bool.
Variable mountpoint : string.

Local Abbreviation expand := (expand_path ctx smalloc mountpoint).
Local Abbreviation body := (expand_path_body ctx smalloc mountpoint).
Local Abbreviation follow := (stat_and_follow ctx smalloc mountpoint).
Local Abbreviation returns := (expand_path_returns ctx smalloc mountpoint).
Local Abbreviation follow_returns := (follow_returns ctx smalloc mountpoint).
Local Abbreviation reaches := (reaches ctx smalloc mountpoint).
Local Abbreviation meets_link := (meets_link ctx smalloc mountpoint).
Local Abbreviation reads_link := (reads_link ctx smalloc mountpoint).
Local Abbreviation origin := (origin ctx smalloc mountpoint).

Lemma follow_mono r1 r2 : extends r1 r2 ->
  forall path fname depth buf s log o,
    follow r1 path fname depth buf s log = Some o ->
    follow r2 path fname depth buf s log = Some o.
Proof.
  intros Hr path fname depth buf s log o. unfold stat_and_follow.
  destruct (GetAttr ctx _ s) as [[rc st] s1].
  destruct (negb (rc =? 0)); [auto|].
  destruct (negb (S_ISLNK (st_mode st))); [auto|].
  destruct (depth >? 1000); [auto|].
  destruct (negb (smalloc (st_size st + 2))); [auto|].
  destruct (Readlink ctx _ _ s1) as [[rc' ln] s2].
  destruct (negb (rc' =? 0)); [auto|].
  destruct (link_target _ _ ln) as [t|]; [|auto].
  destruct (r1 t (depth + 1) s2) as [o1|] eqn:E; [|discriminate].
  now rewrite (Hr _ _ _ _ E).
Qed.

Lemma body_mono r1 r2 : extends r1 r2 -> extends (body r1) (body r2).
Proof.
  intros Hr path depth s o. unfold expand_path_body.
  destruct (GetFileName path =? "..")%string.
  - destruct (r1 _ depth s) as [o1|] eqn:E; [|discriminate].
    now rewrite (Hr _ _ _ _ E).
  - destruct (negb (GetParentPath path =? "")%string).
    + destruct (r1 _ depth s) as [[[[buf|e] s1] l]|] eqn:E;
        try discriminate; rewrite (Hr _ _ _ _ E); [|auto].
      destruct (GetFileName path =? ".")%string; [auto|].
      now apply follow_mono.
    + now apply follow_mono.
Qed.

Lemma expand_path_step_mono (fuel : nat) :
  extends (expand fuel) (expand (S fuel)).
Proof.
  induction fuel as [|fuel IH].
  - intros p d s o H. discriminate.
  - change (expand (S (S fuel))) with (body (expand (S fuel))).
    change (expand (S fuel)) with (body (expand fuel)) at 1.
    now apply body_mono.
Qed.

(** More fuel never changes what a call returns. *)
Lemma expand_path_mono (fuel fuel' : nat) :
  (fuel <= fuel')%nat -> extends (expand fuel) (expand fuel').
Proof.
  induction 1 as [|m _ IH]; intros p d s o H; [exact H|].
  apply expand_path_step_mono. now apply IH.
Qed.

(** A call returns one thing only. *)
Lemma returns_det path depth s o1 o2 :
  returns path depth s o1 -> returns path depth s o2 -> o1 = o2.
Proof.
  intros [f1 H1] [f2 H2].
  apply (expand_path_mono f1 (Nat.max f1 f2)) in H1; [|lia].
  apply (expand_path_mono f2 (Nat.max f1 f2)) in H2; [|lia].
  congruence.
Qed.

Lemma returns_unfold path depth s o :
  returns path depth s o <->
  exists fuel, body (expand fuel) path depth s = Some o.
Proof.
  split.
  - intros [[|fuel] H]; [discriminate|]. now exists fuel.
  - intros [fuel H]. now exists (S fuel).
Qed.

Lemma follow_settles depth :
  (depth <= 1000 ->
   forall t s, settles (fun m => expand m t (depth + 1) s)) ->
  forall path fname buf s log,
    settles (fun m => follow (expand m) path fname depth buf s log).
Proof.
  intros Hlink path fname buf s log. unfold stat_and_follow.
  destruct (GetAttr ctx _ s) as [[rc st] s1].
  destruct (negb (rc =? 0)); [now exists 0%nat; eexists|].
  destruct (negb (S_ISLNK (st_mode st))); [now exists 0%nat; eexists|].
  destruct (depth >? 1000) eqn:Hd; [now exists 0%nat; eexists|].
  destruct (negb (smalloc (st_size st + 2))); [now exists 0%nat; eexists|].
  destruct (Readlink ctx _ _ s1) as [[rc' ln] s2].
  destruct (negb (rc' =? 0)); [now exists 0%nat; eexists|].
  destruct (link_target _ _ ln) as [t|]; [|now exists 0%nat; eexists].
  assert (Hle : depth <= 1000) by lia.
  destruct (Hlink Hle t s2) as (n & [[r s3] l3] & Hn).
  exists n. eexists. intros m Hm. rewrite (Hn m Hm). reflexivity.
Qed.

Lemma body_settles depth :
  (depth <= 1000 ->
   forall t s, settles (fun m => expand m t (depth + 1) s)) ->
  forall path s, settles (fun m => expand m path depth s).
Proof.
  intros Hlink path.
  remember (String.length path) as len eqn:Hlen.
  revert path Hlen. induction len as [len IH] using lt_wf_ind.
  intros path -> s.
  assert (Hbody : settles (fun m => body (expand m) path depth s)).
  { unfold expand_path_body.
    destruct (GetFileName path =? "..")%string eqn:Hdd.
    - apply String.eqb_eq in Hdd.
      destruct (IH _ (PathFacts.GetParentPath_shorter path (or_introl Hdd))
                  _ eq_refl s) as (n & [[[e|e] s1] l] & Hn).
      + destruct (e =? "/")%string eqn:He.
        * exists n. eexists. intros m Hm. rewrite (Hn m Hm), He. reflexivity.
        * exists n. eexists. intros m Hm. rewrite (Hn m Hm), He. reflexivity.
      + exists n. eexists. intros m Hm. rewrite (Hn m Hm). reflexivity.
    - destruct (GetParentPath path =? "")%string eqn:Hp; simpl.
      + apply (follow_settles depth Hlink).
      + apply String.eqb_neq in Hp.
        destruct (IH _ (PathFacts.GetParentPath_shorter path (or_intror Hp))
                    _ eq_refl s) as (n & [[[buf|e] s1] l] & Hn).
        * destruct (GetFileName path =? ".")%string eqn:Hdot.
          -- exists n. eexists. intros m Hm. rewrite (Hn m Hm). reflexivity.
          -- destruct (follow_settles depth Hlink path (GetFileName path)
                         buf s1 l) as (n' & o & Hn').
             exists (Nat.max n n'), o. intros m Hm.
             rewrite (Hn m) by lia. apply Hn'. lia.
        * exists n. eexists. intros m Hm. rewrite (Hn m Hm). reflexivity. }
  destruct Hbody as (n & o & Hn). exists (S n), o.
  intros [|m] Hm; [lia|]. apply Hn. lia.
Qed.

(** Every call returns, whatever the path, the depth and the backend. *)
Lemma expand_path_settles path depth s :
  settles (fun m => expand m path depth s).
Proof.
  remember (Z.to_nat (1001 - depth)) as k eqn:Hk.
  revert depth Hk path s. induction k as [|k IH]; intros depth Hk.
  - apply body_settles. intros Hle. lia.
  - apply body_settles. intros Hle. apply IH. lia.
Qed.

Lemma expand_path_total path depth s : exists o, returns path depth s o.
Proof.
  destruct (expand_path_settles path depth s) as (n & o & Hn).
  exists o, n. now apply Hn.
Qed.

Lemma returns_dotdot path depth s o :
  GetFileName path = ".." ->
  (returns path depth s o <->
   exists o1, returns (GetParentPath path) depth s o1 /\
              o = dotdot_outcome path o1).
Proof.
  intros Hf. rewrite returns_unfold. unfold expand_path_body.
  rewrite Hf. simpl. split.
  - intros [fuel H].
    destruct (expand fuel (GetParentPath path) depth s)
      as [[[[e|e] s1] l]|] eqn:E; [| |discriminate].
    + exists (Ok e, s1, l). split; [now exists fuel|].
      simpl. destruct (e =? "/")%string; congruence.
    + exists (Err e, s1, l). split; [now exists fuel|]. simpl. congruence.
  - intros ([[[e|e] s1] l] & [fuel H] & ->); exists fuel; rewrite H; simpl.
    + destruct (e =? "/")%string; reflexivity.
    + reflexivity.
Qed.

Lemma body_dot rec path depth s :
  GetFileName path = "." -> GetParentPath path <> "" ->
  body rec path depth s = rec (GetParentPath path) depth s.
Proof.
  intros Hf Hp. unfold expand_path_body. rewrite Hf. simpl.
  apply String.eqb_neq in Hp. rewrite Hp. simpl.
  destruct (rec (GetParentPath path) depth s) as [[[[e|e] s1] l]|];
    reflexivity.
Qed.

Lemma returns_dot path depth s o :
  GetFileName path = "." -> GetParentPath path <> "" ->
  (returns path depth s o <-> returns (GetParentPath path) depth s o).
Proof.
  intros Hf Hp. rewrite returns_unfold. split; intros [fuel H]; exists fuel.
  - now rewrite body_dot in H.
  - now rewrite body_dot.
Qed.

Lemma returns_top path depth s o :
  GetFileName path <> ".." -> GetParentPath path = "" ->
  (returns path depth s o <->
   follow_returns path (GetFileName path) depth "" s [] o).
Proof.
  intros Hf Hp. rewrite returns_unfold. unfold expand_path_body.
  apply String.eqb_neq in Hf. rewrite Hf, Hp. simpl. reflexivity.
Qed.

Lemma returns_nested path depth s o :
  GetFileName path <> ".." -> GetFileName path <> "." ->
  GetParentPath path <> "" ->
  (returns path depth s o <->
   exists o1, returns (GetParentPath path) depth s o1 /\
     match o1 with
     | (Err e, s1, l) => o = (Err e, s1, l)
     | (Ok buf, s1, l) =>
         follow_returns path (GetFileName path) depth buf s1 l o
     end).
Proof.
  intros Hf Hd Hp. rewrite returns_unfold. unfold expand_path_body.
  apply String.eqb_neq in Hf, Hd, Hp. rewrite Hf, Hp. simpl. split.
  - intros [fuel H].
    destruct (expand fuel (GetParentPath path) depth s)
      as [[[[e|e] s1] l]|] eqn:E; [| |discriminate].
    + rewrite Hd in H. exists (Ok e, s1, l).
      split; [now exists fuel | now exists fuel].
    + exists (Err e, s1, l). split; [now exists fuel | congruence].
  - intros ([[[e|e] s1] l] & [f1 H1] & H2).
    + destruct H2 as [f2 H2]. exists (Nat.max f1 f2).
      apply (expand_path_mono f1 (Nat.max f1 f2)) in H1; [|lia].
      rewrite H1, Hd.
      apply (follow_mono (expand f2)); [|exact H2].
      apply expand_path_mono. lia.
    + subst o. exists f1. now rewrite H1.
Qed.

(** How the part from the candidate on ends: at a candidate that is no
    link, at a link beyond the depth bound, and at a link whose target
    has been read. *)
Lemma follow_plain path fname depth buf s log st s1 :
  GetAttr ctx (candidate buf fname) s = (0, st, s1) ->
  S_ISLNK (st_mode st) = false ->
  follow_returns path fname depth buf s log
    (Ok (candidate buf fname), s1, log).
Proof.
  intros H Hl. exists 0%nat. unfold stat_and_follow.
  unfold candidate in *. rewrite H. simpl. now rewrite Hl.
Qed.

Lemma follow_limit path fname depth buf s log st s1 :
  GetAttr ctx (candidate buf fname) s = (0, st, s1) ->
  S_ISLNK (st_mode st) = true -> 1000 < depth ->
  follow_returns path fname depth buf s log
    (Err ELOOP, s1, (log ++ [LogRecursionLimit path])%list).
Proof.
  intros H Hl Hd. exists 0%nat. unfold stat_and_follow.
  unfold candidate in *. rewrite H. simpl. rewrite Hl. simpl.
  apply Z.gtb_lt in Hd. now rewrite Hd.
Qed.

Lemma follow_link path fname depth buf s log st s1 ln s2 o :
  GetAttr ctx (candidate buf fname) s = (0, st, s1) ->
  S_ISLNK (st_mode st) = true -> depth <= 1000 ->
  smalloc (st_size st + 2) = true ->
  Readlink ctx (candidate buf fname) (st_size st + 2) s1 = (0, ln, s2) ->
  (follow_returns path fname depth buf s log o <->
   match link_target mountpoint (candidate buf fname) ln with
   | None =>
       o = (Err ENOENT, s2,
            (log ++ [LogOutsideMountpoint path ln mountpoint])%list)
   | Some t =>
       exists r s3 l3, returns t (depth + 1) s2 (r, s3, l3) /\
                       o = (r, s3, (log ++ l3)%list)
   end).
Proof.
  intros H Hl Hd Hm Hr. unfold follow_returns, stat_and_follow.
  unfold candidate in *. rewrite H. simpl. rewrite Hl. simpl.
  assert (Hd' : (depth >? 1000) = false) by lia.
  rewrite Hd', Hm. simpl. rewrite Hr. simpl.
  destruct (link_target mountpoint _ ln) as [t|].
  - split.
    + intros [fuel Hf].
      destruct (expand fuel t (depth + 1) s2) as [[[r s3] l3]|] eqn:E;
        [|discriminate].
      exists r, s3, l3. split; [now exists fuel | congruence].
    + intros (r & s3 & l3 & [fuel Hf] & ->). exists fuel. now rewrite Hf.
  - split; [intros [_ Hf]; congruence | intros ->; now exists 0%nat].
Qed.

(** *** Reaching the candidate, meeting a link *)

Lemma returns_reaches path depth s buf s1 log o :
  reaches path depth s buf s1 log ->
  (returns path depth s o <->
   follow_returns path (GetFileName path) depth buf s1 log o).
Proof.
  intros [Hf [(Hp & -> & -> & ->)|(Hp & Hd & Hr)]].
  - now apply returns_top.
  - rewrite (returns_nested _ _ _ _ Hf Hd Hp). split.
    + intros (o1 & H1 & H2).
      rewrite (returns_det _ _ _ _ _ H1 Hr) in H2. exact H2.
    + intros H. now exists (Ok buf, s1, log).
Qed.

Lemma returns_meets_limit path depth s cand st s2 log :
  meets_link path depth s cand st s2 log -> 1000 < depth ->
  returns path depth s
    (Err ELOOP, s2, (log ++ [LogRecursionLimit path])%list).
Proof.
  intros (buf & s1 & Hr & -> & Hg & Hl) Hd.
  apply (returns_reaches _ _ _ _ _ _ _ Hr).
  now apply follow_limit with (st := st).
Qed.

Lemma returns_reads_link path depth s cand ln s3 log o :
  reads_link path depth s cand ln s3 log ->
  (returns path depth s o <->
   match link_target mountpoint cand ln with
   | None =>
       o = (Err ENOENT, s3,
            (log ++ [LogOutsideMountpoint path ln mountpoint])%list)
   | Some t =>
       exists r s4 l4, returns t (depth + 1) s3 (r, s4, l4) /\
                       o = (r, s4, (log ++ l4)%list)
   end).
Proof.
  intros (st & s2 & (buf & s1 & Hr & -> & Hg & Hl) & Hd & Hm & Hrl).
  rewrite (returns_reaches _ _ _ _ _ _ _ Hr).
  now apply follow_link with (st := st) (s1 := s2).
Qed.

(** *** Where a result comes from *)

Lemma origin_ok_nil r l p : origin r l -> r = Ok p -> l = [].
Proof. intros H ->. now inversion H. Qed.

Lemma follow_origin rec :
  (forall p d s r s' l, rec p d s = Some (r, s', l) -> origin r l) ->
  forall path depth s0 buf s r s' l,
    reaches path depth s0 buf s [] ->
    follow rec path (GetFileName path) depth buf s [] = Some (r, s', l) ->
    origin r l.
Proof.
  intros Hrec path depth s0 buf s r s' l Hreach. unfold stat_and_follow.
  fold (candidate buf (GetFileName path)).
  destruct (GetAttr ctx _ s) as [[rc st] s1] eqn:Hg.
  destruct (rc =? 0) eqn:Hrc; simpl.
  2:{ intros [= <- <- <-]. apply Z.eqb_neq in Hrc.
      eapply origin_getattr; eauto. }
  apply Z.eqb_eq in Hrc. subst rc.
  destruct (S_ISLNK (st_mode st)) eqn:Hl; simpl.
  2:{ intros [= <- <- <-]. constructor. }
  destruct (depth >? 1000) eqn:Hd.
  { intros [= <- <- <-].
    apply (origin_limit _ _ _ path depth s0
             (candidate buf (GetFileName path)) st s1 []); [|lia].
    exists buf, s. auto. }
  destruct (smalloc (st_size st + 2)); simpl.
  2:{ intros [= <- <- <-]. constructor. }
  destruct (Readlink ctx _ _ s1) as [[rc' ln] s2] eqn:Hr.
  destruct (rc' =? 0) eqn:Hrc'; simpl.
  2:{ intros [= <- <- <-]. apply Z.eqb_neq in Hrc'.
      eapply origin_readlink; eauto. }
  destruct (link_target _ _ ln) as [t|].
  2:{ intros [= <- <- <-]. constructor. }
  destruct (rec t (depth + 1) s2) as [[[r3 s3] l3]|] eqn:E; [|discriminate].
  intros [= <- <- <-]. eapply Hrec, E.
Qed.

Lemma expand_path_origin fuel path depth s r s' l :
  expand fuel path depth s = Some (r, s', l) -> origin r l.
Proof.
  revert path depth s r s' l. induction fuel as [|fuel IH]; [discriminate|].
  intros path depth s r s' l. simpl. unfold expand_path_body.
  destruct (GetFileName path =? "..")%string eqn:Hdd.
  - destruct (expand fuel _ depth s) as [[[[e|e] s1] l1]|] eqn:E;
      [| |discriminate].
    + pose proof (origin_ok_nil _ _ _ (IH _ _ _ _ _ _ E) eq_refl) as ->.
      destruct (e =? "/")%string; intros [= <- <- <-]; constructor.
    + intros [= <- <- <-]. eapply IH, E.
  - apply String.eqb_neq in Hdd.
    destruct (GetParentPath path =? "")%string eqn:Hp; simpl.
    + apply String.eqb_eq in Hp.
      apply (follow_origin _ IH path depth s).
      split; [exact Hdd|]. left. auto.
    + apply String.eqb_neq in Hp.
      destruct (expand fuel _ depth s) as [[[[e|e] s1] l1]|] eqn:E;
        [| |discriminate].
      * pose proof (origin_ok_nil _ _ _ (IH _ _ _ _ _ _ E) eq_refl) as ->.
        destruct (GetFileName path =? ".")%string eqn:Hd.
        -- intros [= <- <- <-]. constructor.
        -- apply String.eqb_neq in Hd.
           apply (follow_origin _ IH path depth s).
           split; [exact Hdd|]. right.
           split; [exact Hp|]. split; [exact Hd|]. now exists fuel.
      * intros [= <- <- <-]. eapply IH, E.
Qed.

(** *** An induction principle for successful results *)

Lemma follow_ok_ind (P : string -> Prop) rec :
  (forall buf fname s st s1,
     buf = "" \/ P buf -> Str.no_slash fname -> fname <> ".." ->
     GetAttr ctx (candidate buf fname) s = (0, st, s1) ->
     S_ISLNK (st_mode st) = false -> P (candidate buf fname)) ->
  (forall p d s r s' l, rec p d s = Some (Ok r, s', l) -> P r) ->
  forall path fname depth buf s log r s' l,
    buf = "" \/ P buf -> Str.no_slash fname -> fname <> ".." ->
    follow rec path fname depth buf s log = Some (Ok r, s', l) -> P r.
Proof.
  intros Hcand Hrec path fname depth buf s log r s' l Hb Hn Hf.
  unfold stat_and_follow. fold (candidate buf fname).
  destruct (GetAttr ctx _ s) as [[rc st] s1] eqn:Hg.
  destruct (rc =? 0) eqn:Hrc; simpl; [|discriminate].
  apply Z.eqb_eq in Hrc. subst rc.
  destruct (S_ISLNK (st_mode st)) eqn:Hl; simpl.
  2:{ intros [= <- <- <-]. eapply Hcand; eauto. }
  destruct (depth >? 1000); [discriminate|].
  destruct (smalloc (st_size st + 2)); simpl; [|discriminate].
  destruct (Readlink ctx _ _ s1) as [[rc' ln] s2].
  destruct (rc' =? 0); simpl; [|discriminate].
  destruct (link_target _ _ ln) as [t|]; [|discriminate].
  destruct (rec t (depth + 1) s2) as [[[r3 s3] l3]|] eqn:E; [|discriminate].
  intros [= -> <- <-]. eapply Hrec, E.
Qed.

Lemma expand_path_ok_ind (P : string -> Prop) :
  (forall e, P e -> e <> "/" ->
     P (if (GetParentPath e =? "")%string then "/" else GetParentPath e)) ->
  (forall buf fname s st s1,
     buf = "" \/ P buf -> Str.no_slash fname -> fname <> ".." ->
     GetAttr ctx (candidate buf fname) s = (0, st, s1) ->
     S_ISLNK (st_mode st) = false -> P (candidate buf fname)) ->
  forall fuel path depth s r s' l,
    expand fuel path depth s = Some (Ok r, s', l) -> P r.
Proof.
  intros Hup Hcand. induction fuel as [|fuel IH]; [discriminate|].
  intros path depth s r s' l. simpl. unfold expand_path_body.
  pose proof (PathFacts.GetFileName_has_no_slash path) as Hn.
  destruct (GetFileName path =? "..")%string eqn:Hdd.
  - destruct (expand fuel _ depth s) as [[[[e|e] s1] l1]|] eqn:E;
      [| |discriminate]; [|discriminate].
    destruct (e =? "/")%string eqn:He; [discriminate|].
    intros [= <- <- <-]. apply String.eqb_neq in He.
    apply Hup; [eapply IH, E | exact He].
  - apply String.eqb_neq in Hdd.
    destruct (negb (GetParentPath path =? "")%string).
    + destruct (expand fuel _ depth s) as [[[[e|e] s1] l1]|] eqn:E;
        [| |discriminate]; [|discriminate].
      destruct (GetFileName path =? ".")%string.
      * intros [= <- <- <-]. eapply IH, E.
      * apply (follow_ok_ind P _ Hcand IH); auto. right. eapply IH, E.
    + apply (follow_ok_ind P _ Hcand IH); auto.
Qed.

(** *** Beyond the depth bound *)

(** Past the bound no link is followed, and the only recursive calls are
    those on the parent: one unit of fuel per component is enough. *)
Lemma expand_path_beyond_bound depth :
  1000 < depth ->
  forall fuel path s,
    (Str.component_count path < fuel)%nat ->
    expand fuel path depth s <> None.
Proof.
  intros Hd.
  assert (Hfollow : forall rec path fname buf s log,
             follow rec path fname depth buf s log <> None).
  { intros rec path fname buf s log. unfold stat_and_follow.
    destruct (GetAttr ctx _ s) as [[rc st] s1].
    destruct (negb (rc =? 0)); [discriminate|].
    destruct (negb (S_ISLNK (st_mode st))); [discriminate|].
    apply Z.gtb_lt in Hd. rewrite Hd. discriminate. }
  induction fuel as [|fuel IH]; intros path s Hc; [lia|].
  simpl. unfold expand_path_body.
  destruct (GetFileName path =? "..")%string eqn:Hdd.
  - apply String.eqb_eq in Hdd.
    pose proof (PathFacts.component_count_parent path (or_introl Hdd)) as Hlt.
    specialize (IH (GetParentPath path) s ltac:(lia)).
    destruct (expand fuel _ depth s) as [[[[e|e] s1] l]|];
      [| |contradiction]; [|discriminate].
    destruct (e =? "/")%string; discriminate.
  - destruct (GetParentPath path =? "")%string eqn:Hp; simpl.
    + apply Hfollow.
    + apply String.eqb_neq in Hp.
      pose proof (PathFacts.component_count_parent path (or_intror Hp))
        as Hlt.
      specialize (IH (GetParentPath path) s ltac:(lia)).
      destruct (expand fuel _ depth s) as [[[[e|e] s1] l]|];
        [| |contradiction]; [|discriminate].
      destruct (GetFileName path =? ".")%string; [discriminate|].
      apply Hfollow.
Qed.

End ResolverFacts.

(* ================================================================= *)
(** * Termination *)

(** C3 -- Termination.  For every path, every depth and every backend
    (an arbitrary context over an arbitrary state, so any sequence of
    GetAttr and Readlink answers), [expand_path] returns: from some amount
    of fuel on the call gives one and the same result.  The measure is
    this: a recursive call on the parent, at the same depth, is on a path
    with strictly fewer components; the only other recursive call is at
    [depth + 1], and past the bound of 1000 it is not made any more, so
    that a call then needs no more fuel than the path has components. *)
Theorem expand_path_terminates :
  forall (B : Type) (ctx : cvmfs_context B) (smalloc : Z -> bool)
         (mountpoint path : string) (depth : Z) (s : B),
    (exists n o, forall fuel, (n <= fuel)%nat ->
       expand_path ctx smalloc mountpoint fuel path depth s = Some o) /\
    (GetFileName path = ".." \/ GetParentPath path <> "" ->
     (Str.component_count (GetParentPath path)
      < Str.component_count path)%nat) /\
    (1000 < depth ->
     forall fuel, (Str.component_count path < fuel)%nat ->
       expand_path ctx smalloc mountpoint fuel path depth s <> None).
Proof.
  intros B ctx smalloc mountpoint path depth s. split; [|split].
  - apply expand_path_settles.
  - apply PathFacts.component_count_parent.
  - intros Hd fuel. now apply expand_path_beyond_bound.
Qed.

(* ================================================================= *)
(** * Paths built from names *)

Module JoinFacts.
Import Str StrFacts PathFacts.

Lemma join_snoc (cs : list string) (c : string) :
  join (cs ++ [c]) = join cs ++ String "/" c.
Proof.
  induction cs as [|d cs IH]; simpl.
  - now rewrite append_nil_r.
  - now rewrite IH, append_assoc.
Qed.

Lemma join_parent (cs : list string) (c : string) :
  no_slash c -> GetParentPath (join (cs ++ [c])) = join cs.
Proof. intros H. rewrite join_snoc. now apply GetParentPath_join. Qed.

Lemma join_file_name (cs : list string) (c : string) :
  no_slash c -> GetFileName (join (cs ++ [c])) = c.
Proof. intros H. rewrite join_snoc. now apply GetFileName_join. Qed.

Lemma candidate_empty (c : string) : candidate "" c = String "/" c.
Proof. reflexivity. Qed.

Lemma candidate_add (buf c : string) :
  last_is_slash buf = false -> candidate buf c = buf ++ String "/" c.
Proof.
  intros H. unfold candidate. rewrite H, orb_true_r.
  now rewrite append_assoc.
Qed.

Lemma candidate_keep (buf c : string) :
  buf <> "" -> last_is_slash buf = true -> candidate buf c = buf ++ c.
Proof.
  intros Hne H. unfold candidate. rewrite H.
  destruct buf; [congruence | reflexivity].
Qed.

Lemma last_is_slash_join (cs : list string) :
  Forall plain_name cs -> last_is_slash (join cs) = false.
Proof.
  destruct cs as [|c cs] using rev_ind; [reflexivity|].
  intros H. apply Forall_app in H. destruct H as [_ H].
  inversion H as [|? ? (Hne & Hns & _) _]; subst.
  rewrite join_snoc.
  change (join cs ++ String "/" c) with (join cs ++ ("/" ++ c)).
  rewrite <- append_assoc. now apply last_is_slash_app_no_slash.
Qed.

End JoinFacts.

Section Walks.

Context {B : Type}.
Variable ctx : cvmfs_context B.
Variable smalloc : Z -> bool.
Variable mountpoint : string.

Local Abbreviation returns := (expand_path_returns ctx smalloc mountpoint).
Local Abbreviation cand := candidate.

(** A candidate that exists and is no link is the result. *)
Lemma returns_plain path depth s buf s1 log st s2 :
  reaches ctx smalloc mountpoint path depth s buf s1 log ->
  GetAttr ctx (cand buf (GetFileName path)) s1 = (0, st, s2) ->
  S_ISLNK (st_mode st) = false ->
  returns path depth s (Ok (cand buf (GetFileName path)), s2, log).
Proof.
  intros Hr Hg Hl. apply (returns_reaches _ _ _ _ _ _ _ _ _ _ Hr).
  now apply follow_plain with (st := st).
Qed.

(** The root expands to itself. *)
Lemma returns_root depth s :
  plain_at ctx "/" -> exists s', returns "/" depth s (Ok "/", s', []).
Proof.
  intros H. destruct (H s) as (st & s' & Hg & Hl). exists s'.
  apply (returns_plain "/" depth s "" s [] st s'); [|exact Hg|exact Hl].
  split; [discriminate|]. left. auto.
Qed.

(** A path of ordinary names, none of them a link, expands to itself. *)
Lemma returns_join (cs : list string) :
  cs <> [] -> Forall plain_name cs ->
  (forall pre suf, cs = (pre ++ suf)%list -> pre <> [] ->
                   plain_at ctx (join pre)) ->
  forall depth s, exists s', returns (join cs) depth s (Ok (join cs), s', []).
Proof.
  induction cs as [|c cs IH] using rev_ind; [congruence|].
  intros _ Hall Hpre depth s.
  apply Forall_app in Hall. destruct Hall as [Hcs Hc].
  inversion Hc as [|? ? (Hne & Hns & Hd & Hdd) _]; subst.
  assert (Hplain : plain_at ctx (join (cs ++ [c]))).
  { apply (Hpre (cs ++ [c])%list []); [now rewrite app_nil_r|].
    destruct cs; discriminate. }
  destruct cs as [|d cs'].
  - destruct (Hplain s) as (st & s' & Hg & Hl). exists s'.
    simpl in *. rewrite StrFacts.append_nil_r in *.
    assert (Hfn : GetFileName (String "/" c) = c)
      by exact (PathFacts.GetFileName_join "" c Hns).
    assert (Hpp : GetParentPath (String "/" c) = "")
      by exact (PathFacts.GetParentPath_join "" c Hns).
    pose proof (returns_plain (String "/" c) depth s "" s [] st s') as H.
    rewrite Hfn in H. apply H; [|exact Hg|exact Hl].
    split; [now rewrite Hfn|]. left. auto.
  - destruct (IH ltac:(discriminate) Hcs
                ltac:(intros pre suf E Hp;
                      apply (Hpre pre (suf ++ [c])%list); [|exact Hp];
                      now rewrite E, app_assoc)
                depth s) as (s1 & Hret).
    destruct (Hplain s1) as (st & s2 & Hg & Hl). exists s2.
    pose proof (returns_plain (join ((d :: cs') ++ [c])) depth s
                  (join (d :: cs')) s1 [] st s2) as H.
    rewrite (JoinFacts.join_file_name _ c Hns) in H.
    rewrite (JoinFacts.candidate_add _ c
               (JoinFacts.last_is_slash_join _ Hcs)) in H.
    rewrite <- JoinFacts.join_snoc in H.
    apply H; [|exact Hg|exact Hl].
    split; [now rewrite (JoinFacts.join_file_name _ c Hns)|].
    right. rewrite (JoinFacts.join_file_name _ c Hns),
             (JoinFacts.join_parent _ c Hns).
    split; [discriminate|]. split; [exact Hd | exact Hret].
Qed.

End Walks.

(* ================================================================= *)
(** * The special names *)

(** C5 -- Dot-dot ascent.  For every path whose final component is "..",
    [expand_path] first expands the parent.  A failure of that expansion
    is the failure of the call; if the expansion is the root "/", the call
    fails with [ENOENT]; otherwise the result is the expanded parent with
    its last component stripped, an empty string becoming "/".  On a
    backend without symbolic links "/a/./b/../c" resolves to "/a/c"; on
    the repository with the entries /a, /a/b and /a/c the call asks the
    backend about exactly these three paths, in this order. *)
Theorem dotdot_ascent :
  (forall (B : Type) (ctx : cvmfs_context B) smalloc mountpoint
          (path : string) (depth : Z) (s : B),
     GetFileName path = ".." ->
     exists r s1 l,
       expand_path_returns ctx smalloc mountpoint
         (GetParentPath path) depth s (r, s1, l) /\
       match r with
       | Err e =>
           expand_path_returns ctx smalloc mountpoint path depth s
             (Err e, s1, l)
       | Ok expanded =>
           if (expanded =? "/")%string
           then expand_path_returns ctx smalloc mountpoint path depth s
                  (Err ENOENT, s1, (l ++ [LogAboveRoot path])%list)
           else expand_path_returns ctx smalloc mountpoint path depth s
                  (Ok (strip_last_component expanded), s1, l)
       end) /\
  (forall (B : Type) (ctx : cvmfs_context B) smalloc mountpoint,
     (forall p, plain_at ctx p) ->
     forall depth s, exists s',
       expand_path_returns ctx smalloc mountpoint "/a/./b/../c" depth s
         (Ok "/a/c", s', [])) /\
  expand_path (tree_ctx [("/a", Dir); ("/a/b", Dir); ("/a/c", File)])
    always "" 6 "/a/./b/../c" 0 []
  = Some (Ok "/a/c", ["/a"; "/a/b"; "/a/c"], []).
Proof.
  split; [|split].
  - intros B ctx smalloc mountpoint path depth s Hf.
    destruct (expand_path_total ctx smalloc mountpoint
                (GetParentPath path) depth s) as [[[r s1] l] H].
    exists r, s1, l. split; [exact H|].
    pose proof (fun o => proj2 (returns_dotdot ctx smalloc mountpoint
                                  path depth s o Hf)) as Hdd.
    destruct r as [e|e].
    + unfold strip_last_component.
      destruct (e =? "/")%string eqn:He; apply Hdd;
        exists (Ok e, s1, l); (split; [exact H|]); simpl; now rewrite He.
    + apply Hdd. exists (Err e, s1, l). split; [exact H | reflexivity].
  - intros B ctx smalloc mountpoint Hplain depth s.
    destruct (Hplain "/a" s) as (st1 & s1 & Hg1 & Hl1).
    assert (H1 : expand_path_returns ctx smalloc mountpoint "/a" depth s
                   (Ok "/a", s1, [])).
    { apply (returns_plain ctx smalloc mountpoint "/a" depth s "" s []
               st1 s1); [|exact Hg1|exact Hl1].
      split; [discriminate|]. left. auto. }
    assert (H2 : expand_path_returns ctx smalloc mountpoint "/a/." depth s
                   (Ok "/a", s1, [])).
    { apply returns_dot; [reflexivity | discriminate | exact H1]. }
    destruct (Hplain "/a/b" s1) as (st2 & s2 & Hg2 & Hl2).
    assert (H3 : expand_path_returns ctx smalloc mountpoint "/a/./b" depth s
                   (Ok "/a/b", s2, [])).
    { apply (returns_plain ctx smalloc mountpoint "/a/./b" depth s "/a" s1
               [] st2 s2); [|exact Hg2|exact Hl2].
      split; [discriminate|]. right.
      split; [discriminate|]. split; [discriminate | exact H2]. }
    assert (H4 : expand_path_returns ctx smalloc mountpoint "/a/./b/.."
                   depth s (Ok "/a", s2, [])).
    { apply returns_dotdot; [reflexivity|].
      exists (Ok "/a/b", s2, []). split; [exact H3 | reflexivity]. }
    destruct (Hplain "/a/c" s2) as (st3 & s3 & Hg3 & Hl3).
    exists s3.
    apply (returns_plain ctx smalloc mountpoint "/a/./b/../c" depth s "/a"
             s2 [] st3 s3); [|exact Hg3|exact Hl3].
    split; [discriminate|]. right.
    split; [discriminate|]. split; [discriminate | exact H4].
  - reflexivity.
Qed.

(** Below the top level "." is the expansion of the parent: the result,
    the backend state and the log are those of the call on the parent, so
    the backend is not asked about "." itself. *)
Lemma dot_is_parent :
  forall (B : Type) (ctx : cvmfs_context B) smalloc mountpoint
         (path : string) (depth : Z) (s : B) (fuel : nat),
    GetFileName path = "." -> GetParentPath path <> "" ->
    expand_path ctx smalloc mountpoint (S fuel) path depth s
    = expand_path ctx smalloc mountpoint fuel (GetParentPath path) depth s.
Proof.
  intros B ctx smalloc mountpoint path depth s fuel Hf Hp.
  simpl. now apply body_dot.
Qed.

(** C6 -- Dot identity, at the top level.  The path "/." has the final
    component "." and an empty parent.  The code tests for "." only after
    a non-empty parent has been expanded, so here it goes on to the
    candidate "/." and asks the backend about it: on the repository that
    holds the root only the call fails with [ENOENT] after asking about
    "/.", whereas the expansion of the parent is "/" after asking about
    "/"; on a backend that knows every path the result is "/.", which is
    not the expansion of the parent either, and going up from it, as in
    "/./..", gives the root instead of a failure. *)
Theorem dot_at_top_level :
  GetFileName "/." = "." /\ GetParentPath "/." = "" /\
  expand_path (tree_ctx [("/", Dir)]) always "" 2 "/." 0 []
  = Some (Err ENOENT, ["/."], []) /\
  expand_path (tree_ctx [("/", Dir)]) always "" 2 (GetParentPath "/.") 0 []
  = Some (Ok "/", ["/"], []) /\
  expand_path plain_ctx always "" 2 "/." 0 tt = Some (Ok "/.", tt, []) /\
  expand_path plain_ctx always "" 2 (GetParentPath "/.") 0 tt
  = Some (Ok "/", tt, []) /\
  expand_path plain_ctx always "" 3 "/./.." 0 tt = Some (Ok "/", tt, []).
Proof. repeat split; reflexivity. Qed.

(* ================================================================= *)
(** * Idempotence *)

(** C8 -- Idempotence.  A canonical path is the root or a sequence of
    ordinary names (not empty, not "." and not ".."), each preceded by a
    slash.  If the backend answers for every prefix of such a path that
    it exists and is no link, [expand_path] succeeds and returns the path
    unchanged, and logs nothing. *)
Theorem expand_path_idempotent :
  forall (B : Type) (ctx : cvmfs_context B) smalloc mountpoint
         (cs : list string) (depth : Z) (s : B),
    Forall plain_name cs ->
    (forall pre suf, cs = (pre ++ suf)%list -> pre <> [] ->
                     plain_at ctx (join pre)) ->
    (cs = [] -> plain_at ctx "/") ->
    exists s',
      expand_path_returns ctx smalloc mountpoint (path_of cs) depth s
        (Ok (path_of cs), s', []).
Proof.
  intros B ctx smalloc mountpoint cs depth s Hall Hpre Hroot.
  destruct cs as [|c cs].
  - apply returns_root. now apply Hroot.
  - apply returns_join; [discriminate | exact Hall | exact Hpre].
Qed.

Lemma expand_path_idempotent_witness :
  exists s',
    expand_path_returns plain_ctx always "/cvmfs/repo" "/a/b" 0 tt
      (Ok "/a/b", s', []).
Proof.
  apply (expand_path_idempotent unit plain_ctx always "/cvmfs/repo"
           ["a"; "b"] 0 tt).
  - repeat constructor; discriminate.
  - intros pre suf _ _ s. exists (stat_of Dir), s. split; reflexivity.
  - discriminate.
Defined.

(* ================================================================= *)
(** * Symbolic links *)

Module LinkFacts.
Import Str StrFacts PathFacts.

Lemma link_target_resolves (mountpoint cand ln : string) :
  target_resolves mountpoint cand ln (link_target mountpoint cand ln).
Proof.
  unfold link_target. destruct (starts_with_slash ln) eqn:Habs.
  - destruct (strncmp_eq ln mountpoint (String.length mountpoint)) eqn:Hs.
    + apply strncmp_eq_prefix in Hs. destruct Hs as [rest ->].
      rewrite get_app_length, substr_from_app. simpl.
      destruct rest as [|c rest]; simpl.
      * apply target_is_mountpoint; [exact Habs | apply append_nil_r].
      * destruct (Ascii.eqb c "/") eqn:Hc.
        -- now apply target_below_mountpoint.
        -- apply target_outside_mountpoint; [exact Habs|].
           intros rest' E. apply append_inv_head in E. subst rest'.
           split; [discriminate | exact Hc].
    + simpl. apply target_outside_mountpoint; [exact Habs|].
      intros rest E. exfalso.
      assert (H : strncmp_eq ln mountpoint (String.length mountpoint) = true)
        by (apply strncmp_eq_prefix; now exists rest).
      congruence.
  - rewrite append_assoc. now apply target_relative.
Qed.

Lemma target_resolves_fun (mountpoint cand ln : string) t1 t2 :
  target_resolves mountpoint cand ln t1 ->
  target_resolves mountpoint cand ln t2 -> t1 = t2.
Proof.
  intros H1 H2.
  destruct H1 as [Ha E|rest Ha E Hr|Ha Hout|Ha];
    destruct H2 as [Ha' E'|rest' Ha' E' Hr'|Ha' Hout'|Ha'];
    try congruence.
  - rewrite E in E'. rewrite <- (append_nil_r mountpoint) in E' at 1.
    apply append_inv_head in E'. subst rest'. discriminate.
  - destruct (Hout' "") as [H _]; [now rewrite append_nil_r | congruence].
  - rewrite E' in E. rewrite <- (append_nil_r mountpoint) in E at 1.
    apply append_inv_head in E. subst rest. discriminate.
  - rewrite E in E'. apply append_inv_head in E'. congruence.
  - destruct (Hout' rest E) as [_ H]. congruence.
  - destruct (Hout "") as [H _]; [now rewrite append_nil_r | congruence].
  - destruct (Hout rest' E') as [_ H]. congruence.
Qed.

(** With an empty mountpoint every absolute target is accepted whole. *)
Lemma link_target_empty_mountpoint (cand ln : string) :
  starts_with_slash ln = true -> link_target "" cand ln = Some ln.
Proof.
  intros Habs. unfold link_target. rewrite Habs.
  cbn [String.length strncmp_eq andb].
  assert (E : substr_from 0 ln = ln).
  { unfold substr_from. rewrite Nat.sub_0_r. apply substring_all. }
  rewrite E. destruct ln as [|c ln]; [discriminate|].
  cbn [String.get]. simpl in Habs. now rewrite Habs.
Qed.

End LinkFacts.

(** A call that has read a link fails if the target is refused, and is
    otherwise the call on the resolved target one level deeper. *)
Lemma returns_link_resolved :
  forall (B : Type) (ctx : cvmfs_context B) smalloc mountpoint
         path depth s cand ln s3 log,
    reads_link ctx smalloc mountpoint path depth s cand ln s3 log ->
    forall t, target_resolves mountpoint cand ln t ->
      match t with
      | None =>
          expand_path_returns ctx smalloc mountpoint path depth s
            (Err ENOENT, s3,
             (log ++ [LogOutsideMountpoint path ln mountpoint])%list)
      | Some t' =>
          forall o,
            expand_path_returns ctx smalloc mountpoint path depth s o <->
            exists r s4 l4,
              expand_path_returns ctx smalloc mountpoint t' (depth + 1) s3
                (r, s4, l4) /\
              o = (r, s4, (log ++ l4)%list)
      end.
Proof.
  intros B ctx smalloc mountpoint path depth s cand ln s3 log Hread t Ht.
  rewrite (LinkFacts.target_resolves_fun _ _ _ _ _ Ht
             (LinkFacts.link_target_resolves mountpoint cand ln)).
  pose proof (fun o => returns_reads_link ctx smalloc mountpoint path depth
                         s cand ln s3 log o Hread) as H.
  destruct (link_target mountpoint cand ln) as [t'|].
  - exact H.
  - now apply H.
Qed.

(** The static [mountpoint] is empty whatever calls were made. *)
Lemma static_mountpoint_empty (run : list api_call) :
  static_mountpoint run = "".
Proof.
  unfold static_mountpoint.
  assert (H : forall m, m = "" ->
                        fold_left (fun m c => mountpoint_after c m) run m
                        = "").
  { induction run as [|c run IH]; intros m Hm; [exact Hm|].
    simpl. apply IH. subst m. now destruct c. }
  now apply H.
Qed.

(** C4 -- Symlink target resolution: the mountpoint is not stripped.
    As a function of the mountpoint [link_target] computes what the
    specification says, and a call that has read a link returns what
    the call on the resolved target at [depth + 1] returns; given the
    mountpoint of the repository, [link_target] resolves the target
    /cvmfs/repo/target of the link /link to /target.  But the mountpoint
    [expand_path] runs with is the static [mountpoint], which is empty
    whatever calls were made, also after the repository was attached
    with the option mountpoint=/cvmfs/repo.  With it every absolute
    target is taken whole, as a path of the repository, so the call on
    /link goes on to look up /cvmfs and fails with [ENOENT] although the
    repository has /target.  A relative target is put behind the
    directory of the link, as the claim says. *)
Theorem mountpoint_prefix_is_not_stripped :
  (forall mountpoint cand ln,
     target_resolves mountpoint cand ln (link_target mountpoint cand ln)) /\
  (forall (B : Type) (ctx : cvmfs_context B) smalloc mountpoint
          path depth s cand ln s3 log,
     reads_link ctx smalloc mountpoint path depth s cand ln s3 log ->
     forall t, target_resolves mountpoint cand ln t ->
       match t with
       | None =>
           expand_path_returns ctx smalloc mountpoint path depth s
             (Err ENOENT, s3,
              (log ++ [LogOutsideMountpoint path ln mountpoint])%list)
       | Some t' =>
           forall o,
             expand_path_returns ctx smalloc mountpoint path depth s o <->
             exists r s4 l4,
               expand_path_returns ctx smalloc mountpoint t' (depth + 1) s3
                 (r, s4, l4) /\
               o = (r, s4, (log ++ l4)%list)
       end) /\
  (forall run, static_mountpoint run = "") /\
  link_target "/cvmfs/repo" "/link" "/cvmfs/repo/target" = Some "/target" /\
  link_target (static_mountpoint [attach_cvmfs_repo]) "/link"
    "/cvmfs/repo/target"
  = Some "/cvmfs/repo/target" /\
  expand_path
    (tree_ctx [("/link", Link "/cvmfs/repo/target"); ("/target", File)])
    always (static_mountpoint [attach_cvmfs_repo]) 4 "/link" 0 []
  = Some (Err ENOENT, ["/link"; "/cvmfs"], []) /\
  (forall run cand ln,
     Str.starts_with_slash ln = true ->
     link_target (static_mountpoint run) cand ln = Some ln) /\
  (forall run cand ln,
     Str.starts_with_slash ln = false ->
     link_target (static_mountpoint run) cand ln
     = Some (GetParentPath cand ++ "/" ++ ln)).
Proof.
  split; [apply LinkFacts.link_target_resolves|].
  split; [exact returns_link_resolved|].
  split; [exact static_mountpoint_empty|].
  split; [reflexivity|]. split; [reflexivity|]. split; [reflexivity|].
  split.
  - intros run cand ln H. rewrite static_mountpoint_empty.
    now apply LinkFacts.link_target_empty_mountpoint.
  - intros run cand ln H. unfold link_target. rewrite H. cbv zeta.
    now rewrite StrFacts.append_assoc.
Qed.

(** C10 -- An empty mountpoint disables the containment check.  The
    static mountpoint is empty initially and after [cvmfs_fini].  With an
    empty mountpoint every absolute link target passes the check and is
    taken whole, so a call that has read an absolute target never ends in
    the branch that refuses the target: it returns what the call on the
    full target string at [depth + 1] returns.  So an absolute link to
    /etc/passwd expands to the repository path "/etc/passwd". *)
Theorem empty_mountpoint_accepts_all :
  mountpoint_initial = "" /\
  (forall m, cvmfs_fini m = "") /\
  (forall cand ln,
     Str.starts_with_slash ln = true -> link_target "" cand ln = Some ln) /\
  (forall (B : Type) (ctx : cvmfs_context B) smalloc
          path depth s cand ln s3 log,
     reads_link ctx smalloc "" path depth s cand ln s3 log ->
     Str.starts_with_slash ln = true ->
     forall o,
       expand_path_returns ctx smalloc "" path depth s o <->
       exists r s4 l4,
         expand_path_returns ctx smalloc "" ln (depth + 1) s3 (r, s4, l4) /\
         o = (r, s4, (log ++ l4)%list)) /\
  expand_path
    (tree_ctx [("/link2", Link "/etc/passwd"); ("/etc", Dir);
               ("/etc/passwd", File)])
    always (cvmfs_fini "/cvmfs/repo") 3 "/link2" 0 []
  = Some (Ok "/etc/passwd", ["/link2"; "/etc"; "/etc/passwd"], []).
Proof.
  split; [reflexivity|]. split; [reflexivity|]. split; [|split].
  - apply LinkFacts.link_target_empty_mountpoint.
  - intros B ctx smalloc path depth s cand ln s3 log Hread Habs o.
    rewrite (returns_reads_link ctx smalloc "" path depth s cand ln s3 log o
               Hread).
    now rewrite (LinkFacts.link_target_empty_mountpoint cand ln Habs).
  - reflexivity.
Qed.

(* ================================================================= *)
(** * Containment *)

Section Containment.

Context {B : Type}.
Variable ctx : cvmfs_context B.
Variable smalloc : Z -> bool.
Variable mountpoint : string.

Local Abbreviation returns := (expand_path_returns ctx smalloc mountpoint).

(** Going up from a path that expands to the root fails. *)
Lemma returns_above_root p depth s s' l :
  returns p depth s (Ok "/", s', l) ->
  returns (p ++ "/..") depth s
    (Err ENOENT, s', (l ++ [LogAboveRoot (p ++ "/..")])%list).
Proof.
  intros H. apply returns_dotdot.
  - now apply PathFacts.GetFileName_join.
  - exists (Ok "/", s', l). split; [|reflexivity].
    now rewrite PathFacts.GetParentPath_join.
Qed.

(** A failure on a prefix is the failure of every path below it. *)
Lemma returns_err_below q depth s e s' l (cs : list string) :
  returns q depth s (Err e, s', l) -> q <> "" ->
  Forall Str.no_slash cs ->
  returns (q ++ join cs) depth s (Err e, s', l).
Proof.
  intros H Hq. induction cs as [|c cs IH] using rev_ind; intros Hcs.
  - simpl. now rewrite StrFacts.append_nil_r.
  - apply Forall_app in Hcs. destruct Hcs as [Hcs Hc].
    inversion Hc as [|? ? Hns _]; subst. specialize (IH Hcs).
    rewrite JoinFacts.join_snoc, <- StrFacts.append_assoc.
    assert (Hne : q ++ join cs <> "").
    { intros E. apply StrFacts.append_eq_nil in E. tauto. }
    pose proof (PathFacts.GetFileName_join (q ++ join cs) c Hns) as Hf.
    pose proof (PathFacts.GetParentPath_join (q ++ join cs) c Hns) as Hp.
    destruct (String.eqb_spec c "..") as [Hdd|Hdd].
    + apply returns_dotdot; [congruence|].
      exists (Err e, s', l). rewrite Hp. now split.
    + destruct (String.eqb_spec c ".") as [Hd|Hd].
      * apply returns_dot; [congruence | now rewrite Hp | now rewrite Hp].
      * apply returns_nested; try (rewrite ?Hf, ?Hp; assumption).
        exists (Err e, s', l). rewrite Hp. now split.
Qed.

(** Every successful result is an absolute path without a ".."
    component. *)
Lemma result_inside_root fuel path depth s r s' l :
  expand_path ctx smalloc mountpoint fuel path depth s = Some (Ok r, s', l) ->
  Str.starts_with_slash r = true /\ ~ In ".." (Str.components r).
Proof.
  apply (expand_path_ok_ind ctx smalloc mountpoint
           (fun r => Str.starts_with_slash r = true /\
                     ~ In ".." (Str.components r))).
  - intros e [Habs Hno] Hne.
    destruct (PathFacts.path_cases e) as [(Hns & _ & _)|[He Hf]].
    + destruct e as [|c e]; [discriminate|]. simpl in Habs.
      apply Ascii.eqb_eq in Habs. subst c.
      apply StrFacts.no_slash_cons in Hns. tauto.
    + destruct (GetParentPath e =? "")%string eqn:Hg.
      * split; [reflexivity|]. simpl. intuition discriminate.
      * apply String.eqb_neq in Hg. split.
        -- rewrite He in Habs. destruct (GetParentPath e); [congruence|].
           exact Habs.
        -- intros Hin. apply Hno. rewrite He, StrFacts.components_app.
           apply in_or_app. now left.
  - intros buf fname s0 st s1 Hbuf Hns Hdd _ _.
    destruct Hbuf as [->|[Habs Hno]].
    + split; [reflexivity|]. rewrite JoinFacts.candidate_empty. simpl.
      rewrite (StrFacts.components_no_slash _ Hns). simpl.
      intuition congruence.
    + assert (Hne : buf <> "") by (destruct buf; [discriminate|congruence]).
      destruct (Str.last_is_slash buf) eqn:Hlast.
      * rewrite (JoinFacts.candidate_keep _ _ Hne Hlast).
        split; [now apply PathFacts.starts_with_slash_app|].
        destruct (StrFacts.last_is_slash_inv _ Hlast) as [b ->].
        rewrite StrFacts.append_assoc. simpl.
        rewrite StrFacts.components_app,
          (StrFacts.components_no_slash _ Hns).
        change (b ++ "/") with (b ++ String "/" "") in Hno.
        rewrite StrFacts.components_app in Hno. simpl in Hno.
        intros Hin. apply in_app_or in Hin. destruct Hin as [Hin|Hin].
        -- apply Hno. apply in_or_app. now left.
        -- simpl in Hin. intuition congruence.
      * rewrite (JoinFacts.candidate_add _ _ Hlast).
        split; [now apply PathFacts.starts_with_slash_app|].
        rewrite StrFacts.components_app,
          (StrFacts.components_no_slash _ Hns).
        intros Hin. apply in_app_or in Hin. destruct Hin as [Hin|Hin].
        -- now apply Hno.
        -- simpl in Hin. intuition congruence.
Qed.

End Containment.

(** C1 -- Containment: an absolute link out of the repository is
    followed.  What holds of the claim: a call that has read a link
    fails with [ENOENT] when the resolved target goes up by ".." from a
    prefix that expands to the root, and every path returned is not
    empty, begins with a slash and has no ".." component.  And
    [link_target] refuses the target /etc/passwd when it is given the
    mountpoint /cvmfs/repo.  But [expand_path] runs with the
    static [mountpoint], which is empty whatever calls were made, also
    after the repository was attached with the option
    mountpoint=/cvmfs/repo; with it the target is taken as a path of the
    repository.  So in a repository that has the link /link2 to
    /etc/passwd and a file /etc/passwd, the call on /link2 returns
    /etc/passwd, and [cvmfs_stat] gives the attributes of that file,
    where the claim has a failure with [ENOENT].  The relative half of
    the claim holds: the link /d/up to ../../etc/passwd fails with
    [ENOENT]. *)
Theorem absolute_link_escape_is_followed :
  (forall (B : Type) (ctx : cvmfs_context B) smalloc mountpoint
          path depth s cand ln s3 log,
     reads_link ctx smalloc mountpoint path depth s cand ln s3 log ->
     forall p cs s4 l4,
       target_resolves mountpoint cand ln (Some ((p ++ "/..") ++ join cs)) ->
       Forall Str.no_slash cs ->
       expand_path_returns ctx smalloc mountpoint p (depth + 1) s3
         (Ok "/", s4, l4) ->
       expand_path_returns ctx smalloc mountpoint path depth s
         (Err ENOENT, s4,
          (log ++ l4 ++ [LogAboveRoot (p ++ "/..")])%list)) /\
  (forall (B : Type) (ctx : cvmfs_context B) smalloc mountpoint
          path depth s r s' l,
     expand_path_returns ctx smalloc mountpoint path depth s (Ok r, s', l) ->
     r <> "" /\ Str.starts_with_slash r = true /\
     ~ In ".." (Str.components r)) /\
  (forall run, static_mountpoint run = "") /\
  link_target "/cvmfs/repo" "/link2" "/etc/passwd" = None /\
  link_target (static_mountpoint [attach_cvmfs_repo]) "/link2" "/etc/passwd"
  = Some "/etc/passwd" /\
  expand_path
    (tree_ctx [("/link2", Link "/etc/passwd"); ("/etc", Dir);
               ("/etc/passwd", File)])
    always (static_mountpoint [attach_cvmfs_repo]) 3 "/link2" 0 []
  = Some (Ok "/etc/passwd", ["/link2"; "/etc"; "/etc/passwd"], []) /\
  cvmfs_stat
    (tree_ctx [("/link2", Link "/etc/passwd"); ("/etc", Dir);
               ("/etc/passwd", File)])
    always (static_mountpoint [attach_cvmfs_repo]) 3 "/link2" 0 []
  = Some (Reply 0 0 (Some (stat_of File))
            ["/link2"; "/etc"; "/etc/passwd"; "/etc/passwd"]) /\
  expand_path
    (tree_ctx [("/", Dir); ("/d", Dir); ("/d/up", Link "../../etc/passwd")])
    always (static_mountpoint [attach_cvmfs_repo]) 8 "/d/up" 0 []
  = Some (Err ENOENT, ["/d"; "/d/up"; "/d"], [LogAboveRoot "/d/../.."]).
Proof.
  split; [|split; [|split; [exact static_mountpoint_empty|]]].
  - intros B ctx smalloc mountpoint path depth s cand ln s3 log Hread
      p cs s4 l4 Ht Hcs Hroot.
    apply (returns_link_resolved _ _ _ _ _ _ _ _ _ _ _ Hread _ Ht).
    exists (Err ENOENT), s4, (l4 ++ [LogAboveRoot (p ++ "/..")])%list.
    split; [|reflexivity].
    apply returns_err_below; [|destruct p; discriminate|exact Hcs].
    now apply returns_above_root.
  - intros B ctx smalloc mountpoint path depth s r s' l [fuel H].
    destruct (result_inside_root _ _ _ _ _ _ _ _ _ _ H) as [Habs Hno].
    split; [|now split]. intros ->. discriminate.
  - split; [reflexivity|]. split; [reflexivity|]. split; [reflexivity|].
    split; reflexivity.
Qed.

(* ================================================================= *)
(** * The calls a call makes *)

Section CallFacts.

Context {B : Type}.
Variable ctx : cvmfs_context B.
Variable smalloc : Z -> bool.
Variable mountpoint : string.

Local Abbreviation expand := (expand_path ctx smalloc mountpoint).
Local Abbreviation follow := (stat_and_follow ctx smalloc mountpoint).
Local Abbreviation returns := (expand_path_returns ctx smalloc mountpoint).
Local Abbreviation reaches := (reaches ctx smalloc mountpoint).
Local Abbreviation meets_link := (meets_link ctx smalloc mountpoint).
Local Abbreviation reads_link := (reads_link ctx smalloc mountpoint).
Local Abbreviation calls := (calls ctx smalloc mountpoint).
Local Abbreviation fails_at := (fails_at ctx smalloc mountpoint).

(** A call that returns a path has logged nothing. *)
Lemma returns_ok_nil path depth s r s' l :
  returns path depth s (Ok r, s', l) -> l = [].
Proof.
  intros [fuel H]. apply expand_path_origin in H.
  now apply (origin_ok_nil ctx smalloc mountpoint _ _ r H).
Qed.

(** The depth of a call made on behalf of another: one more per link. *)
Lemma calls_depth n p d s p' d' s' :
  calls n (p, d, s) (p', d', s') -> d' = d + Z.of_nat n.
Proof.
  intros H. remember (p, d, s) as c eqn:Ec. remember (p', d', s') as c'.
  revert p d s Ec. induction H as [c|n path depth s0 c' Hp H IH
                                   |n path depth s0 cand ln s3 t c' Hr Ht H IH];
    intros p d s Ec; subst.
  - injection Ec as -> -> ->. simpl. lia.
  - injection Ec as -> -> ->. now apply (IH eq_refl (GetParentPath p) d s).
  - injection Ec as -> -> ->.
    rewrite (IH eq_refl t (d + 1) s3 eq_refl). lia.
Qed.

Lemma calls_trans n m c1 c2 c3 :
  calls n c1 c2 -> calls m c2 c3 -> calls (n + m) c1 c3.
Proof.
  intros H. revert m c3. induction H; intros m c3 H23; simpl.
  - exact H23.
  - apply calls_parent; auto.
  - eapply calls_link; eauto.
Qed.

(** The part of a call from the candidate on: a failure is the failure
    of the call itself or of a call on a link target. *)
Lemma follow_failure rec :
  (forall p d s e s' l,
     rec p d s = Some (Err e, s', l) ->
     exists fuel, expand fuel p d s = Some (Err e, s', l)) ->
  (forall p d s e s' l,
     rec p d s = Some (Err e, s', l) ->
     exists n p' d' s0 c,
       calls n (p, d, s) (p', d', s0) /\ fails_at p' d' s0 c s' l /\
       e = errno_of c) ->
  forall path depth s buf s1 e s' l,
    reaches path depth s buf s1 [] ->
    follow rec path (GetFileName path) depth buf s1 [] = Some (Err e, s', l) ->
    exists n p' d' s0 c,
      calls n (path, depth, s) (p', d', s0) /\ fails_at p' d' s0 c s' l /\
      e = errno_of c.
Proof.
  intros _ Hrec path depth s buf s1 e s' l Hreach. unfold stat_and_follow.
  fold (candidate buf (GetFileName path)).
  destruct (GetAttr ctx _ s1) as [[rc st] s2] eqn:Hg.
  destruct (rc =? 0) eqn:Hrc; cbn [negb].
  2:{ intros [= <- <- <-]. apply Z.eqb_neq in Hrc.
      exists 0%nat, path, depth, s, (BackendStatus rc).
      split; [constructor|]. split; [|reflexivity].
      now apply (fails_getattr _ _ _ _ _ _ buf s1 rc st s2). }
  apply Z.eqb_eq in Hrc. subst rc.
  destruct (S_ISLNK (st_mode st)) eqn:Hl; cbn [negb]; [|discriminate].
  assert (Hmeet : meets_link path depth s (candidate buf (GetFileName path))
                    st s2 []).
  { exists buf, s1. auto. }
  destruct (depth >? 1000) eqn:Hd.
  { intros [= <- <- <-].
    exists 0%nat, path, depth, s, DepthExceeded.
    split; [constructor|]. split; [|reflexivity].
    apply (fails_limit _ _ _ _ _ _ _ st s2 Hmeet). lia. }
  assert (Hle : depth <= 1000) by lia.
  destruct (smalloc (st_size st + 2)) eqn:Hm; cbn [negb].
  2:{ intros [= <- <- <-].
      exists 0%nat, path, depth, s, NoBuffer.
      split; [constructor|]. split; [|reflexivity].
      now apply (fails_nomem _ _ _ _ _ _ _ st s2 Hmeet). }
  destruct (Readlink ctx _ _ s2) as [[rc' ln] s3] eqn:Hr.
  destruct (rc' =? 0) eqn:Hrc'; cbn [negb].
  2:{ intros [= <- <- <-]. apply Z.eqb_neq in Hrc'.
      exists 0%nat, path, depth, s, (BackendStatus rc').
      split; [constructor|]. split; [|reflexivity].
      now apply (fails_readlink _ _ _ _ _ _ _ st s2 rc' ln s3 Hmeet). }
  apply Z.eqb_eq in Hrc'. subst rc'.
  assert (Hread : reads_link path depth s
                    (candidate buf (GetFileName path)) ln s3 []).
  { exists st, s2. auto. }
  destruct (link_target _ _ ln) as [t|] eqn:Ht.
  2:{ intros [= <- <- <-].
      exists 0%nat, path, depth, s, RootEscape.
      split; [constructor|]. split; [|reflexivity].
      now apply (fails_outside _ _ _ _ _ _ _ ln s3 Hread). }
  destruct (rec t (depth + 1) s3) as [[[r4 s4] l4]|] eqn:E; [|discriminate].
  intros [= -> <- <-]. simpl.
  destruct (Hrec _ _ _ _ _ _ E) as (n & p' & d' & s0 & c & Hc & Hf & He).
  exists (S n), p', d', s0, c. split; [|now split].
  eapply calls_link; eauto.
Qed.

(** A failure of [expand_path] is the failure of a call made on its
    behalf, which fails by itself. *)
Lemma expand_path_failure fuel path depth s e s' l :
  expand fuel path depth s = Some (Err e, s', l) ->
  exists n p' d' s0 c,
    calls n (path, depth, s) (p', d', s0) /\ fails_at p' d' s0 c s' l /\
    e = errno_of c.
Proof.
  revert path depth s e s' l. induction fuel as [|fuel IH]; [discriminate|].
  intros path depth s e s' l. simpl. unfold expand_path_body.
  assert (Hfuel : forall p d s0 e0 s0' l0,
             expand fuel p d s0 = Some (Err e0, s0', l0) ->
             exists f, expand f p d s0 = Some (Err e0, s0', l0))
    by (intros; now exists fuel).
  destruct (GetFileName path =? "..")%string eqn:Hdd.
  - apply String.eqb_eq in Hdd.
    destruct (expand fuel _ depth s) as [[[[ex|e1] s1] l1]|] eqn:E;
      [| |discriminate].
    + assert (l1 = []) as ->
        by (apply (returns_ok_nil (GetParentPath path) depth s ex s1);
            now exists fuel).
      destruct (String.eqb_spec ex "/") as [->|_]; [|discriminate].
      intros [= <- <- <-].
      exists 0%nat, path, depth, s, RootEscape.
      split; [constructor|]. split; [|reflexivity].
      apply fails_above_root; [exact Hdd | now exists fuel].
    + intros [= <- <- <-].
      destruct (IH _ _ _ _ _ _ E) as (n & p' & d' & s0 & c & Hc & Hf & He).
      exists n, p', d', s0, c. split; [|now split].
      apply calls_parent; [now left | exact Hc].
  - apply String.eqb_neq in Hdd.
    destruct (GetParentPath path =? "")%string eqn:Hp; cbn [negb].
    + apply String.eqb_eq in Hp.
      apply (follow_failure _ Hfuel IH path depth s "" s).
      split; [exact Hdd|]. left. auto.
    + apply String.eqb_neq in Hp.
      destruct (expand fuel _ depth s) as [[[[buf|e1] s1] l1]|] eqn:E;
        [| |discriminate].
      * assert (l1 = []) as ->
          by (apply (returns_ok_nil (GetParentPath path) depth s buf s1);
              now exists fuel).
        destruct (GetFileName path =? ".")%string eqn:Hd; [discriminate|].
        apply String.eqb_neq in Hd.
        apply (follow_failure _ Hfuel IH path depth s buf s1).
        split; [exact Hdd|]. right.
        split; [exact Hp|]. split; [exact Hd|]. now exists fuel.
      * intros [= <- <- <-].
        destruct (IH _ _ _ _ _ _ E) as (n & p' & d' & s0 & c & Hc & Hf & He).
        exists n, p', d', s0, c. split; [|now split].
        apply calls_parent; [now right | exact Hc].
Qed.

(** A call that fails by itself returns the failure. *)
Lemma fails_at_returns path depth s c s' l :
  fails_at path depth s c s' l ->
  returns path depth s (Err (errno_of c), s', l).
Proof.
  intros H. destruct H as [s1 Hdd Hret|buf s1 rc st s2 Hreach Hg Hrc
                           |cand st s2 Hmeet Hd|cand st s2 Hmeet Hd Hm
                           |cand st s2 rc ln s3 Hmeet Hd Hm Hr Hrc
                           |cand ln s3 Hread Ht].
  - apply returns_dotdot; [exact Hdd|].
    exists (Ok "/", s1, []). split; [exact Hret | reflexivity].
  - apply (returns_reaches _ _ _ _ _ _ _ _ _ _ Hreach).
    exists 0%nat. unfold stat_and_follow.
    unfold candidate in Hg. rewrite Hg.
    apply Z.eqb_neq in Hrc. now rewrite Hrc.
  - exact (returns_meets_limit _ _ _ _ _ _ _ _ _ _ Hmeet Hd).
  - destruct Hmeet as (buf & s1 & Hreach & -> & Hg & Hl).
    apply (returns_reaches _ _ _ _ _ _ _ _ _ _ Hreach).
    exists 0%nat. unfold stat_and_follow.
    unfold candidate in Hg. rewrite Hg. cbn [Z.eqb negb]. rewrite Hl.
    cbn [negb]. assert (Hd' : (depth >? 1000) = false) by lia.
    now rewrite Hd', Hm.
  - destruct Hmeet as (buf & s1 & Hreach & -> & Hg & Hl).
    apply (returns_reaches _ _ _ _ _ _ _ _ _ _ Hreach).
    exists 0%nat. unfold stat_and_follow.
    unfold candidate in Hg, Hr. rewrite Hg. cbn [Z.eqb negb]. rewrite Hl.
    cbn [negb]. assert (Hd' : (depth >? 1000) = false) by lia.
    rewrite Hd', Hm. cbn [negb]. rewrite Hr.
    apply Z.eqb_neq in Hrc. now rewrite Hrc.
  - apply (returns_reads_link _ _ _ _ _ _ _ _ _ _ _ Hread).
    now rewrite Ht.
Qed.

(** The failure of a call made on behalf of another is the failure of
    that one. *)
Lemma calls_failure n c c' e s' l :
  calls n c c' ->
  returns (fst (fst c')) (snd (fst c')) (snd c') (Err e, s', l) ->
  returns (fst (fst c)) (snd (fst c)) (snd c) (Err e, s', l).
Proof.
  intros H. induction H as [c|n path depth s c' Hp H IH
                            |n path depth s cand ln s3 t c' Hr Ht H IH];
    intros Hret; [exact Hret| |]; specialize (IH Hret); cbn [fst snd] in *.
  - destruct (String.eqb_spec (GetFileName path) "..") as [Hdd|Hdd].
    + apply returns_dotdot; [exact Hdd|].
      now exists (Err e, s', l).
    + destruct Hp as [Hp|Hp]; [contradiction|].
      destruct (String.eqb_spec (GetFileName path) ".") as [Hd|Hd].
      * now apply returns_dot.
      * apply returns_nested; try assumption.
        now exists (Err e, s', l).
  - apply (returns_reads_link _ _ _ _ _ _ _ _ _ _ _ Hr). rewrite Ht.
    now exists (Err e), s', l.
Qed.

(** A call fails exactly when a call made on its behalf fails by itself,
    and then with the code of that failure, in its state and with its
    message. *)
Lemma returns_failure path depth s e s' l :
  returns path depth s (Err e, s', l) <->
  exists n p' d' s0 c,
    calls n (path, depth, s) (p', d', s0) /\ fails_at p' d' s0 c s' l /\
    e = errno_of c.
Proof.
  split.
  - intros [fuel H]. now apply expand_path_failure in H.
  - intros (n & p' & d' & s0 & c & Hc & Hf & ->).
    apply (calls_failure n (path, depth, s) (p', d', s0) _ _ _ Hc).
    now apply fails_at_returns.
Qed.

End CallFacts.

(* ================================================================= *)
(** * The bound on link chains *)

Module ChainFacts.
Import Str StrFacts PathFacts.

Lemma length_letters (k : nat) : String.length (letters k) = k.
Proof. induction k as [|k IH]; simpl; [reflexivity | now rewrite IH]. Qed.

Lemma no_slash_letters (k : nat) : no_slash (letters k).
Proof.
  induction k as [|k IH]; [reflexivity|].
  simpl. apply no_slash_cons. split; [discriminate | exact IH].
Qed.

(** The [k]-th path of the chain is a link when [1 <= k <= n]. *)
Lemma chain_index_link (n k : nat) :
  (1 <= k <= n)%nat -> chain_index n (chain_link k) = Some k.
Proof.
  intros Hk. unfold chain_index.
  replace (String.length (chain_link k) - 1)%nat with k
    by (unfold chain_link; simpl; rewrite length_letters; lia).
  rewrite String.eqb_refl.
  destruct (Nat.leb_spec 1 k); [|lia].
  destruct (Nat.leb_spec k n); [|lia]. reflexivity.
Qed.

(** The target of the [k]-th link, taken from the root directory, is the
    next path of the chain. *)
Lemma chain_target (mountpoint : string) (k : nat) :
  link_target mountpoint (chain_link k) (letters (S k))
  = Some (chain_link (S k)).
Proof.
  unfold link_target, chain_link. simpl starts_with_slash.
  change ("/" ++ letters k) with ("" ++ String "/" (letters k)).
  rewrite (GetParentPath_join "" _ (no_slash_letters k)). reflexivity.
Qed.

Lemma chain_1001_run :
  expand_path (chain_ctx 1001) always "" 1002 (chain_link 1) 0 tt
  = Some (Ok (chain_link 1002), tt, []).
Proof. vm_compute. reflexivity. Qed.

Lemma chain_1002_run :
  expand_path (chain_ctx 1002) always "" 1002 (chain_link 1) 0 tt
  = Some (Err ELOOP, tt, [LogRecursionLimit (chain_link 1002)]).
Proof. vm_compute. reflexivity. Qed.

End ChainFacts.

Section Limit.

Context {B : Type}.
Variable ctx : cvmfs_context B.
Variable smalloc : Z -> bool.
Variable mountpoint : string.

Local Abbreviation returns := (expand_path_returns ctx smalloc mountpoint).

(** The message about the recursion limit is logged by failures with
    [ELOOP] only. *)
Lemma limit_logged_is_eloop path depth s r s' l :
  returns path depth s (r, s', l) ->
  (exists p, In (LogRecursionLimit p) l) -> r = Err ELOOP.
Proof.
  intros [fuel H] [p Hin].
  apply expand_path_origin in H.
  inversion H; subst; simpl in Hin; try tauto;
    destruct Hin as [Hin|[]]; try discriminate; reflexivity.
Qed.

(** Unless the backend answers with [-ELOOP], a call fails with [ELOOP]
    exactly when it, or a call made on its behalf, encounters a link
    while the depth exceeds 1000: the call that encounters the link is
    reached through as many links as its depth is above the depth of the
    given call, the backend is left as the lookup of that link left it,
    and the message names its path. *)
Lemma eloop_exactly path depth s s' l :
  (forall p s0, fst (fst (GetAttr ctx p s0)) <> - ELOOP) ->
  (forall p n s0, fst (fst (Readlink ctx p n s0)) <> - ELOOP) ->
  (returns path depth s (Err ELOOP, s', l) <->
   exists n p s0 cand st,
     calls ctx smalloc mountpoint n (path, depth, s)
       (p, depth + Z.of_nat n, s0) /\
     meets_link ctx smalloc mountpoint p (depth + Z.of_nat n) s0 cand st s'
       [] /\
     1000 < depth + Z.of_nat n /\
     l = [LogRecursionLimit p]).
Proof.
  intros Hg Hr. split.
  - intros H. apply returns_failure in H.
    destruct H as (n & p & d & s0 & c & Hc & Hf & He).
    pose proof (calls_depth _ _ _ _ _ _ _ _ _ _ Hc) as Hd. subst d.
    destruct Hf as [s1 Hdd Hret|buf s1 rc st s2 Hreach Ha Hrc
                    |cand st s2 Hmeet Hlim|cand st s2 Hmeet Hlim Hm
                    |cand st s2 rc ln s3 Hmeet Hlim Hm Hrl Hrc
                    |cand ln s3 Hread Ht]; simpl in He;
      try (unfold ELOOP, ENOENT, ENOMEM in He; discriminate).
    + exfalso. apply (Hg (candidate buf (GetFileName p)) s1).
      rewrite Ha. simpl. unfold ELOOP in *. lia.
    + exists n, p, s0, cand, st. auto.
    + exfalso. apply (Hr cand (st_size st + 2) s2).
      rewrite Hrl. simpl. unfold ELOOP in *. lia.
  - intros (n & p & s0 & cand & st & Hc & Hmeet & Hd & ->).
    apply returns_failure.
    exists n, p, (depth + Z.of_nat n), s0, DepthExceeded.
    split; [exact Hc|]. split; [|reflexivity].
    now apply (fails_limit _ _ _ _ _ _ cand st s').
Qed.

End Limit.

(** A chain of 1001 relative links, /a -> aa, /aa -> aaa, ..., ending in
    a plain file, resolves: the last link is met at depth 1000, which the
    test [depth > 1000] lets pass, and the file at depth 1001 is no link.
    And a failure with [ELOOP] need not come from the depth test: it is
    also what a backend status [-ELOOP] turns into. *)
Lemma chain_of_1001_links_resolves :
  (forall k, (1 <= k <= 1001)%nat ->
     chain_index 1001 (chain_link k) = Some k /\
     link_target "" (chain_link k) (letters (S k))
     = Some (chain_link (S k))) /\
  chain_index 1001 (chain_link 1002) = None /\
  expand_path (chain_ctx 1001) always "" 1002 (chain_link 1) 0 tt
  = Some (Ok (chain_link 1002), tt, []) /\
  (forall o,
     expand_path_returns (chain_ctx 1001) always "" (chain_link 1) 0 tt o ->
     fst (fst o) <> Err ELOOP) /\
  expand_path looping_ctx always "" 1 "/a" 0 tt = Some (Err ELOOP, tt, []).
Proof.
  split; [|split; [|split; [|split]]].
  - intros k Hk. split.
    + now apply ChainFacts.chain_index_link.
    + apply ChainFacts.chain_target.
  - vm_compute. reflexivity.
  - exact ChainFacts.chain_1001_run.
  - intros o Ho.
    assert (E : o = (Ok (chain_link 1002), tt, [])).
    { apply (returns_det (chain_ctx 1001) always "" (chain_link 1) 0 tt);
        [exact Ho|]. exists 1002%nat. exact ChainFacts.chain_1001_run. }
    rewrite E. discriminate.
  - reflexivity.
Qed.

(** C2 -- Symlink-chain bound, as the code has it.  A call that
    encounters a symbolic link while the depth counter exceeds 1000 fails
    with [ELOOP] and logs that the recursion limit was hit; that message
    is logged by failures with [ELOOP] only; and unless the backend
    itself answers a lookup with the status [-ELOOP], a call fails with
    [ELOOP] exactly when it, or a call it makes on a parent path or on
    the target of a link it has read, encounters a link while the depth
    exceeds 1000: that call is reached from the given one through as
    many links as its depth is above the given depth, the backend is
    left as the lookup of that link left it, and the one message logged
    names the path of that call.  The bound lets a chain of 1001 links
    through and stops a chain of 1002 links. *)
Theorem symlink_loop_bound :
  (forall (B : Type) (ctx : cvmfs_context B) smalloc mountpoint
          path depth s cand st s2 log,
     meets_link ctx smalloc mountpoint path depth s cand st s2 log ->
     1000 < depth ->
     expand_path_returns ctx smalloc mountpoint path depth s
       (Err ELOOP, s2, (log ++ [LogRecursionLimit path])%list)) /\
  (forall (B : Type) (ctx : cvmfs_context B) smalloc mountpoint
          path depth s r s' l,
     expand_path_returns ctx smalloc mountpoint path depth s (r, s', l) ->
     (exists p, In (LogRecursionLimit p) l) -> r = Err ELOOP) /\
  (forall (B : Type) (ctx : cvmfs_context B) smalloc mountpoint
          path depth s s' l,
     (forall p s0, fst (fst (GetAttr ctx p s0)) <> - ELOOP) ->
     (forall p n s0, fst (fst (Readlink ctx p n s0)) <> - ELOOP) ->
     (expand_path_returns ctx smalloc mountpoint path depth s
        (Err ELOOP, s', l) <->
      exists n p s0 cand st,
        calls ctx smalloc mountpoint n (path, depth, s)
          (p, depth + Z.of_nat n, s0) /\
        meets_link ctx smalloc mountpoint p (depth + Z.of_nat n) s0 cand st
          s' [] /\
        1000 < depth + Z.of_nat n /\
        l = [LogRecursionLimit p])) /\
  expand_path (chain_ctx 1002) always "" 1002 (chain_link 1) 0 tt
  = Some (Err ELOOP, tt, [LogRecursionLimit (chain_link 1002)]) /\
  expand_path (chain_ctx 1001) always "" 1002 (chain_link 1) 0 tt
  = Some (Ok (chain_link 1002), tt, []).
Proof.
  split; [|split; [|split; [|split]]].
  - intros B ctx smalloc mountpoint path depth s cand st s2 log.
    apply returns_meets_limit.
  - intros B ctx smalloc mountpoint path depth s r s' l.
    apply limit_logged_is_eloop.
  - intros B ctx smalloc mountpoint path depth s s' l.
    apply eloop_exactly.
  - exact ChainFacts.chain_1002_run.
  - exact ChainFacts.chain_1001_run.
Qed.

(** On the chain of 1002 links the call at depth 1001 meets the last
    link. *)
Lemma symlink_loop_bound_witness :
  meets_link (chain_ctx 1002) always "" (chain_link 1002) 1001 tt
    (chain_link 1002) (stat_of (Link (letters 1003))) tt [] /\
  1000 < 1001 /\
  expand_path_returns (chain_ctx 1002) always "" (chain_link 1002) 1001 tt
    (Err ELOOP, tt, ([] ++ [LogRecursionLimit (chain_link 1002)])%list).
Proof.
  assert (Hmeet : meets_link (chain_ctx 1002) always "" (chain_link 1002)
                    1001 tt (chain_link 1002)
                    (stat_of (Link (letters 1003))) tt []).
  { exists "", tt. split; [|split; [|split]].
    - split; [vm_compute; discriminate|]. left.
      split; [vm_compute; reflexivity | auto].
    - vm_compute. reflexivity.
    - vm_compute. reflexivity.
    - reflexivity. }
  split; [exact Hmeet|]. split; [lia|].
  exact (proj1 symlink_loop_bound _ _ _ _ _ _ _ _ _ _ _ Hmeet
           ltac:(lia)).
Defined.

(* ================================================================= *)
(** * Parent-only resolution *)

Section ParentOnly.

Context {B : Type}.
Variable ctx : cvmfs_context B.
Variable smalloc : Z -> bool.
Variable mountpoint : string.

Local Abbreviation returns := (expand_path_returns ctx smalloc mountpoint).
Local Abbreviation preturns :=
  (expand_ppath_returns ctx smalloc mountpoint).
Local Abbreviation seen_plain := (seen_plain ctx).
Local Abbreviation walked := (walked ctx).

Lemma expand_ppath_top path s fuel :
  GetParentPath path = "" ->
  expand_ppath ctx smalloc mountpoint fuel path s = Some (Ok path, s, []).
Proof. intros H. unfold expand_ppath. now rewrite H. Qed.

Lemma expand_ppath_nested path s o :
  GetParentPath path <> "" ->
  (preturns path s o <->
   exists r s1 l,
     returns (GetParentPath path) 0 s (r, s1, l) /\
     o = (match r with
          | Ok expanded => Ok (expanded ++ "/" ++ GetFileName path)
          | Err e => Err e
          end, s1, l)).
Proof.
  intros Hp. apply String.eqb_neq in Hp.
  unfold expand_ppath_returns, expand_ppath. rewrite Hp. split.
  - intros [fuel H].
    destruct (expand_path ctx smalloc mountpoint fuel (GetParentPath path)
                0 s) as [[[[e|e] s1] l]|] eqn:E; [| |discriminate].
    + exists (Ok e), s1, l. split; [now exists fuel|].
      rewrite StrFacts.append_assoc in H. congruence.
    + exists (Err e), s1, l. split; [now exists fuel | congruence].
  - intros (r & s1 & l & [fuel H] & ->). exists fuel. rewrite H.
    destruct r; [now rewrite StrFacts.append_assoc | reflexivity].
Qed.

Lemma result_walked fuel path depth s r s' l :
  expand_path ctx smalloc mountpoint fuel path depth s = Some (Ok r, s', l) ->
  walked r.
Proof.
  apply (expand_path_ok_ind ctx smalloc mountpoint walked).
  - intros e (Habs & Hpre & _) Hne.
    destruct (PathFacts.path_cases e) as [(Hns & _ & _)|[He Hf]].
    { destruct e as [|c e]; [discriminate|]. simpl in Habs.
      apply Ascii.eqb_eq in Habs. subst c.
      apply StrFacts.no_slash_cons in Hns. tauto. }
    destruct (GetParentPath e =? "")%string eqn:Hg.
    + split; [reflexivity|]. split; [|now left].
      intros q rest E Hq. destruct q as [|c q]; [congruence|].
      simpl in E. injection E as _ E. destruct q; discriminate.
    + apply String.eqb_neq in Hg. split; [|split].
      * rewrite He in Habs. destruct (GetParentPath e); [congruence|].
        exact Habs.
      * intros q rest E Hq.
        apply (Hpre q (rest ++ String "/" (GetFileName e))); [|exact Hq].
        rewrite He at 1. rewrite E. now rewrite StrFacts.append_assoc.
      * right. now apply (Hpre (GetParentPath e) (GetFileName e)).
  - intros buf fname s0 st s1 Hbuf Hns Hdd Hg Hl.
    assert (Hseen : seen_plain (candidate buf fname))
      by (now exists s0, st, s1).
    destruct Hbuf as [->|(Habs & Hpre & Hlast)].
    + split; [reflexivity|]. split; [|now right].
      intros q rest E Hq. rewrite JoinFacts.candidate_empty in E.
      destruct (StrFacts.slash_split_cases q rest "" fname
                  (eq_sym E) Hns) as [[-> _]|[r' E']]; [congruence|].
      destruct q; discriminate.
    + assert (Hne : buf <> "") by (destruct buf; [discriminate|congruence]).
      destruct (Str.last_is_slash buf) eqn:Hls.
      * rewrite (JoinFacts.candidate_keep _ _ Hne Hls) in *.
        split; [now apply PathFacts.starts_with_slash_app|].
        split; [|now right].
        intros q rest E Hq.
        destruct (StrFacts.slash_split_no_slash q rest buf fname
                    (eq_sym E) Hns) as (r' & E' & _).
        now apply (Hpre q r').
      * rewrite (JoinFacts.candidate_add _ _ Hls) in *.
        split; [now apply PathFacts.starts_with_slash_app|].
        split; [|now right].
        intros q rest E Hq.
        destruct (StrFacts.slash_split_cases q rest buf fname
                    (eq_sym E) Hns) as [[-> _]|[r' E']].
        -- destruct Hlast as [->|Hs]; [discriminate | exact Hs].
        -- now apply (Hpre q r').
Qed.

(** Where the final component is an ordinary name that exists and is no
    link, and the expanded parent does not end in a slash, both
    resolutions give the same path. *)
Lemma ppath_agrees path s pe s1 l st s2 :
  GetParentPath path <> "" ->
  GetFileName path <> "." -> GetFileName path <> ".." ->
  returns (GetParentPath path) 0 s (Ok pe, s1, l) ->
  Str.last_is_slash pe = false ->
  GetAttr ctx (pe ++ "/" ++ GetFileName path) s1 = (0, st, s2) ->
  S_ISLNK (st_mode st) = false ->
  preturns path s (Ok (pe ++ "/" ++ GetFileName path), s1, l) /\
  returns path 0 s (Ok (pe ++ "/" ++ GetFileName path), s2, l).
Proof.
  intros Hp Hd Hdd Hret Hls Hg Hl. split.
  - apply expand_ppath_nested; [exact Hp|]. now exists (Ok pe), s1, l.
  - pose proof (returns_plain ctx smalloc mountpoint path 0 s pe s1 l st s2)
      as H.
    rewrite (JoinFacts.candidate_add _ _ Hls) in H.
    apply H; [|exact Hg|exact Hl].
    split; [exact Hdd|]. right. auto.
Qed.

(** Where the backend always reports the path that parent-only
    resolution gives as a link, full resolution does not give that
    path. *)
Lemma ppath_differs path s lp s1 l1 r s2 l2 :
  GetParentPath path <> "" ->
  preturns path s (Ok lp, s1, l1) ->
  link_at ctx lp ->
  returns path 0 s (r, s2, l2) ->
  r <> Ok lp.
Proof.
  intros Hp Hpp Hlink [fuel Hret] ->.
  apply (expand_ppath_nested _ _ _ Hp) in Hpp.
  destruct Hpp as ([pe|e] & s1' & l1' & [fuel' Hparent] & E);
    [|discriminate].
  injection E as -> _ _.
  destruct (result_walked _ _ _ _ _ _ _ Hret) as (_ & _ & [Hroot|Hseen]).
  - destruct (result_walked _ _ _ _ _ _ _ Hparent) as (Habs & _ & _).
    destruct pe as [|c pe]; [discriminate|].
    simpl in Hroot. injection Hroot as _ Hroot.
    destruct pe; discriminate.
  - destruct Hseen as (s0 & st & s0' & Hg & Hl).
    destruct (Hlink s0) as (st' & s0'' & Hg' & Hl').
    rewrite Hg in Hg'. injection Hg' as <- _. congruence.
Qed.

End ParentOnly.

(** On a backend without any link the path "/a/.." has a parent
    component and a final component that is no link, and yet parent-only
    resolution leaves the final ".." in place while full resolution goes
    up to the root. *)
Lemma parent_only_keeps_dotdot :
  GetParentPath "/a/.." = "/a" /\ GetFileName "/a/.." = ".." /\
  (forall p, plain_at plain_ctx p) /\
  expand_ppath plain_ctx always "" 1 "/a/.." tt
  = Some (Ok "/a/..", tt, []) /\
  expand_path plain_ctx always "" 2 "/a/.." 0 tt = Some (Ok "/", tt, []).
Proof.
  split; [reflexivity|]. split; [reflexivity|]. split; [|split].
  - intros p s. exists (stat_of Dir), s. split; reflexivity.
  - reflexivity.
  - reflexivity.
Qed.

(** C7 -- Parent-only versus full resolution, as the code has it.
    [expand_ppath] returns a path without a parent component unchanged,
    and otherwise the expansion of the parent with a slash and the
    original final component appended.  For a path with a parent
    component whose expansion does not end in a slash, and whose final
    component is a name other than "." and ".." that the backend reports
    as existing and no link, [expand_ppath] and [expand_path] give the
    same path.  When the backend reports the path that [expand_ppath]
    gives as a symbolic link, [expand_path] does not give that path (it
    fails or gives another one). *)
Theorem parent_only_resolution :
  (forall (B : Type) (ctx : cvmfs_context B) smalloc mountpoint
          path s fuel,
     GetParentPath path = "" ->
     expand_ppath ctx smalloc mountpoint fuel path s
     = Some (Ok path, s, [])) /\
  (forall (B : Type) (ctx : cvmfs_context B) smalloc mountpoint path s o,
     GetParentPath path <> "" ->
     (expand_ppath_returns ctx smalloc mountpoint path s o <->
      exists r s1 l,
        expand_path_returns ctx smalloc mountpoint (GetParentPath path) 0 s
          (r, s1, l) /\
        o = (match r with
             | Ok expanded => Ok (expanded ++ "/" ++ GetFileName path)
             | Err e => Err e
             end, s1, l))) /\
  (forall (B : Type) (ctx : cvmfs_context B) smalloc mountpoint
          path s pe s1 l st s2,
     GetParentPath path <> "" ->
     GetFileName path <> "." -> GetFileName path <> ".." ->
     expand_path_returns ctx smalloc mountpoint (GetParentPath path) 0 s
       (Ok pe, s1, l) ->
     Str.last_is_slash pe = false ->
     GetAttr ctx (pe ++ "/" ++ GetFileName path) s1 = (0, st, s2) ->
     S_ISLNK (st_mode st) = false ->
     expand_ppath_returns ctx smalloc mountpoint path s
       (Ok (pe ++ "/" ++ GetFileName path), s1, l) /\
     expand_path_returns ctx smalloc mountpoint path 0 s
       (Ok (pe ++ "/" ++ GetFileName path), s2, l)) /\
  (forall (B : Type) (ctx : cvmfs_context B) smalloc mountpoint
          path s lp s1 l1 r s2 l2,
     GetParentPath path <> "" ->
     expand_ppath_returns ctx smalloc mountpoint path s (Ok lp, s1, l1) ->
     link_at ctx lp ->
     expand_path_returns ctx smalloc mountpoint path 0 s (r, s2, l2) ->
     r <> Ok lp).
Proof.
  split; [|split; [|split]].
  - intros B ctx smalloc mountpoint path s fuel. apply expand_ppath_top.
  - intros B ctx smalloc mountpoint path s o. apply expand_ppath_nested.
  - intros B ctx smalloc mountpoint path s pe s1 l st s2.
    apply ppath_agrees.
  - intros B ctx smalloc mountpoint path s lp s1 l1 r s2 l2.
    apply ppath_differs.
Qed.

(** In the repository with the directory /a, the file /a/c and the link
    /a/b to c: both resolutions give "/a/c" for "/a/c", and for "/a/b"
    parent-only resolution gives the link "/a/b" itself while full
    resolution gives "/a/c". *)
Lemma parent_only_resolution_witness :
  (expand_ppath_returns
     (tree_ctx [("/a", Dir); ("/a/b", Link "c"); ("/a/c", File)])
     always "/cvmfs/repo" "/a/c" []
     (Ok ("/a" ++ "/" ++ GetFileName "/a/c"), ["/a"], []) /\
   expand_path_returns
     (tree_ctx [("/a", Dir); ("/a/b", Link "c"); ("/a/c", File)])
     always "/cvmfs/repo" "/a/c" 0 []
     (Ok ("/a" ++ "/" ++ GetFileName "/a/c"), ["/a"; "/a/c"], [])) /\
  (expand_ppath_returns
     (tree_ctx [("/a", Dir); ("/a/b", Link "c"); ("/a/c", File)])
     always "/cvmfs/repo" "/a/b" [] (Ok "/a/b", ["/a"], []) /\
   link_at (tree_ctx [("/a", Dir); ("/a/b", Link "c"); ("/a/c", File)])
     "/a/b" /\
   expand_path_returns
     (tree_ctx [("/a", Dir); ("/a/b", Link "c"); ("/a/c", File)])
     always "/cvmfs/repo" "/a/b" 0 []
     (Ok "/a/c", ["/a"; "/a/b"; "/a"; "/a/c"], []) /\
   Ok "/a/c" <> Ok "/a/b").
Proof.
  split.
  - apply (proj1 (proj2 (proj2 parent_only_resolution)) _
             (tree_ctx [("/a", Dir); ("/a/b", Link "c"); ("/a/c", File)])
             always "/cvmfs/repo" "/a/c" [] "/a" ["/a"] []
             (stat_of File) ["/a"; "/a/c"]).
    + discriminate.
    + discriminate.
    + discriminate.
    + exists 1%nat. reflexivity.
    + reflexivity.
    + reflexivity.
    + reflexivity.
  - assert (Hpp : expand_ppath_returns
                    (tree_ctx [("/a", Dir); ("/a/b", Link "c");
                               ("/a/c", File)])
                    always "/cvmfs/repo" "/a/b" [] (Ok "/a/b", ["/a"], []))
      by (exists 1%nat; reflexivity).
    assert (Hlink : link_at
                      (tree_ctx [("/a", Dir); ("/a/b", Link "c");
                                 ("/a/c", File)]) "/a/b").
    { intros s. exists (stat_of (Link "c")), (s ++ ["/a/b"])%list.
      split; reflexivity. }
    assert (Hret : expand_path_returns
                     (tree_ctx [("/a", Dir); ("/a/b", Link "c");
                                ("/a/c", File)])
                     always "/cvmfs/repo" "/a/b" 0 []
                     (Ok "/a/c", ["/a"; "/a/b"; "/a"; "/a/c"], []))
      by (exists 4%nat; reflexivity).
    assert (Hp : GetParentPath "/a/b" <> "") by discriminate.
    split; [exact Hpp|]. split; [exact Hlink|]. split; [exact Hret|].
    exact (proj2 (proj2 (proj2 parent_only_resolution)) _ _ _ _ _ _ _ _ _
             _ _ _ Hp Hpp Hlink Hret).
Defined.

(* ================================================================= *)
(** * The file operations *)

Section FileAPIFacts.

Context {B : Type}.
Variable ctx : cvmfs_context B.
Variable smalloc : Z -> bool.
Variable mountpoint : string.

Local Abbreviation returns := (expand_path_returns ctx smalloc mountpoint).
Local Abbreviation preturns :=
  (expand_ppath_returns ctx smalloc mountpoint).

(** A failed resolution has its cause. *)
Lemma resolution_failure path s e s1 l :
  returns path 0 s (Err e, s1, l) ->
  exists c, e = errno_of c /\
            resolution_fails ctx smalloc mountpoint path s c s1.
Proof.
  intros H. apply returns_failure in H.
  destruct H as (n & p & d & s0 & c & Hc & Hf & He).
  exists c. split; [exact He|]. now exists n, p, d, s0, l.
Qed.

(** The reply made from the status of the delegate follows the
    convention. *)
Lemma answer_convention {A : Type}
    (delegate : string -> B -> Z * option A * B) keep errno lpath s1
    (fails : cause -> B -> Prop) :
  (forall c s', delegate_fails delegate lpath s1 c s' -> fails c s') ->
  convention errno
    (let '(rc, a, s2) := delegate lpath s1 in answer keep errno rc a s2)
    fails.
Proof.
  intros Hf. destruct (delegate lpath s1) as [[rc a] s2] eqn:E.
  unfold answer, convention.
  destruct (Z.ltb_spec rc 0); cbn [retval errno_after data backend_after].
  - right. split; [reflexivity|]. split; [reflexivity|].
    exists (BackendStatus rc). split; [reflexivity|].
    apply Hf. now exists rc, a.
  - left. destruct keep; split; (lia || reflexivity).
Qed.

(** An operation with full resolution follows the convention. *)
Lemma full_op_convention {A : Type}
    (op : nat -> string -> Z -> B -> option (reply B A))
    (delegate : string -> B -> Z * option A * B) keep :
  (forall fuel path errno s,
     op fuel path errno s
     = match expand_path ctx smalloc mountpoint fuel path 0 s with
       | None => None
       | Some (Err e, s1, _) => Some (Reply (-1) e None s1)
       | Some (Ok lpath, s1, _) =>
           Some (let '(rc, a, s2) := delegate lpath s1 in
                 answer keep errno rc a s2)
       end) ->
  forall fuel path errno s rep,
    op fuel path errno s = Some rep ->
    convention errno rep
      (full_op_fails ctx smalloc mountpoint delegate path s).
Proof.
  intros Hop fuel path errno s rep. rewrite Hop.
  destruct (expand_path ctx smalloc mountpoint fuel path 0 s)
    as [[[[lpath|e] s1] l]|] eqn:E; [| |discriminate].
  - intros [= <-]. apply answer_convention.
    intros c s' Hd. right. exists lpath, s1, l.
    split; [now exists fuel | exact Hd].
  - intros [= <-]. right. split; [reflexivity|]. split; [reflexivity|].
    destruct (resolution_failure path s e s1 l) as (c & He & Hc);
      [now exists fuel|].
    exists c. split; [exact He|]. now left.
Qed.

(** An operation with parent-only resolution follows the convention. *)
Lemma parent_op_convention {A : Type}
    (op : nat -> string -> Z -> B -> option (reply B A))
    (delegate : string -> B -> Z * option A * B) :
  (forall fuel path errno s,
     op fuel path errno s
     = match expand_ppath ctx smalloc mountpoint fuel path s with
       | None => None
       | Some (Err e, s1, _) => Some (Reply (-1) e None s1)
       | Some (Ok lpath, s1, _) =>
           Some (let '(rc, a, s2) := delegate lpath s1 in
                 answer false errno rc a s2)
       end) ->
  forall fuel path errno s rep,
    op fuel path errno s = Some rep ->
    convention errno rep
      (parent_op_fails ctx smalloc mountpoint delegate path s).
Proof.
  intros Hop fuel path errno s rep. rewrite Hop.
  destruct (expand_ppath ctx smalloc mountpoint fuel path s)
    as [[[[lpath|e] s1] l]|] eqn:E; [| |discriminate].
  - intros [= <-]. apply answer_convention.
    intros c s' Hd. right. exists lpath, s1, l.
    split; [now exists fuel | exact Hd].
  - intros [= <-]. right. split; [reflexivity|]. split; [reflexivity|].
    unfold expand_ppath in E.
    destruct (String.eqb_spec (GetParentPath path) "") as [Hp|Hp];
      [discriminate|].
    destruct (expand_path ctx smalloc mountpoint fuel _ 0 s)
      as [[[[pe|e'] s1'] l']|] eqn:E'; try discriminate.
    injection E as <- <- <-.
    destruct (resolution_failure (GetParentPath path) s e' s1' l')
      as (c & He & Hc); [now exists fuel|].
    exists c. split; [exact He|]. left. now split.
Qed.

(** The operations, each as the resolution of its path followed by the
    call of the backend it delegates to. *)
Lemma cvmfs_stat_form fuel path errno s :
  cvmfs_stat ctx smalloc mountpoint fuel path errno s
  = match expand_path ctx smalloc mountpoint fuel path 0 s with
    | None => None
    | Some (Err e, s1, _) => Some (Reply (-1) e None s1)
    | Some (Ok lpath, s1, _) =>
        Some (let '(rc, a, s2) := getattr_of ctx lpath s1 in
              answer false errno rc a s2)
    end.
Proof.
  unfold cvmfs_stat, getattr_of.
  destruct (expand_path _ _ _ fuel path 0 s) as [[[[lp|e] s1] l]|];
    try reflexivity.
  destruct (GetAttr ctx lp s1) as [[rc st] s2]. unfold answer.
  now destruct (rc <? 0).
Qed.

Lemma cvmfs_open_form fuel path errno s :
  cvmfs_open ctx smalloc mountpoint fuel path errno s
  = match expand_path ctx smalloc mountpoint fuel path 0 s with
    | None => None
    | Some (Err e, s1, _) => Some (Reply (-1) e None s1)
    | Some (Ok lpath, s1, _) =>
        Some (let '(rc, a, s2) := open_of ctx lpath s1 in
              answer true errno rc a s2)
    end.
Proof.
  unfold cvmfs_open, open_of.
  destruct (expand_path _ _ _ fuel path 0 s) as [[[[lp|e] s1] l]|];
    try reflexivity.
  destruct (Open ctx lp s1) as [rc s2]. unfold answer.
  now destruct (rc <? 0).
Qed.

Lemma cvmfs_listdir_form fuel path errno s :
  cvmfs_listdir ctx smalloc mountpoint fuel path errno s
  = match expand_path ctx smalloc mountpoint fuel path 0 s with
    | None => None
    | Some (Err e, s1, _) => Some (Reply (-1) e None s1)
    | Some (Ok lpath, s1, _) =>
        Some (let '(rc, a, s2) := listdir_of ctx lpath s1 in
              answer false errno rc a s2)
    end.
Proof.
  unfold cvmfs_listdir, listdir_of.
  destruct (expand_path _ _ _ fuel path 0 s) as [[[[lp|e] s1] l]|];
    try reflexivity.
  destruct (ListDirectory ctx lp s1) as [[rc buf] s2]. unfold answer.
  now destruct (rc <? 0).
Qed.

Lemma cvmfs_lstat_form fuel path errno s :
  cvmfs_lstat ctx smalloc mountpoint fuel path errno s
  = match expand_ppath ctx smalloc mountpoint fuel path s with
    | None => None
    | Some (Err e, s1, _) => Some (Reply (-1) e None s1)
    | Some (Ok lpath, s1, _) =>
        Some (let '(rc, a, s2) := getattr_of ctx lpath s1 in
              answer false errno rc a s2)
    end.
Proof.
  unfold cvmfs_lstat, getattr_of.
  destruct (expand_ppath _ _ _ fuel path s) as [[[[lp|e] s1] l]|];
    try reflexivity.
  destruct (GetAttr ctx lp s1) as [[rc st] s2]. unfold answer.
  now destruct (rc <? 0).
Qed.

Lemma cvmfs_readlink_form size fuel path errno s :
  cvmfs_readlink ctx smalloc mountpoint fuel path size errno s
  = match expand_ppath ctx smalloc mountpoint fuel path s with
    | None => None
    | Some (Err e, s1, _) => Some (Reply (-1) e None s1)
    | Some (Ok lpath, s1, _) =>
        Some (let '(rc, a, s2) := readlink_of ctx size lpath s1 in
              answer false errno rc a s2)
    end.
Proof.
  unfold cvmfs_readlink, readlink_of.
  destruct (expand_ppath _ _ _ fuel path s) as [[[[lp|e] s1] l]|];
    try reflexivity.
  destruct (Readlink ctx lp size s1) as [[rc buf] s2]. unfold answer.
  now destruct (rc <? 0).
Qed.

Lemma cvmfs_close_convention fd errno s :
  convention errno (cvmfs_close ctx fd errno s) (close_fails ctx fd s).
Proof.
  unfold cvmfs_close, convention.
  destruct (Close ctx fd s) as [rc s2] eqn:E.
  destruct (Z.ltb_spec rc 0); cbn [retval errno_after data backend_after].
  - right. split; [reflexivity|]. split; [reflexivity|].
    exists (BackendStatus rc). split; [reflexivity|]. now exists rc.
  - left. split; [lia | reflexivity].
Qed.

Lemma expand_ppath_settles path s :
  exists fuel o, expand_ppath ctx smalloc mountpoint fuel path s = Some o.
Proof.
  destruct (expand_path_total ctx smalloc mountpoint (GetParentPath path)
              0 s) as [[[r s1] l] [fuel H]].
  exists fuel. unfold expand_ppath.
  destruct (GetParentPath path =? "")%string; [eauto|].
  rewrite H. destruct r; eauto.
Qed.

End FileAPIFacts.

(** On a backend that never answers with a negative status, in which
    every path is a link to /etc/passwd, [cvmfs_stat] returns -1 with
    [errno] set to [ELOOP]: with the mountpoint the program has, the
    links are followed until the depth exceeds 1000, and the code is the
    resolver's own and not the magnitude of a backend status. *)
Lemma stat_sets_errno_of_its_own :
  (forall rc, backend_status all_links_ctx rc -> 0 <= rc) /\
  static_mountpoint [attach_cvmfs_repo] = "" /\
  cvmfs_stat all_links_ctx always (static_mountpoint [attach_cvmfs_repo])
    2010 "/link2" 0 tt
  = Some (Reply (-1) ELOOP None tt).
Proof.
  split; [|split; [reflexivity | vm_compute; reflexivity]].
  intros rc [(p & s & H)|[(p & n & s & H)|[(p & s & H)|[(fd & s & H)
                                                       |(p & s & H)]]]];
    simpl in H; lia.
Qed.

(** C9 -- The convention of the file operations, as the code has it.
    [cvmfs_stat], [cvmfs_open] and [cvmfs_listdir] resolve the caller's
    path in full and hand the result to the backend; [cvmfs_lstat] and
    [cvmfs_readlink] resolve the parent only and hand the backend the
    expanded parent with the final component as it was given;
    [cvmfs_close] goes to the backend at once.  A failed resolution makes
    the operation return -1 with the [errno] of the resolver and no
    further backend call.  Every operation returns, and what it returns
    is a non-negative value with [errno] untouched, or -1 with nothing
    written and [errno] set for the cause of the failure: the negated
    status of the backend call that failed, which is the call the
    operation delegates to, answering with a negative status, or a
    [GetAttr] or [Readlink] of the resolution, answering with a status
    other than 0 (the magnitude of the status when it is negative); or
    a code of the resolver itself, [ENOENT] where a path of the
    resolution goes above the root or a link leaves the mountpoint,
    [ELOOP] where a link is met while the depth exceeds 1000, [ENOMEM]
    where the buffer for a link target is not allocated.  The failing
    call is one the operation makes, the backend is left in the state of
    the failure, and a resolution fails exactly in these cases. *)
Theorem file_api_convention :
  forall (B : Type) (ctx : cvmfs_context B) (smalloc : Z -> bool)
         (mountpoint : string),
    (resolves_fully ctx smalloc mountpoint
       (cvmfs_stat ctx smalloc mountpoint) (getattr_of ctx) false /\
     resolves_fully ctx smalloc mountpoint
       (cvmfs_open ctx smalloc mountpoint) (open_of ctx) true /\
     resolves_fully ctx smalloc mountpoint
       (cvmfs_listdir ctx smalloc mountpoint) (listdir_of ctx) false /\
     resolves_parent_only ctx smalloc mountpoint
       (cvmfs_lstat ctx smalloc mountpoint) (getattr_of ctx) /\
     (forall size,
        resolves_parent_only ctx smalloc mountpoint
          (fun fuel path => cvmfs_readlink ctx smalloc mountpoint fuel path
                              size)
          (readlink_of ctx size)) /\
     (forall fd errno s,
        cvmfs_close ctx fd errno s
        = let '(rc, s') := Close ctx fd s in answer false errno rc None s'))
    /\
    (forall path errno s,
       (exists fuel rep,
          cvmfs_stat ctx smalloc mountpoint fuel path errno s = Some rep) /\
       (exists fuel rep,
          cvmfs_open ctx smalloc mountpoint fuel path errno s = Some rep) /\
       (exists fuel rep,
          cvmfs_listdir ctx smalloc mountpoint fuel path errno s = Some rep) /\
       (exists fuel rep,
          cvmfs_lstat ctx smalloc mountpoint fuel path errno s = Some rep) /\
       (forall size, exists fuel rep,
          cvmfs_readlink ctx smalloc mountpoint fuel path size errno s
          = Some rep)) /\
    (forall fuel path errno s,
       (forall rep,
          cvmfs_stat ctx smalloc mountpoint fuel path errno s = Some rep ->
          convention errno rep
            (full_op_fails ctx smalloc mountpoint (getattr_of ctx) path s))
       /\
       (forall rep,
          cvmfs_open ctx smalloc mountpoint fuel path errno s = Some rep ->
          convention errno rep
            (full_op_fails ctx smalloc mountpoint (open_of ctx) path s)) /\
       (forall rep,
          cvmfs_listdir ctx smalloc mountpoint fuel path errno s = Some rep ->
          convention errno rep
            (full_op_fails ctx smalloc mountpoint (listdir_of ctx) path s))
       /\
       (forall rep,
          cvmfs_lstat ctx smalloc mountpoint fuel path errno s = Some rep ->
          convention errno rep
            (parent_op_fails ctx smalloc mountpoint (getattr_of ctx) path s))
       /\
       (forall size rep,
          cvmfs_readlink ctx smalloc mountpoint fuel path size errno s
          = Some rep ->
          convention errno rep
            (parent_op_fails ctx smalloc mountpoint (readlink_of ctx size)
               path s)) /\
       (forall fd,
          convention errno (cvmfs_close ctx fd errno s)
            (close_fails ctx fd s))) /\
    (forall path depth s e s' l,
       expand_path_returns ctx smalloc mountpoint path depth s
         (Err e, s', l) <->
       exists n p d s0 c,
         calls ctx smalloc mountpoint n (path, depth, s) (p, d, s0) /\
         fails_at ctx smalloc mountpoint p d s0 c s' l /\
         e = errno_of c) /\
    (forall rc, rc < 0 -> errno_of (BackendStatus rc) = Z.abs rc).
Proof.
  intros B ctx smalloc mountpoint. split; [|split; [|split; [|split]]].
  - (* how each operation resolves *)
    assert (Hfull : forall (A : Type) op delegate keep,
              (forall fuel path errno s,
                 op fuel path errno s
                 = match expand_path ctx smalloc mountpoint fuel path 0 s
                   with
                   | None => None
                   | Some (Err e, s1, _) => Some (Reply (-1) e None s1)
                   | Some (Ok lpath, s1, _) =>
                       Some (let '(rc, a, s2) := delegate lpath s1 in
                             @answer B A keep errno rc a s2)
                   end) ->
              resolves_fully ctx smalloc mountpoint op delegate keep).
    { intros A op delegate keep Hop path errno s.
      split; intros ? ? ? [fuel H]; exists fuel; now rewrite Hop, H. }
    assert (Hparent : forall (A : Type) op delegate,
              (forall fuel path errno s,
                 op fuel path errno s
                 = match expand_ppath ctx smalloc mountpoint fuel path s with
                   | None => None
                   | Some (Err e, s1, _) => Some (Reply (-1) e None s1)
                   | Some (Ok lpath, s1, _) =>
                       Some (let '(rc, a, s2) := delegate lpath s1 in
                             @answer B A false errno rc a s2)
                   end) ->
              resolves_parent_only ctx smalloc mountpoint op delegate).
    { intros A op delegate Hop path errno s. split.
      - intros Hp fuel. now rewrite Hop, expand_ppath_top.
      - intros Hp. split.
        + intros pe s1 l Hret.
          assert (Hpp : expand_ppath_returns ctx smalloc mountpoint path s
                          (Ok (pe ++ "/" ++ GetFileName path), s1, l)).
          { apply expand_ppath_nested; [exact Hp|].
            now exists (Ok pe), s1, l. }
          destruct Hpp as [fuel Hpp]. exists fuel. now rewrite Hop, Hpp.
        + intros e s1 l Hret.
          assert (Hpp : expand_ppath_returns ctx smalloc mountpoint path s
                          (Err e, s1, l)).
          { apply expand_ppath_nested; [exact Hp|].
            now exists (Err e), s1, l. }
          destruct Hpp as [fuel Hpp]. exists fuel. now rewrite Hop, Hpp. }
    split; [|split; [|split; [|split; [|split]]]].
    + apply Hfull. intros fuel path errno s. unfold cvmfs_stat, getattr_of.
      destruct (expand_path _ _ _ fuel path 0 s) as [[[[lp|e] s1] l]|];
        try reflexivity.
      destruct (GetAttr ctx lp s1) as [[rc st] s2]. unfold answer.
      now destruct (rc <? 0).
    + apply Hfull. intros fuel path errno s. unfold cvmfs_open, open_of.
      destruct (expand_path _ _ _ fuel path 0 s) as [[[[lp|e] s1] l]|];
        try reflexivity.
      destruct (Open ctx lp s1) as [rc s2]. unfold answer.
      now destruct (rc <? 0).
    + apply Hfull. intros fuel path errno s.
      unfold cvmfs_listdir, listdir_of.
      destruct (expand_path _ _ _ fuel path 0 s) as [[[[lp|e] s1] l]|];
        try reflexivity.
      destruct (ListDirectory ctx lp s1) as [[rc buf] s2]. unfold answer.
      now destruct (rc <? 0).
    + apply Hparent. intros fuel path errno s. unfold cvmfs_lstat, getattr_of.
      destruct (expand_ppath _ _ _ fuel path s) as [[[[lp|e] s1] l]|];
        try reflexivity.
      destruct (GetAttr ctx lp s1) as [[rc st] s2]. unfold answer.
      now destruct (rc <? 0).
    + intros size. apply Hparent. intros fuel path errno s.
      unfold cvmfs_readlink, readlink_of.
      destruct (expand_ppath _ _ _ fuel path s) as [[[[lp|e] s1] l]|];
        try reflexivity.
      destruct (Readlink ctx lp size s1) as [[rc buf] s2]. unfold answer.
      now destruct (rc <? 0).
    + intros fd errno s. unfold cvmfs_close, answer.
      destruct (Close ctx fd s) as [rc s']. now destruct (rc <? 0).
  - (* every operation returns *)
    intros path errno s.
    destruct (expand_path_total ctx smalloc mountpoint path 0 s)
      as [[[r s1] l] [fuel H]].
    destruct (expand_ppath_settles ctx smalloc mountpoint path s)
      as (fuel' & [[r' s1'] l'] & H').
    split; [|split; [|split; [|split]]].
    + exists fuel. unfold cvmfs_stat. rewrite H. destruct r; [|eauto].
      destruct (GetAttr ctx _ s1) as [[rc st] s2]. destruct (rc <? 0); eauto.
    + exists fuel. unfold cvmfs_open. rewrite H. destruct r; [|eauto].
      destruct (Open ctx _ s1) as [rc s2]. destruct (rc <? 0); eauto.
    + exists fuel. unfold cvmfs_listdir. rewrite H. destruct r; [|eauto].
      destruct (ListDirectory ctx _ s1) as [[rc buf] s2].
      destruct (rc <? 0); eauto.
    + exists fuel'. unfold cvmfs_lstat. rewrite H'. destruct r'; [|eauto].
      destruct (GetAttr ctx _ s1') as [[rc st] s2]. destruct (rc <? 0); eauto.
    + intros size. exists fuel'. unfold cvmfs_readlink. rewrite H'.
      destruct r'; [|eauto].
      destruct (Readlink ctx _ size s1') as [[rc buf] s2].
      destruct (rc <? 0); eauto.
  - (* the return convention *)
    intros fuel path errno s.
    split; [|split; [|split; [|split; [|split]]]].
    + intros rep. apply (full_op_convention ctx smalloc mountpoint _ _ false).
      apply cvmfs_stat_form.
    + intros rep. apply (full_op_convention ctx smalloc mountpoint _ _ true).
      apply cvmfs_open_form.
    + intros rep. apply (full_op_convention ctx smalloc mountpoint _ _ false).
      apply cvmfs_listdir_form.
    + intros rep. apply (parent_op_convention ctx smalloc mountpoint).
      apply cvmfs_lstat_form.
    + intros size rep.
      apply (parent_op_convention ctx smalloc mountpoint
               (fun fuel path =>
                  cvmfs_readlink ctx smalloc mountpoint fuel path size)).
      apply cvmfs_readlink_form.
    + intros fd. apply cvmfs_close_convention.
  - (* a failed resolution and its cause *)
    apply returns_failure.
  - intros rc Hrc. simpl. lia.
Qed.

(** On a link, [cvmfs_stat] reports the target and [cvmfs_lstat] the
    link itself. *)
Example stat_and_lstat_on_a_link :
  cvmfs_stat (tree_ctx [("/a", Dir); ("/a/b", Link "c"); ("/a/c", File)])
    always (static_mountpoint [attach_cvmfs_repo]) 4 "/a/b" 0 []
  = Some (Reply 0 0 (Some (stat_of File))
            ["/a"; "/a/b"; "/a"; "/a/c"; "/a/c"]) /\
  cvmfs_lstat (tree_ctx [("/a", Dir); ("/a/b", Link "c"); ("/a/c", File)])
    always (static_mountpoint [attach_cvmfs_repo]) 4 "/a/b" 0 []
  = Some (Reply 0 0 (Some (stat_of (Link "c"))) ["/a"; "/a/b"]).
Proof. split; reflexivity. Qed.

(* ================================================================= *)
(** * Option strings *)

Module OptFacts.
Import Str StrFacts Opt.

(** *** The scanning loops *)

Lemma scan_length stop (s : string) :
  (String.length (snd (scan stop s)) <= String.length s)%nat.
Proof.
  remember (String.length s) as n eqn:Hn.
  assert (H : (String.length s <= n)%nat) by lia. clear Hn.
  revert s H. induction n as [|n IH]; intros s H.
  - destruct s; [simpl; lia | simpl in H; lia].
  - destruct s as [|c s]; [simpl; lia|].
    simpl in H. cbn [scan]. destruct (stop c); [simpl; lia|].
    destruct (Ascii.eqb c "\").
    + destruct s as [|d s]; [simpl; lia|].
      specialize (IH s ltac:(simpl in H; lia)).
      destruct (scan stop s) as [text next]. simpl in *. lia.
    + specialize (IH s ltac:(lia)).
      destruct (scan stop s) as [text next]. simpl in *. lia.
Qed.

Lemma scan_moves stop (c : ascii) (s : string) :
  stop c = false ->
  (String.length (snd (scan stop (String c s))) <= String.length s)%nat.
Proof.
  intros Hc. cbn [scan]. rewrite Hc. destruct (Ascii.eqb c "\").
  - destruct s as [|d s]; [simpl; lia|].
    pose proof (scan_length stop s) as H.
    destruct (scan stop s) as [text next]. simpl in *. lia.
  - pose proof (scan_length stop s) as H.
    destruct (scan stop s) as [text next]. simpl in *. lia.
Qed.

Lemma skip_length (c : ascii) (s : string) :
  (String.length (skip c s) <= String.length s)%nat.
Proof.
  destruct s as [|d s]; simpl; [lia|]. destruct (Ascii.eqb d c); simpl; lia.
Qed.

(** A round moves on by at least one character. *)
Lemma after_round_shorter (c : ascii) (s : string) :
  (String.length (after_round (String c s)) <= String.length s)%nat.
Proof.
  unfold after_round. destruct (name_stop c) eqn:Hc.
  - cbn [scan]. rewrite Hc. cbn [snd].
    unfold name_stop in Hc. apply orb_true_iff in Hc.
    destruct Hc as [Hc|Hc]; apply Ascii.eqb_eq in Hc; subst c.
    + cbn [skip Ascii.eqb]. simpl. lia.
    + cbn [skip]. rewrite Ascii.eqb_refl.
      pose proof (scan_length value_stop s) as H1.
      pose proof (skip_length "," (snd (scan value_stop s))) as H2. lia.
  - pose proof (scan_moves name_stop c s Hc) as H0.
    pose proof (skip_length "=" (snd (scan name_stop (String c s)))) as H1.
    pose proof (scan_length value_stop
                  (skip "=" (snd (scan name_stop (String c s))))) as H2.
    pose proof (skip_length ","
                  (snd (scan value_stop
                          (skip "=" (snd (scan name_stop (String c s)))))))
      as H3.
    lia.
Qed.

(** *** Escaped text *)

Section Escape.

Variables stop special : ascii -> bool.
Hypothesis stop_special : forall c, stop c = true -> special c = true.
Hypothesis backslash_special : special "\" = true.
Hypothesis backslash_no_stop : stop "\" = false.

(** A scanning loop reads an escaped text back, up to a stop character
    or the end of the string. *)
Lemma scan_escape (s rest : string) :
  rest = "" \/ (exists c r, rest = String c r /\ stop c = true) ->
  scan stop (escape special s ++ rest) = (s, rest).
Proof.
  intros Hrest. induction s as [|c s IH].
  - destruct Hrest as [->|(c & r & -> & Hc)]; [reflexivity|].
    simpl. now rewrite Hc.
  - cbn [escape]. destruct (special c) eqn:Hs.
    + cbn [append scan]. rewrite backslash_no_stop. cbn [Ascii.eqb Bool.eqb].
      fold append. rewrite IH. reflexivity.
    + cbn [append scan]. fold append.
      destruct (stop c) eqn:Hc; [apply stop_special in Hc; congruence|].
      destruct (Ascii.eqb c "\") eqn:Hb;
        [apply Ascii.eqb_eq in Hb; congruence|].
      rewrite IH. reflexivity.
Qed.

(** A backslash at the very end is dropped. *)
Lemma scan_escape_dangling (s : string) :
  scan stop (escape special s ++ "\") = (s, "").
Proof.
  induction s as [|c s IH].
  - simpl. now rewrite backslash_no_stop.
  - cbn [escape]. destruct (special c) eqn:Hs.
    + cbn [append scan]. rewrite backslash_no_stop. cbn [Ascii.eqb Bool.eqb].
      fold append. rewrite IH. reflexivity.
    + cbn [append scan]. fold append.
      destruct (stop c) eqn:Hc; [apply stop_special in Hc; congruence|].
      destruct (Ascii.eqb c "\") eqn:Hb;
        [apply Ascii.eqb_eq in Hb; congruence|].
      rewrite IH. reflexivity.
Qed.

End Escape.

Lemma scan_name (n rest : string) :
  scan name_stop (escape name_special n ++ String "=" rest)
  = (n, String "=" rest).
Proof.
  apply scan_escape; [| reflexivity | reflexivity |right; now eexists _, _].
  intros c. unfold name_stop, name_special.
  destruct (Ascii.eqb c ","), (Ascii.eqb c "="), (Ascii.eqb c "\");
    simpl; congruence.
Qed.

Lemma scan_value (v rest : string) :
  rest = "" \/ (exists r, rest = String "," r) ->
  scan value_stop (escape value_special v ++ rest) = (v, rest).
Proof.
  intros H. apply scan_escape; [| reflexivity | reflexivity |].
  - intros c. unfold value_stop, value_special.
    destruct (Ascii.eqb c ","); simpl; congruence.
  - destruct H as [->|[r ->]]; [now left | right; now eexists _, _].
Qed.

Lemma scan_value_dangling (v : string) :
  scan value_stop (escape value_special v ++ "\") = (v, "").
Proof.
  apply scan_escape_dangling; [| reflexivity | reflexivity].
  intros c. unfold value_stop, value_special.
  destruct (Ascii.eqb c ","); simpl; congruence.
Qed.

Lemma written_app (n v rest : string) :
  written (n, v) ++ rest
  = escape name_special n ++ String "=" (escape value_special v ++ rest).
Proof.
  unfold written. cbn [fst snd]. rewrite append_assoc. reflexivity.
Qed.

Lemma written_app_nonempty (p : string * string) (rest : string) :
  written p ++ rest <> "".
Proof.
  destruct p as [n v]. rewrite written_app. intros H.
  apply append_eq_nil in H. destruct H as [_ H]. discriminate.
Qed.

Section Loop.

Variable Opts : Type.
Variable set_option : string -> string -> Opts -> Z * Opts.
Variable verify_sanity : Opts -> Z * Opts.

Local Abbreviation loop := (parse_loop Opts set_option verify_sanity).
Local Abbreviation parse := (parse_options Opts set_option verify_sanity).

(** One round of the loop on a string that has not ended. *)
Lemma parse_loop_round fuel (c : ascii) (s : string) (o : Opts) :
  loop (S fuel) (String c s) o =
  let name := fst (scan name_stop (String c s)) in
  let value :=
    fst (scan value_stop (skip "=" (snd (scan name_stop (String c s))))) in
  if negb (name =? "")%string || negb (value =? "")%string then
    if negb (fst (set_option name value o) =? 0)
    then Some (set_option name value o)
    else loop fuel (after_round (String c s)) (snd (set_option name value o))
  else loop fuel (after_round (String c s)) o.
Proof.
  cbn [parse_loop]. unfold after_round.
  destruct (scan name_stop (String c s)) as [name next].
  cbn [fst snd].
  destruct (scan value_stop (skip "=" next)) as [value next'].
  cbn [fst snd].
  destruct (negb (name =? "")%string || negb (value =? "")%string);
    [|reflexivity].
  destruct (set_option name value o) as [result o']. reflexivity.
Qed.

(** With more fuel than the string has characters the loop returns, and
    what it returns does not depend on the fuel. *)
Lemma parse_loop_enough fuel fuel' (options : string) (o : Opts) :
  (String.length options < fuel)%nat ->
  (String.length options < fuel')%nat ->
  loop fuel options o = loop fuel' options o /\ loop fuel options o <> None.
Proof.
  revert fuel' options o. induction fuel as [|fuel IH];
    intros fuel' options o H H'; [lia|].
  destruct fuel' as [|fuel']; [lia|].
  destruct options as [|c s]; [split; [reflexivity | discriminate]|].
  rewrite !parse_loop_round. cbv zeta.
  pose proof (after_round_shorter c s) as Hs. simpl in H, H'.
  destruct (IH fuel' (after_round (String c s)) o ltac:(lia) ltac:(lia))
    as [E N].
  destruct (negb _ || negb _); [|now split].
  destruct (negb (fst (set_option _ _ o) =? 0));
    [split; [reflexivity | discriminate]|].
  apply IH; lia.
Qed.

Lemma parse_options_nil (o : Opts) : parse "" o = Some (verify_sanity o).
Proof. reflexivity. Qed.

(** [parse_options] on a string that has not ended: one round, and
    [parse_options] on what is left. *)
Lemma parse_options_round (c : ascii) (s : string) (o : Opts) :
  parse (String c s) o =
  let name := fst (scan name_stop (String c s)) in
  let value :=
    fst (scan value_stop (skip "=" (snd (scan name_stop (String c s))))) in
  if negb (name =? "")%string || negb (value =? "")%string then
    if negb (fst (set_option name value o) =? 0)
    then Some (set_option name value o)
    else parse (after_round (String c s)) (snd (set_option name value o))
  else parse (after_round (String c s)) o.
Proof.
  unfold parse_options. rewrite parse_loop_round. cbv zeta.
  pose proof (after_round_shorter c s) as Hs.
  assert (E : forall o',
             loop (String.length (String c s)) (after_round (String c s)) o'
             = loop (S (String.length (after_round (String c s))))
                 (after_round (String c s)) o').
  { intros o'. apply parse_loop_enough; simpl; lia. }
  now rewrite !E.
Qed.

(** A result 0 comes from [verify_sanity]: the object is checked whenever
    every option was accepted. *)
Lemma parse_loop_zero fuel (options : string) (o o' : Opts) :
  loop fuel options o = Some (0, o') ->
  exists o0, verify_sanity o0 = (0, o').
Proof.
  revert options o. induction fuel as [|fuel IH]; intros options o;
    [discriminate|].
  destruct options as [|c s]; [intros [= H]; now exists o|].
  rewrite parse_loop_round. cbv zeta.
  destruct (negb _ || negb _); [|apply IH].
  destruct (set_option _ _ o) as [result o1]. cbn [fst snd].
  destruct (result =? 0) eqn:E; simpl; [apply IH|].
  intros [= -> _]. discriminate.
Qed.

Lemma parse_options_step (options : string) (o : Opts) :
  options <> "" ->
  parse options o =
  let name := fst (scan name_stop options) in
  let value :=
    fst (scan value_stop (skip "=" (snd (scan name_stop options)))) in
  if negb (name =? "")%string || negb (value =? "")%string then
    if negb (fst (set_option name value o) =? 0)
    then Some (set_option name value o)
    else parse (after_round options) (snd (set_option name value o))
  else parse (after_round options) o.
Proof.
  destruct options as [|c s]; [congruence|]. intros _.
  apply parse_options_round.
Qed.

(** A round on a written option that is followed by the end of the
    string or by a comma. *)
Lemma parse_written (n v rest : string) (o : Opts) :
  rest = "" \/ (exists r, rest = String "," r) ->
  parse (written (n, v) ++ rest) o =
  if (n =? "")%string && (v =? "")%string then parse (skip "," rest) o
  else if negb (fst (set_option n v o) =? 0) then Some (set_option n v o)
       else parse (skip "," rest) (snd (set_option n v o)).
Proof.
  intros Hrest.
  rewrite parse_options_step by apply written_app_nonempty.
  unfold after_round. rewrite written_app, scan_name. cbn [fst snd skip].
  rewrite Ascii.eqb_refl, scan_value by assumption. cbn [fst snd].
  destruct (n =? "")%string, (v =? "")%string; reflexivity.
Qed.

(** The same round when a single backslash follows the option. *)
Lemma parse_written_dangling (n v : string) (o : Opts) :
  parse (written (n, v) ++ "\") o =
  if (n =? "")%string && (v =? "")%string then parse "" o
  else if negb (fst (set_option n v o) =? 0) then Some (set_option n v o)
       else parse "" (snd (set_option n v o)).
Proof.
  rewrite parse_options_step by apply written_app_nonempty.
  unfold after_round. rewrite written_app, scan_name. cbn [fst snd skip].
  rewrite Ascii.eqb_refl, scan_value_dangling. cbn [fst snd skip].
  destruct (n =? "")%string, (v =? "")%string; reflexivity.
Qed.

Lemma apply_all_cons (n v : string) ps (o : Opts) :
  apply_all Opts set_option verify_sanity ((n, v) :: ps) o =
  if (n =? "")%string && (v =? "")%string
  then apply_all Opts set_option verify_sanity ps o
  else if negb (fst (set_option n v o) =? 0) then set_option n v o
       else apply_all Opts set_option verify_sanity ps (snd (set_option n v o)).
Proof.
  cbn [apply_all]. destruct ((n =? "")%string && (v =? "")%string);
    [reflexivity|].
  destruct (set_option n v o) as [r o']. cbn [fst snd].
  destruct (negb (r =? 0)); reflexivity.
Qed.

(** The option string of a list of options, with or without a backslash
    at its end, sets the options of the list. *)
Lemma parse_render ps (t : string) (o : Opts) :
  t = "" \/ t = "\" ->
  parse (render ps ++ t) o
  = Some (apply_all Opts set_option verify_sanity ps o).
Proof.
  intros Ht. revert o. induction ps as [|[n v] ps IH]; intros o.
  - destruct Ht as [->| ->]; [reflexivity|].
    cbn [render append]. rewrite parse_options_step by discriminate.
    reflexivity.
  - rewrite apply_all_cons. destruct ps as [|q ps].
    + cbn [render apply_all]. destruct Ht as [->| ->].
      * rewrite parse_written by now left. cbn [skip].
        rewrite !parse_options_nil.
        destruct (_ && _); [reflexivity|]. now destruct (negb _).
      * rewrite parse_written_dangling. rewrite !parse_options_nil.
        destruct (_ && _); [reflexivity|]. now destruct (negb _).
    + change (render ((n, v) :: q :: ps))
        with (written (n, v) ++ "," ++ render (q :: ps)).
      rewrite !append_assoc.
      change ("," ++ render (q :: ps) ++ t)
        with (String "," (render (q :: ps) ++ t)).
      rewrite parse_written by (right; now eexists).
      cbn [skip]. rewrite Ascii.eqb_refl. rewrite !IH.
      destruct (_ && _); [reflexivity|]. now destruct (negb _).
Qed.

(** A refused option makes the result of the whole list non-zero, the
    object being the one the refusal left. *)
Lemma apply_all_refused ps (n v : string) :
  In (n, v) ps ->
  ((n =? "")%string && (v =? "")%string = false) ->
  (forall o, fst (set_option n v o) <> 0) ->
  forall o, fst (apply_all Opts set_option verify_sanity ps o) <> 0.
Proof.
  intros Hin Hne Href. induction ps as [|[n' v'] ps IH]; [destruct Hin|].
  intros o. rewrite apply_all_cons. destruct Hin as [[= -> ->]|Hin].
  - rewrite Hne. specialize (Href o).
    apply Z.eqb_neq in Href. rewrite Href. cbn [negb].
    now apply Z.eqb_neq.
  - destruct ((n' =? "")%string && (v' =? "")%string); [now apply IH|].
    destruct (fst (set_option n' v' o) =? 0) eqn:E; cbn [negb];
      [now apply IH | now apply Z.eqb_neq].
Qed.

End Loop.

(** *** The mount point of a repository *)

Lemma slashes_snoc (k : nat) : slashes k ++ "/" = slashes (S k).
Proof. induction k as [|k IH]; [reflexivity|]. simpl. now rewrite IH. Qed.

Lemma last_is_slash_chop (m : string) :
  last_is_slash m = true ->
  m = substring 0 (String.length m - 1) m ++ "/".
Proof.
  intros H. apply last_is_slash_inv in H. destruct H as [b ->].
  rewrite length_append. simpl String.length.
  replace (String.length b + 1 - 1)%nat with (String.length b) by lia.
  now rewrite substring_0_app.
Qed.

(** The loop of [verify_sanity] takes slashes from the end, and nothing
    else, until none is left there. *)
Lemma strip_slashes_spec fuel (m : string) :
  (String.length m <= fuel)%nat ->
  last_is_slash (strip_slashes fuel m) = false /\
  exists k, m = strip_slashes fuel m ++ slashes k.
Proof.
  revert m. induction fuel as [|fuel IH]; intros m Hm.
  - destruct m; [|simpl in Hm; lia]. split; [reflexivity|now exists 0%nat].
  - cbn [strip_slashes].
    destruct ((0 <? String.length m)%nat && last_is_slash m) eqn:E.
    + apply andb_true_iff in E. destruct E as [_ E].
      pose proof (last_is_slash_chop m E) as Hc.
      set (b := substring 0 (String.length m - 1) m) in *.
      assert (Hb : (String.length b <= fuel)%nat).
      { assert (Hl : String.length m = String.length (b ++ "/"))
          by now rewrite <- Hc.
        rewrite length_append in Hl. simpl in Hl. lia. }
      destruct (IH b Hb) as [Hl [k Hk]]. split; [exact Hl|].
      exists (S k). rewrite Hc at 1. rewrite Hk at 1.
      now rewrite append_assoc, slashes_snoc.
    + split; [|exists 0%nat; now rewrite append_nil_r].
      apply andb_false_iff in E. destruct E as [E|E]; [|exact E].
      apply Nat.ltb_ge in E. destruct m; [reflexivity|simpl in E; lia].
Qed.

Lemma slashes_prefix (n : nat) (a b : string) :
  a ++ b = slashes n -> a = slashes (String.length a).
Proof.
  revert a. induction n as [|n IH]; intros a H.
  - apply append_eq_nil in H. destruct H as [-> _]. reflexivity.
  - destruct a as [|c a]; [reflexivity|].
    simpl in H. injection H as -> H. simpl. f_equal. now apply IH.
Qed.

Lemma last_is_slash_slashes (n : nat) : last_is_slash (slashes (S n)) = true.
Proof.
  induction n as [|n IH]; [reflexivity|].
  change (slashes (S (S n))) with (String "/" (slashes (S n))).
  rewrite last_is_slash_cons. exact IH.
Qed.

Lemma strip_slashes_slashes (n : nat) :
  strip_slashes (String.length (slashes n)) (slashes n) = "".
Proof.
  destruct (strip_slashes_spec (String.length (slashes n)) (slashes n)
              (le_n _)) as [Hl [k Hk]].
  symmetry in Hk. apply slashes_prefix in Hk.
  destruct (String.length (strip_slashes _ (slashes n))) as [|i] eqn:E.
  - destruct (strip_slashes _ (slashes n)); [reflexivity|discriminate].
  - rewrite Hk, last_is_slash_slashes in Hl. discriminate.
Qed.

Lemma strip_slashes_keep (m : string) :
  last_is_slash m = false -> strip_slashes (String.length m) m = m.
Proof.
  intros H. destruct (String.length m); cbn [strip_slashes]; [reflexivity|].
  rewrite H, andb_false_r. reflexivity.
Qed.

Section Repo.

Context {R : Type}.
Variable set_other : string -> string -> R -> Z * R.

Lemma repo_set_option_unknown (n v : string) (o : repo_options R) :
  ~ In n repo_keys -> repo_set_option set_other n v o = (-1, o).
Proof.
  intros H. unfold repo_set_option.
  repeat match goal with
  | |- context [(n =? ?k)%string] =>
      destruct (String.eqb_spec n k) as [->|_];
      [exfalso; apply H; simpl; tauto|]
  end.
  reflexivity.
Qed.

(** The mount point [verify_sanity] leaves does not end in a slash. *)
Lemma repo_verify_sanity_mountpoint (o o' : repo_options R) :
  repo_verify_sanity o = (0, o') ->
  last_is_slash (mountpoint o') = false.
Proof.
  unfold repo_verify_sanity. intros [= <-]. cbn [mountpoint].
  apply strip_slashes_spec. apply le_n.
Qed.

Lemma repo_set_option_url (n v : string) (o : repo_options R) :
  n <> "url" -> url (snd (repo_set_option set_other n v o)) = url o.
Proof.
  intros H. unfold repo_set_option, assign_other.
  destruct (String.eqb_spec n "url") as [E|_]; [contradiction|].
  destruct (set_other n v (other_fields o)) as [r f].
  repeat match goal with
  | |- context [(n =? ?k)%string] => destruct (n =? k)%string
  end; reflexivity.
Qed.

(** Options other than url leave the url as it is. *)
Lemma apply_all_url ps (o : repo_options R) :
  (forall n v, In (n, v) ps -> n <> "url") ->
  url (snd (apply_all _ (repo_set_option set_other) repo_verify_sanity ps o))
  = url o.
Proof.
  revert o. induction ps as [|[n v] ps IH]; intros o H; [reflexivity|].
  assert (Hn : n <> "url") by (apply (H n v); now left).
  assert (Hps : forall n' v', In (n', v') ps -> n' <> "url")
    by (intros n' v' Hin; apply (H n' v'); now right).
  rewrite apply_all_cons.
  destruct ((n =? "")%string && (v =? "")%string); [now apply IH|].
  destruct (negb (fst (repo_set_option set_other n v o) =? 0)).
  - now apply repo_set_option_url.
  - rewrite IH by assumption. now apply repo_set_option_url.
Qed.

End Repo.

Lemma last_is_slash_app_nonempty (a n : string) :
  n <> "" -> last_is_slash (a ++ n) = last_is_slash n.
Proof.
  intros Hn. induction a as [|c a IH]; [reflexivity|].
  change (String c a ++ n) with (String c (a ++ n)).
  rewrite last_is_slash_cons, IH.
  destruct (a ++ n) eqn:E; [|reflexivity].
  apply append_eq_nil in E. tauto.
Qed.

Lemma global_set_option_unknown {G : Type}
    (set_field : string -> string -> G -> Z * G) (n v : string) (g : G) :
  ~ In n global_keys -> global_set_option set_field n v g = (-1, g).
Proof.
  intros H. unfold global_set_option.
  repeat match goal with
  | |- context [(n =? ?k)%string] =>
      destruct (String.eqb_spec n k) as [->|_];
      [exfalso; apply H; simpl; tauto|]
  end.
  reflexivity.
Qed.

Lemma both_empty_false (n v : string) :
  n <> "" \/ v <> "" -> (n =? "")%string && (v =? "")%string = false.
Proof.
  intros [H|H]; apply andb_false_iff; [left|right];
    now apply String.eqb_neq.
Qed.

(** *** The options of a string *)

Lemma string_ind2 (P : string -> Prop) :
  P "" -> (forall c, P (String c "")) ->
  (forall c d s, P s -> P (String d s) -> P (String c (String d s))) ->
  forall s, P s.
Proof.
  intros H0 H1 H2 s.
  assert (H : P s /\ forall c, P (String c s)).
  { induction s as [|d s [IH1 IH2]]; [now split|].
    split; [apply IH2|]. intros c. apply H2; [exact IH1 | apply IH2]. }
  apply H.
Qed.

Lemma scan_plain stop (c : ascii) (s : string) :
  stop c = false -> c <> "\"%char ->
  scan stop (String c s)
  = (String c (fst (scan stop s)), snd (scan stop s)).
Proof.
  intros Hs Hc. cbn [scan]. rewrite Hs.
  apply Ascii.eqb_neq in Hc. rewrite Hc.
  now destruct (scan stop s).
Qed.

Lemma scan_escaped stop (d : ascii) (s : string) :
  stop "\"%char = false ->
  scan stop (String "\" (String d s))
  = (String d (fst (scan stop s)), snd (scan stop s)).
Proof.
  intros Hs. cbn [scan]. rewrite Hs. cbn [Ascii.eqb Bool.eqb].
  now destruct (scan stop s).
Qed.

Lemma append_one (a : string) (c : ascii) (b : string) :
  (a ++ String c "") ++ b = a ++ String c b.
Proof. now rewrite append_assoc. Qed.

(** Reading a name with [lex] is the scanning loop for the name. *)
Lemma lex_name (s name : string) :
  lex s false name ""
  = match snd (scan name_stop s) with
    | EmptyString => [(name ++ fst (scan name_stop s), "")]
    | String c r =>
        if Ascii.eqb c ","
        then (name ++ fst (scan name_stop s), "") :: lex r false "" ""
        else lex r true (name ++ fst (scan name_stop s)) ""
    end.
Proof.
  revert name. induction s as [|c|c d s IH1 IH2] using string_ind2;
    intros name.
  - simpl. now rewrite append_nil_r.
  - destruct (Ascii.eqb_spec c ",") as [->|H1];
      [simpl; now rewrite append_nil_r|].
    destruct (Ascii.eqb_spec c "=") as [->|H2];
      [simpl; now rewrite append_nil_r|].
    destruct (Ascii.eqb_spec c "\") as [->|H3];
      [simpl; now rewrite append_nil_r|].
    rewrite scan_plain; [|unfold name_stop|assumption].
    2:{ apply Ascii.eqb_neq in H1, H2. now rewrite H1, H2. }
    apply Ascii.eqb_neq in H1, H2, H3.
    cbn [lex scan fst snd]. rewrite H1, H2, H3. reflexivity.
  - destruct (Ascii.eqb_spec c ",") as [->|H1];
      [cbn [lex scan name_stop Ascii.eqb Bool.eqb orb fst snd];
       now rewrite append_nil_r|].
    destruct (Ascii.eqb_spec c "=") as [->|H2];
      [cbn [lex scan name_stop Ascii.eqb Bool.eqb orb andb negb fst snd];
       now rewrite append_nil_r|].
    destruct (Ascii.eqb_spec c "\") as [->|H3].
    + rewrite scan_escaped by reflexivity. cbn [fst snd].
      change (lex (String "\" (String d s)) false name "")
        with (lex s false (name ++ String d "") "").
      rewrite IH1. rewrite !append_one. reflexivity.
    + rewrite scan_plain; [|unfold name_stop|assumption].
      2:{ apply Ascii.eqb_neq in H1, H2. now rewrite H1, H2. }
      cbn [fst snd].
      assert (E : lex (String c (String d s)) false name ""
                  = lex (String d s) false (name ++ String c "") "").
      { apply Ascii.eqb_neq in H1, H2, H3.
        cbn [lex]. now rewrite H1, H2, H3. }
      rewrite E, IH2, !append_one. reflexivity.
Qed.

(** Reading a value with [lex] is the scanning loop for the value. *)
Lemma lex_value (s name value : string) :
  lex s true name value
  = match snd (scan value_stop s) with
    | EmptyString => [(name, value ++ fst (scan value_stop s))]
    | String c r =>
        (name, value ++ fst (scan value_stop s)) :: lex r false "" ""
    end.
Proof.
  revert value. induction s as [|c|c d s IH1 IH2] using string_ind2;
    intros value.
  - simpl. now rewrite append_nil_r.
  - destruct (Ascii.eqb_spec c ",") as [->|H1];
      [simpl; now rewrite append_nil_r|].
    destruct (Ascii.eqb_spec c "\") as [->|H3];
      [simpl; now rewrite append_nil_r|].
    rewrite scan_plain; [|unfold value_stop|assumption].
    2:{ now apply Ascii.eqb_neq in H1. }
    apply Ascii.eqb_neq in H1, H3.
    cbn [lex scan fst snd]. rewrite H1, H3, andb_false_r. reflexivity.
  - destruct (Ascii.eqb_spec c ",") as [->|H1];
      [cbn [lex scan value_stop Ascii.eqb Bool.eqb fst snd];
       now rewrite append_nil_r|].
    destruct (Ascii.eqb_spec c "\") as [->|H3].
    + rewrite scan_escaped by reflexivity. cbn [fst snd].
      change (lex (String "\" (String d s)) true name value)
        with (lex s true name (value ++ String d "")).
      rewrite IH1. rewrite !append_one. reflexivity.
    + rewrite scan_plain; [|unfold value_stop|assumption].
      2:{ now apply Ascii.eqb_neq in H1. }
      cbn [fst snd].
      assert (E : lex (String c (String d s)) true name value
                  = lex (String d s) true name (value ++ String c "")).
      { apply Ascii.eqb_neq in H1, H3.
        cbn [lex]. now rewrite H1, H3, andb_false_r. }
      rewrite E, IH2, !append_one. reflexivity.
Qed.

(** Where a scanning loop stops short of the end, it stands at a
    character it stops at. *)
Lemma scan_stops stop (s : string) :
  match snd (scan stop s) with
  | EmptyString => True
  | String c _ => stop c = true
  end.
Proof.
  induction s as [|c|c d s IH1 IH2] using string_ind2.
  - exact I.
  - cbn [scan]. destruct (stop c) eqn:E; [exact E|].
    now destruct (Ascii.eqb c "\").
  - cbn [scan]. destruct (stop c) eqn:E; [exact E|].
    destruct (Ascii.eqb c "\").
    + destruct (scan stop s). exact IH1.
    + cbn [scan] in IH2. destruct (stop d) eqn:Ed; [exact Ed|].
      destruct (Ascii.eqb d "\").
      * destruct s as [|d' s']; [exact I|].
        destruct (scan stop s'). exact IH2.
      * destruct (scan stop s). exact IH2.
Qed.

(** The options of a string are the name and the value the first round
    of the loop reads, and then the options of the string the round
    leaves, or nothing where the string has ended. *)
Lemma options_of_round (s : string) :
  s <> "" ->
  let name := fst (scan name_stop s) in
  let value := fst (scan value_stop (skip "=" (snd (scan name_stop s)))) in
  options_of s = (name, value) :: options_of (after_round s) \/
  (options_of s = [(name, value)] /\ after_round s = "").
Proof.
  intros _. cbv zeta. unfold options_of, after_round.
  rewrite lex_name. cbn [append].
  pose proof (scan_stops name_stop s) as Hstop.
  destruct (snd (scan name_stop s)) as [|c r] eqn:E.
  - right. split; reflexivity.
  - unfold name_stop in Hstop. apply orb_true_iff in Hstop.
    destruct Hstop as [Hc|Hc]; apply Ascii.eqb_eq in Hc; subst c.
    + left. cbn [Ascii.eqb Bool.eqb skip scan value_stop fst snd].
      reflexivity.
    + cbn [Ascii.eqb Bool.eqb skip]. rewrite lex_value. cbn [append].
      pose proof (scan_stops value_stop r) as Hstop.
      destruct (snd (scan value_stop r)) as [|c r'] eqn:E'.
      * right. split; reflexivity.
      * unfold value_stop in Hstop. apply Ascii.eqb_eq in Hstop. subst c.
        left. cbn [skip Ascii.eqb Bool.eqb]. reflexivity.
Qed.

Section Lexed.

Variable Opts : Type.
Variable set_option : string -> string -> Opts -> Z * Opts.
Variable verify_sanity : Opts -> Z * Opts.

Local Abbreviation parse := (parse_options Opts set_option verify_sanity).
Local Abbreviation apply := (apply_all Opts set_option verify_sanity).

(** [parse_options] sets the options of the string, whatever the string
    is. *)
Lemma parse_options_lex (s : string) (o : Opts) :
  parse s o = Some (apply (options_of s) o).
Proof.
  remember (String.length s) as k eqn:Hk. revert s Hk o.
  induction k as [k IH] using lt_wf_ind. intros s Hk o.
  destruct s as [|c s']; [reflexivity|].
  rewrite parse_options_step by discriminate. cbv zeta.
  pose proof (after_round_shorter c s') as Hshort.
  assert (Hrest : forall o', parse (after_round (String c s')) o'
                             = Some (apply (options_of
                                              (after_round (String c s')))
                                       o')).
  { intros o'. apply (IH (String.length (after_round (String c s'))));
      [subst k; simpl; lia | reflexivity]. }
  rewrite !Hrest.
  destruct (options_of_round (String c s') ltac:(discriminate))
    as [E|[E Ha]]; rewrite E, apply_all_cons.
  - destruct (_ =? "")%string, (_ =? "")%string; cbn [negb orb andb];
      try reflexivity;
      now destruct (negb (fst (set_option _ _ o) =? 0)).
  - rewrite Ha.
    destruct (_ =? "")%string, (_ =? "")%string; cbn [negb orb andb];
      try reflexivity;
      now destruct (negb (fst (set_option _ _ o) =? 0)).
Qed.

End Lexed.

(** The options of a list written with its escapes are the options of
    the list. *)
Lemma options_of_render (p : string * string) ps :
  options_of (render (p :: ps)) = p :: ps.
Proof.
  revert p. induction ps as [|q ps IH]; intros [n v].
  - cbn [render]. rewrite <- (append_nil_r (written (n, v))).
    rewrite written_app. unfold options_of.
    rewrite lex_name, scan_name. cbn [fst snd Ascii.eqb Bool.eqb append].
    rewrite lex_value, scan_value by now left. reflexivity.
  - change (render ((n, v) :: q :: ps))
      with (written (n, v) ++ "," ++ render (q :: ps)).
    rewrite written_app. unfold options_of.
    rewrite lex_name, scan_name. cbn [fst snd Ascii.eqb Bool.eqb append].
    rewrite lex_value, scan_value by (right; now eexists).
    cbn [fst snd append]. f_equal. apply IH.
Qed.

(** A backslash behind a string that does not end in the middle of an
    escape adds nothing to its options. *)
Lemma lex_dangling (s : string) :
  dangling s = false ->
  forall in_value name value,
    lex (s ++ "\") in_value name value = lex s in_value name value.
Proof.
  induction s as [|c|c d s IH1 IH2] using string_ind2; intros Hd iv n v.
  - destruct iv; reflexivity.
  - cbn [dangling] in Hd. destruct (Ascii.eqb_spec c "\") as [E|Hc];
      [discriminate|].
    apply Ascii.eqb_neq in Hc. cbn [append lex]. rewrite Hc.
    destruct (Ascii.eqb c ","); [now destruct iv|].
    destruct (Ascii.eqb c "=" && negb iv); [now destruct iv|].
    now destruct iv.
  - cbn [dangling] in Hd. destruct (Ascii.eqb_spec c "\") as [E|Hc].
    + subst c.
      change ((String "\" (String d s)) ++ "\")
        with (String "\" (String d (s ++ "\"))).
      cbn [lex Ascii.eqb Bool.eqb andb]. destruct iv; now apply IH1.
    + apply Ascii.eqb_neq in Hc.
      change ((String c (String d s)) ++ "\")
        with (String c ((String d s) ++ "\")).
      cbn [lex]. rewrite Hc.
      destruct (Ascii.eqb c ","); [f_equal; now apply IH2|].
      destruct (Ascii.eqb c "=" && negb iv); [now apply IH2|].
      destruct iv; now apply IH2.
Qed.

End OptFacts.

(* ================================================================= *)
(** * Further properties: the option parser *)

(** X1 -- [parse_options] returns on every option string: one round per
    character and one more are enough, and with any larger number of
    rounds allowed the result is the same. *)
Theorem parse_options_terminates (Opts : Type)
    (set_option : string -> string -> Opts -> Z * Opts)
    (verify_sanity : Opts -> Z * Opts) (options : string) (o : Opts) :
  (exists r, Opt.parse_options Opts set_option verify_sanity options o
             = Some r) /\
  (forall fuel, (String.length options < fuel)%nat ->
     Opt.parse_loop Opts set_option verify_sanity fuel options o
     = Opt.parse_options Opts set_option verify_sanity options o).
Proof.
  split.
  - destruct (Opt.parse_options Opts set_option verify_sanity options o)
      as [r|] eqn:E; [now exists r|].
    exfalso. revert E. unfold Opt.parse_options.
    apply (OptFacts.parse_loop_enough Opts set_option verify_sanity
             (S (String.length options)) (S (String.length options)));
      lia.
  - intros fuel H. unfold Opt.parse_options.
    apply OptFacts.parse_loop_enough; lia.
Qed.

(** X2 -- Escaping round trip: a list of options written with a backslash
    before every comma and backslash (and, in a name, before every equals
    sign) and joined by commas is parsed back to exactly these options,
    which are set in order up to the first refusal; the object is checked
    by [verify_sanity] only if none is refused. *)
Theorem parse_options_round_trip (Opts : Type)
    (set_option : string -> string -> Opts -> Z * Opts)
    (verify_sanity : Opts -> Z * Opts)
    (ps : list (string * string)) (o : Opts) :
  Opt.parse_options Opts set_option verify_sanity (Opt.render ps) o
  = Some (Opt.apply_all Opts set_option verify_sanity ps o).
Proof.
  rewrite <- (OptFacts.parse_render Opts set_option verify_sanity ps "" o)
    by now left.
  now rewrite StrFacts.append_nil_r.
Qed.

(** X3 -- An empty token is passed over: a comma at the place where an
    option starts is skipped without a call of [set_option]. *)
Theorem parse_options_skips_empty (Opts : Type)
    (set_option : string -> string -> Opts -> Z * Opts)
    (verify_sanity : Opts -> Z * Opts) (options : string) (o : Opts) :
  Opt.parse_options Opts set_option verify_sanity ("," ++ options) o
  = Opt.parse_options Opts set_option verify_sanity options o.
Proof.
  rewrite OptFacts.parse_options_step by discriminate. reflexivity.
Qed.

(** X4 -- The first refused option ends the parse: its result is returned
    at once, whatever follows in the string, and the object is left as
    the refusing [set_option] left it, unchecked. *)
Theorem parse_options_stops_at_refusal (Opts : Type)
    (set_option : string -> string -> Opts -> Z * Opts)
    (verify_sanity : Opts -> Z * Opts)
    (n v rest : string) (o : Opts) :
  n <> "" \/ v <> "" ->
  fst (set_option n v o) <> 0 ->
  Opt.parse_options Opts set_option verify_sanity
    (Opt.written (n, v) ++ "," ++ rest) o
  = Some (set_option n v o).
Proof.
  intros Hne Href.
  change ("," ++ rest) with (String "," rest).
  rewrite OptFacts.parse_written by (right; now eexists).
  rewrite OptFacts.both_empty_false by assumption.
  apply Z.eqb_neq in Href. now rewrite Href.
Qed.

Lemma parse_options_stops_at_refusal_witness :
  ("a" <> "" \/ "" <> "") /\
  fst ((fun (_ _ : string) (u : unit) => (-1, u)) "a" "" tt) <> 0 /\
  Opt.parse_options unit (fun _ _ u => (-1, u)) (fun u => (0, u))
    (Opt.written ("a", "") ++ "," ++ "b=c") tt
  = Some (-1, tt).
Proof.
  assert (H1 : "a" <> "" \/ "" <> "") by (left; discriminate).
  assert (H2 : fst ((fun (_ _ : string) (u : unit) => (-1, u)) "a" "" tt)
               <> 0) by (simpl; lia).
  split; [exact H1|]. split; [exact H2|].
  exact (parse_options_stops_at_refusal unit (fun _ _ u => (-1, u))
           (fun u => (0, u)) "a" "" "b=c" tt H1 H2).
Defined.

(** X5 -- A backslash at the very end of an option string is dropped:
    for every string that does not itself end in the middle of an
    escape, the string followed by a backslash is parsed exactly as the
    string; the options of the string may be bare names or names with
    values. *)
Theorem parse_options_dangling_backslash (Opts : Type)
    (set_option : string -> string -> Opts -> Z * Opts)
    (verify_sanity : Opts -> Z * Opts)
    (s : string) (o : Opts) :
  Opt.dangling s = false ->
  Opt.parse_options Opts set_option verify_sanity (s ++ "\") o
  = Opt.parse_options Opts set_option verify_sanity s o.
Proof.
  intros Hd. rewrite !OptFacts.parse_options_lex. unfold Opt.options_of.
  now rewrite OptFacts.lex_dangling.
Qed.

Lemma parse_options_dangling_backslash_witness :
  Opt.dangling "url=http://host/repo,allow_unsigned" = false /\
  Opt.parse_options (list (string * string))
    (fun n v o => (0, (o ++ [(n, v)])%list)) (fun o => (0, o))
    ("url=http://host/repo,allow_unsigned" ++ "\") []
  = Opt.parse_options (list (string * string))
      (fun n v o => (0, (o ++ [(n, v)])%list)) (fun o => (0, o))
      "url=http://host/repo,allow_unsigned" [].
Proof.
  split; [reflexivity|].
  apply (parse_options_dangling_backslash (list (string * string))
           (fun n v o => (0, (o ++ [(n, v)])%list)) (fun o => (0, o))
           "url=http://host/repo,allow_unsigned" []).
  reflexivity.
Defined.

(** X6 -- [verify_sanity] of the repository options returns 0 and changes
    the mount point only: the mount point is the one given, or /cvmfs/
    and the repository name if none is given and the name is not empty,
    with the slashes at its end taken away, all of them and nothing
    else. *)
Theorem verify_sanity_mountpoint (R : Type) (o : Opt.repo_options R) :
  fst (Opt.repo_verify_sanity o) = 0 /\
  Opt.url (snd (Opt.repo_verify_sanity o)) = Opt.url o /\
  Opt.repo_name (snd (Opt.repo_verify_sanity o)) = Opt.repo_name o /\
  Opt.other_fields (snd (Opt.repo_verify_sanity o)) = Opt.other_fields o /\
  Str.last_is_slash (Opt.mountpoint (snd (Opt.repo_verify_sanity o))) = false
  /\
  exists k,
    (if (Opt.mountpoint o =? "")%string
        && negb (Opt.repo_name o =? "")%string
     then "/cvmfs/" ++ Opt.repo_name o else Opt.mountpoint o)
    = Opt.mountpoint (snd (Opt.repo_verify_sanity o)) ++ Opt.slashes k.
Proof.
  unfold Opt.repo_verify_sanity. cbn [fst snd Opt.url Opt.repo_name
    Opt.other_fields Opt.mountpoint].
  repeat (split; [reflexivity|]).
  apply OptFacts.strip_slashes_spec. apply le_n.
Qed.

(** X7 -- A mount point option that consists of slashes only leaves the
    mount point empty, also when a repository name is given: the default
    /cvmfs/ and the name is used only for a mount point that is empty
    before the slashes are taken away. *)
Theorem slash_mountpoint_becomes_empty (R : Type) (o : Opt.repo_options R)
    (k : nat) :
  Opt.mountpoint o = Opt.slashes (S k) ->
  Opt.mountpoint (snd (Opt.repo_verify_sanity o)) = "".
Proof.
  intros H. unfold Opt.repo_verify_sanity. cbn [snd Opt.mountpoint].
  rewrite H. cbn [Opt.slashes String.eqb andb].
  apply (OptFacts.strip_slashes_slashes (S k)).
Qed.

Lemma slash_mountpoint_becomes_empty_witness :
  Opt.mountpoint
    {| Opt.url := "u"; Opt.repo_name := "atlas.cern.ch";
       Opt.mountpoint := "//"; Opt.other_fields := tt |}
  = Opt.slashes 2 /\
  Opt.mountpoint
    (snd (Opt.repo_verify_sanity
            {| Opt.url := "u"; Opt.repo_name := "atlas.cern.ch";
               Opt.mountpoint := "//"; Opt.other_fields := tt |})) = "".
Proof.
  split; [reflexivity|].
  apply (slash_mountpoint_becomes_empty unit _ 1%nat). reflexivity.
Defined.

(** X8 -- [cvmfs_attach_repo] returns on every option string, and it
    creates a context only from options that were all accepted, with a
    url that is not empty and a mount point that does not end in a
    slash; in every other case it returns the null pointer and [Create]
    is not called. *)
Theorem attach_repo_invariant (R W H : Type)
    (set_other : string -> string -> R -> Z * R)
    (defaults : Opt.repo_options R)
    (create : Opt.repo_options R -> W -> option H * W)
    (options : string) (w : W) :
  exists r,
    Opt.cvmfs_attach_repo set_other defaults create options w = Some r /\
    (r = (None, w) \/
     exists opts,
       Opt.parse_options _ (Opt.repo_set_option set_other)
         Opt.repo_verify_sanity options defaults = Some (0, opts) /\
       Opt.url opts <> "" /\
       Str.last_is_slash (Opt.mountpoint opts) = false /\
       r = create opts w).
Proof.
  unfold Opt.cvmfs_attach_repo.
  destruct (Opt.parse_options _ (Opt.repo_set_option set_other)
              Opt.repo_verify_sanity options defaults)
    as [[parse_result opts]|] eqn:E.
  - destruct (Z.eqb_spec parse_result 0) as [->|Hne]; cbn [negb].
    + destruct (String.eqb_spec (Opt.url opts) "") as [Hu|Hu].
      * eexists. split; [reflexivity|now left].
      * eexists. split; [reflexivity|]. right. exists opts.
        split; [reflexivity|]. split; [exact Hu|]. split; [|reflexivity].
        apply OptFacts.parse_loop_zero in E. destruct E as [o0 E].
        now apply OptFacts.repo_verify_sanity_mountpoint in E.
    + eexists. split; [reflexivity|now left].
  - exfalso. revert E. unfold Opt.parse_options.
    apply (OptFacts.parse_loop_enough _ _ _
             (S (String.length options)) (S (String.length options)));
      lia.
Qed.

(** X9 -- An option string that has an option whose name is not one of
    the eleven repository options attaches nothing: [cvmfs_attach_repo]
    returns the null pointer without a call of [Create], for every
    string, wherever the option stands in it, whether it is written as
    a bare name or with a value, and whatever the other options are. *)
Theorem attach_repo_unknown_option (R W H : Type)
    (set_other : string -> string -> R -> Z * R)
    (defaults : Opt.repo_options R)
    (create : Opt.repo_options R -> W -> option H * W)
    (options : string) (n v : string) (w : W) :
  In (n, v) (Opt.options_of options) ->
  ~ In n Opt.repo_keys ->
  n <> "" \/ v <> "" ->
  Opt.cvmfs_attach_repo set_other defaults create options w
  = Some (None, w).
Proof.
  intros Hin Hkey Hne. unfold Opt.cvmfs_attach_repo.
  rewrite OptFacts.parse_options_lex.
  pose proof (OptFacts.apply_all_refused _ (Opt.repo_set_option set_other)
                Opt.repo_verify_sanity (Opt.options_of options) n v Hin
                (OptFacts.both_empty_false n v Hne)) as Href.
  assert (Hu : forall o, fst (Opt.repo_set_option set_other n v o) <> 0).
  { intros o. rewrite OptFacts.repo_set_option_unknown by assumption.
    discriminate. }
  specialize (Href Hu defaults).
  destruct (Opt.apply_all _ _ _ (Opt.options_of options) defaults)
    as [r o']. cbn [fst] in Href.
  apply Z.eqb_neq in Href. now rewrite Href.
Qed.

Lemma attach_repo_unknown_option_witness :
  In ("colour", "") (Opt.options_of "url=http://host/repo,colour") /\
  ~ In "colour" Opt.repo_keys /\
  ("colour" <> "" \/ "" <> "") /\
  Opt.cvmfs_attach_repo (fun _ _ (r : unit) => (0, r))
    {| Opt.url := ""; Opt.repo_name := ""; Opt.mountpoint := "";
       Opt.other_fields := tt |}
    (fun _ (w : unit) => (Some tt, w))
    "url=http://host/repo,colour" tt
  = Some (None, tt).
Proof.
  assert (H1 : In ("colour", "")
                 (Opt.options_of "url=http://host/repo,colour"))
    by (vm_compute; tauto).
  assert (H2 : ~ In "colour" Opt.repo_keys)
    by (simpl; intuition discriminate).
  assert (H3 : "colour" <> "" \/ "" <> "") by (left; discriminate).
  split; [exact H1|]. split; [exact H2|]. split; [exact H3|].
  exact (attach_repo_unknown_option unit unit unit _ _ _ _ _ _ tt H1 H2 H3).
Defined.

(** X10 -- An option string that has an option whose name is not one of
    the six global options makes [cvmfs_init] fail: it returns a result
    that is not 0 and [Initialize] is not called, for every string,
    whether the option is written as a bare name or with a value. *)
Theorem init_unknown_option (G W : Type)
    (set_field : string -> string -> G -> Z * G) (defaults : G)
    (initialize : G -> W -> Z * W)
    (options : string) (n v : string) (w : W) :
  In (n, v) (Opt.options_of options) ->
  ~ In n Opt.global_keys ->
  n <> "" \/ v <> "" ->
  exists r, r <> 0 /\
    Opt.cvmfs_init set_field defaults initialize options w = Some (r, w).
Proof.
  intros Hin Hkey Hne. unfold Opt.cvmfs_init.
  rewrite OptFacts.parse_options_lex.
  pose proof (OptFacts.apply_all_refused _ (Opt.global_set_option set_field)
                Opt.global_verify_sanity (Opt.options_of options) n v Hin
                (OptFacts.both_empty_false n v Hne)) as Href.
  assert (Hu : forall g, fst (Opt.global_set_option set_field n v g) <> 0).
  { intros g. rewrite OptFacts.global_set_option_unknown by assumption.
    discriminate. }
  specialize (Href Hu defaults).
  destruct (Opt.apply_all _ _ _ (Opt.options_of options) defaults)
    as [r o']. cbn [fst] in Href.
  exists r. split; [exact Href|].
  apply Z.eqb_neq in Href. now rewrite Href.
Qed.

Lemma init_unknown_option_witness :
  In ("cache", "") (Opt.options_of "log_prefix=cvmfs,cache") /\
  ~ In "cache" Opt.global_keys /\
  ("cache" <> "" \/ "" <> "") /\
  exists r, r <> 0 /\
    Opt.cvmfs_init (fun _ _ (g : unit) => (0, g)) tt
      (fun _ (w : unit) => (0, w)) "log_prefix=cvmfs,cache" tt
    = Some (r, tt).
Proof.
  assert (H1 : In ("cache", "") (Opt.options_of "log_prefix=cvmfs,cache"))
    by (vm_compute; tauto).
  assert (H2 : ~ In "cache" Opt.global_keys)
    by (simpl; intuition discriminate).
  assert (H3 : "cache" <> "" \/ "" <> "") by (left; discriminate).
  split; [exact H1|]. split; [exact H2|]. split; [exact H3|].
  exact (init_unknown_option unit unit _ tt _ _ _ _ tt H1 H2 H3).
Defined.

(** X11 -- From the url and the repository name alone the mount point
    is derived: [cvmfs_attach_repo] on these two options, written with
    their escapes, calls [Create] with the url, the name and the mount
    point /cvmfs/ and the name, the other fields being the defaults. *)
Theorem attach_repo_derives_mountpoint (R W H : Type)
    (set_other : string -> string -> R -> Z * R)
    (defaults : Opt.repo_options R)
    (create : Opt.repo_options R -> W -> option H * W)
    (u n : string) (w : W) :
  u <> "" -> n <> "" -> Str.last_is_slash n = false ->
  Opt.mountpoint defaults = "" ->
  Opt.cvmfs_attach_repo set_other defaults create
    (Opt.render [("url", u); ("repo_name", n)]) w
  = Some (create {| Opt.url := u; Opt.repo_name := n;
                    Opt.mountpoint := "/cvmfs/" ++ n;
                    Opt.other_fields := Opt.other_fields defaults |} w).
Proof.
  intros Hu Hn Hl Hm. unfold Opt.cvmfs_attach_repo.
  rewrite <- (StrFacts.append_nil_r (Opt.render _)).
  rewrite OptFacts.parse_render by now left.
  cbn [Opt.apply_all Opt.repo_set_option String.eqb Ascii.eqb Bool.eqb
       andb negb Z.eqb fst snd].
  unfold Opt.repo_verify_sanity.
  cbn [Opt.url Opt.repo_name Opt.mountpoint Opt.other_fields].
  rewrite Hm. apply String.eqb_neq in Hn. rewrite Hn.
  cbn [String.eqb andb negb Z.eqb].
  apply String.eqb_neq in Hn.
  rewrite OptFacts.strip_slashes_keep
    by now rewrite OptFacts.last_is_slash_app_nonempty.
  apply String.eqb_neq in Hu. now rewrite Hu.
Qed.

Lemma attach_repo_derives_mountpoint_witness :
  Opt.cvmfs_attach_repo (fun _ _ (r : unit) => (0, r))
    {| Opt.url := ""; Opt.repo_name := ""; Opt.mountpoint := "";
       Opt.other_fields := tt |}
    (fun opts (w : unit) => (Some opts, w))
    (Opt.render [("url", "http://host/a,b"); ("repo_name", "atlas.cern.ch")])
    tt
  = Some (Some {| Opt.url := "http://host/a,b";
                  Opt.repo_name := "atlas.cern.ch";
                  Opt.mountpoint := "/cvmfs/atlas.cern.ch";
                  Opt.other_fields := tt |}, tt).
Proof.
  apply (attach_repo_derives_mountpoint unit unit _ _
           {| Opt.url := ""; Opt.repo_name := ""; Opt.mountpoint := "";
              Opt.other_fields := tt |}
           (fun opts w => (Some opts, w))
           "http://host/a,b" "atlas.cern.ch" tt);
    [discriminate | discriminate | reflexivity | reflexivity].
Defined.

(** X12 -- Without a url nothing is attached: when the default url is
    empty and no option of the string has the name url,
    [cvmfs_attach_repo] returns the null pointer without a call of
    [Create], for every string, whatever its other options are, bare
    names or names with values, and whether they are accepted or not. *)
Theorem attach_repo_needs_url (R W H : Type)
    (set_other : string -> string -> R -> Z * R)
    (defaults : Opt.repo_options R)
    (create : Opt.repo_options R -> W -> option H * W)
    (options : string) (w : W) :
  Opt.url defaults = "" ->
  (forall n v, In (n, v) (Opt.options_of options) -> n <> "url") ->
  Opt.cvmfs_attach_repo set_other defaults create options w
  = Some (None, w).
Proof.
  intros Hu Hps. unfold Opt.cvmfs_attach_repo.
  rewrite OptFacts.parse_options_lex.
  pose proof (OptFacts.apply_all_url set_other (Opt.options_of options)
                defaults Hps) as E.
  destruct (Opt.apply_all _ _ _ (Opt.options_of options) defaults)
    as [r opts].
  cbn [snd] in E. destruct (negb (r =? 0)); [reflexivity|].
  now rewrite E, Hu.
Qed.

Lemma attach_repo_needs_url_witness :
  Opt.options_of "repo_name=atlas.cern.ch,allow_unsigned"
  = [("repo_name", "atlas.cern.ch"); ("allow_unsigned", "")] /\
  Opt.cvmfs_attach_repo (fun _ _ (r : unit) => (0, r))
    {| Opt.url := ""; Opt.repo_name := ""; Opt.mountpoint := "";
       Opt.other_fields := tt |}
    (fun opts (w : unit) => (Some opts, w))
    "repo_name=atlas.cern.ch,allow_unsigned" tt
  = Some (None, tt).
Proof.
  assert (H : Opt.options_of "repo_name=atlas.cern.ch,allow_unsigned"
              = [("repo_name", "atlas.cern.ch"); ("allow_unsigned", "")])
    by reflexivity.
  split; [exact H|].
  apply (attach_repo_needs_url unit unit _ _
           {| Opt.url := ""; Opt.repo_name := ""; Opt.mountpoint := "";
              Opt.other_fields := tt |}
           (fun opts w => (Some opts, w))
           "repo_name=atlas.cern.ch,allow_unsigned" tt).
  - reflexivity.
  - rewrite H. simpl. intros n v [[= <- _]|[[= <- _]|[]]]; discriminate.
Defined.

(* ================================================================= *)
(** * Further properties: the resolver *)

Module TraceFacts.

Lemma traced_getattr {B : Type} (ctx : cvmfs_context B) p b t rc st b' :
  GetAttr ctx p b = (rc, st, b') ->
  GetAttr (traced ctx) p (b, t) = (rc, st, (b', (t ++ [p])%list)).
Proof. intros H. simpl. now rewrite H. Qed.

Lemma prefix_paths_snoc (cs : list string) (c : string) :
  prefix_paths (cs ++ [c]) = (prefix_paths cs ++ [join (cs ++ [c])])%list.
Proof.
  unfold prefix_paths. rewrite length_app. simpl List.length.
  rewrite Nat.add_1_r, seq_S, map_app. f_equal.
  - apply map_ext_in. intros k Hk. apply in_seq in Hk.
    rewrite firstn_app.
    replace (k - List.length cs)%nat with 0%nat by lia.
    simpl. now rewrite app_nil_r.
  - cbn [map]. do 2 f_equal. apply firstn_all2.
    rewrite length_app. simpl. lia.
Qed.

Lemma tree_ctx_steady (t : tree) : steady (tree_ctx t).
Proof. intros p s1 s2. simpl. destruct (lookup p t); reflexivity. Qed.

End TraceFacts.

Module SlashFacts.
Import Str StrFacts.

Lemma double_slash_cons (c : ascii) (s : string) :
  double_slash (String c s)
  = Ascii.eqb c "/" && starts_with_slash s || double_slash s.
Proof.
  destruct s as [|d s]; [|reflexivity].
  simpl. now rewrite andb_false_r.
Qed.

Lemma double_slash_app (a b : string) :
  double_slash (a ++ b)
  = double_slash a || double_slash b
    || last_is_slash a && starts_with_slash b.
Proof.
  induction a as [|c a IH].
  - simpl. change (last_is_slash "") with false. simpl.
    now rewrite orb_false_r.
  - change (String c a ++ b) with (String c (a ++ b)).
    rewrite !double_slash_cons, IH, last_is_slash_cons.
    destruct a as [|d a].
    + simpl. destruct (Ascii.eqb c "/"), (starts_with_slash b),
        (double_slash b); reflexivity.
    + change (starts_with_slash (String d a ++ b))
        with (starts_with_slash (String d a)).
      destruct (Ascii.eqb c "/" && starts_with_slash (String d a)),
        (double_slash (String d a)), (double_slash b),
        (last_is_slash (String d a) && starts_with_slash b); reflexivity.
Qed.

Lemma no_slash_starts (f : string) :
  no_slash f -> starts_with_slash f = false.
Proof.
  destruct f as [|c f]; [reflexivity|]. intros H.
  apply no_slash_cons in H. destruct H as [H _].
  simpl. now apply Ascii.eqb_neq.
Qed.

Lemma no_slash_double (f : string) : no_slash f -> double_slash f = false.
Proof.
  induction f as [|c f IH]; [reflexivity|]. intros H.
  apply no_slash_cons in H. destruct H as [Hc Hf].
  rewrite double_slash_cons, (IH Hf).
  apply Ascii.eqb_neq in Hc. now rewrite Hc.
Qed.

Lemma double_slash_prefix (p x : string) :
  double_slash (p ++ x) = false -> double_slash p = false.
Proof.
  rewrite double_slash_app. intros H.
  apply orb_false_iff in H. destruct H as [H _].
  apply orb_false_iff in H. tauto.
Qed.

(** The candidate of a parent without a double slash has none. *)
Lemma double_slash_candidate (buf fname : string) :
  buf = "" \/ double_slash buf = false -> no_slash fname ->
  double_slash (candidate buf fname) = false.
Proof.
  intros Hbuf Hf.
  assert (H1 : double_slash (String "/" fname) = false).
  { rewrite double_slash_cons, (no_slash_starts _ Hf),
      (no_slash_double _ Hf). reflexivity. }
  destruct Hbuf as [->|Hbuf]; [exact H1|].
  destruct (last_is_slash buf) eqn:Hl.
  - assert (Hne : buf <> "") by (intros ->; discriminate).
    rewrite (JoinFacts.candidate_keep _ _ Hne Hl), double_slash_app,
      Hbuf, (no_slash_double _ Hf), (no_slash_starts _ Hf).
    now rewrite andb_false_r.
  - rewrite (JoinFacts.candidate_add _ _ Hl), double_slash_app,
      Hbuf, H1, Hl. reflexivity.
Qed.

End SlashFacts.

Section ResultFacts.

Context {B : Type}.
Variable ctx : cvmfs_context B.
Variable smalloc : Z -> bool.
Variable mountpoint : string.

Local Abbreviation returns := (expand_path_returns ctx smalloc mountpoint).

Lemma result_no_double_slash fuel path depth s r s' l :
  expand_path ctx smalloc mountpoint fuel path depth s = Some (Ok r, s', l) ->
  double_slash r = false.
Proof.
  apply (expand_path_ok_ind ctx smalloc mountpoint
           (fun r => double_slash r = false)).
  - intros e He _.
    destruct (GetParentPath e =? "")%string eqn:Hg; [reflexivity|].
    destruct (PathFacts.path_cases e) as [(_ & Hp & _)|[Hs _]].
    + rewrite Hp in Hg. discriminate.
    + rewrite Hs in He. now apply SlashFacts.double_slash_prefix in He.
  - intros buf fname s0 st s1 Hbuf Hns _ _ _.
    now apply SlashFacts.double_slash_candidate.
Qed.

Lemma origin_log_fits r l : origin ctx smalloc mountpoint r l -> log_fits r l.
Proof. intros H. destruct H; simpl; auto. Qed.

(** A path of ordinary names, none of them a link: the backend is asked
    about each prefix once, the shortest first. *)
Lemma returns_join_traced (cs : list string) :
  cs <> [] -> Forall plain_name cs ->
  (forall pre suf, cs = (pre ++ suf)%list -> pre <> [] ->
                   plain_at ctx (join pre)) ->
  forall depth b t, exists b',
    expand_path_returns (traced ctx) smalloc mountpoint (join cs) depth
      (b, t) (Ok (join cs), (b', (t ++ prefix_paths cs)%list), []).
Proof.
  induction cs as [|c cs IH] using rev_ind; [congruence|].
  intros _ Hall Hpre depth b t.
  apply Forall_app in Hall. destruct Hall as [Hcs Hc].
  inversion Hc as [|? ? (Hne & Hns & Hd & Hdd) _]; subst.
  assert (Hplain : plain_at ctx (join (cs ++ [c]))).
  { apply (Hpre (cs ++ [c])%list []); [now rewrite app_nil_r|].
    destruct cs; discriminate. }
  destruct cs as [|d cs'].
  - destruct (Hplain b) as (st & b' & Hg & Hl). exists b'.
    simpl in *. rewrite StrFacts.append_nil_r in *.
    assert (Hfn : GetFileName (String "/" c) = c)
      by exact (PathFacts.GetFileName_join "" c Hns).
    assert (Hpp : GetParentPath (String "/" c) = "")
      by exact (PathFacts.GetParentPath_join "" c Hns).
    pose proof (returns_plain (traced ctx) smalloc mountpoint
                  (String "/" c) depth (b, t) "" (b, t) [] st
                  (b', (t ++ [String "/" c])%list)) as H.
    rewrite Hfn in H.
    assert (Hone : prefix_paths [c] = [String "/" c]).
    { unfold prefix_paths. simpl. now rewrite StrFacts.append_nil_r. }
    rewrite Hone. apply H; [| |exact Hl].
    + split; [now rewrite Hfn|]. left. auto.
    + now apply TraceFacts.traced_getattr.
  - destruct (IH ltac:(discriminate) Hcs
                ltac:(intros pre suf E Hp;
                      apply (Hpre pre (suf ++ [c])%list); [|exact Hp];
                      now rewrite E, app_assoc)
                depth b t) as (b1 & Hret).
    destruct (Hplain b1) as (st & b2 & Hg & Hl). exists b2.
    rewrite TraceFacts.prefix_paths_snoc, app_assoc.
    pose proof (returns_plain (traced ctx) smalloc mountpoint
                  (join ((d :: cs') ++ [c])) depth (b, t)
                  (join (d :: cs'))
                  (b1, (t ++ prefix_paths (d :: cs'))%list) [] st
                  (b2, ((t ++ prefix_paths (d :: cs'))
                          ++ [join ((d :: cs') ++ [c])])%list)) as H.
    rewrite (JoinFacts.join_file_name _ c Hns) in H.
    rewrite (JoinFacts.candidate_add _ c
               (JoinFacts.last_is_slash_join _ Hcs)) in H.
    rewrite <- JoinFacts.join_snoc in H.
    apply H; [| |exact Hl].
    + split; [now rewrite (JoinFacts.join_file_name _ c Hns)|].
      right. rewrite (JoinFacts.join_file_name _ c Hns),
               (JoinFacts.join_parent _ c Hns).
      split; [discriminate|]. split; [exact Hd | exact Hret].
    + now apply TraceFacts.traced_getattr.
Qed.

(** On a steady backend whose root is no link, [GetAttr] on a successful
    result succeeds and does not report a link. *)
Lemma result_is_no_link fuel path depth s r s' l rc st s2 :
  steady ctx ->
  (forall s0 rc0 st0 s1,
     GetAttr ctx "/" s0 = (rc0, st0, s1) -> 0 <= rc0 ->
     S_ISLNK (st_mode st0) = false) ->
  expand_path ctx smalloc mountpoint fuel path depth s = Some (Ok r, s', l) ->
  GetAttr ctx r s' = (rc, st, s2) -> 0 <= rc ->
  S_ISLNK (st_mode st) = false.
Proof.
  intros Hsteady Hroot Hexp Hg Hrc.
  destruct (result_walked ctx smalloc mountpoint _ _ _ _ _ _ _ Hexp)
    as (_ & _ & [->|(s0 & st0 & s1 & Hg0 & Hl0)]).
  - eapply Hroot; eauto.
  - pose proof (Hsteady r s0 s') as E. rewrite Hg0, Hg in E.
    simpl in E. now injection E as _ <-.
Qed.

End ResultFacts.

(** X13 -- One lookup per component: for a path of ordinary names, none
    of them a link, [expand_path] asks the backend about each prefix of
    the path once, the shortest first, and about nothing else. *)
Theorem getattr_once_per_prefix :
  forall (B : Type) (ctx : cvmfs_context B) smalloc mountpoint
         (cs : list string) (depth : Z) (b : B) (t : list string),
    cs <> [] -> Forall plain_name cs ->
    (forall pre suf, cs = (pre ++ suf)%list -> pre <> [] ->
                     plain_at ctx (join pre)) ->
    exists b',
      expand_path_returns (traced ctx) smalloc mountpoint (join cs) depth
        (b, t) (Ok (join cs), (b', (t ++ prefix_paths cs)%list), []).
Proof.
  intros B ctx smalloc mountpoint cs depth b t Hne Hall Hpre.
  now apply returns_join_traced.
Qed.

Lemma getattr_once_per_prefix_witness :
  exists b',
    expand_path_returns (traced plain_ctx) always "/cvmfs/repo"
      (join ["a"; "b"; "c"]) 0 (tt, [])
      (Ok (join ["a"; "b"; "c"]),
       (b', ([] ++ prefix_paths ["a"; "b"; "c"])%list), []).
Proof.
  apply (getattr_once_per_prefix unit plain_ctx always "/cvmfs/repo"
           ["a"; "b"; "c"] 0 tt []).
  - discriminate.
  - repeat constructor; try discriminate; reflexivity.
  - intros pre suf _ _ s. exists (stat_of Dir), s. split; reflexivity.
Defined.

(** X14 -- A failure is final: when [expand_path] fails on a path, it
    fails in the same way on every path below it, whatever the further
    components are, with the same code, the same messages and the same
    backend state, so without a further call of the backend. *)
Theorem failure_is_final :
  forall (B : Type) (ctx : cvmfs_context B) smalloc mountpoint
         (q : string) (cs : list string) (depth : Z) (s s' : B)
         (e : Z) (l : list log_entry),
    expand_path_returns ctx smalloc mountpoint q depth s (Err e, s', l) ->
    q <> "" -> Forall Str.no_slash cs ->
    expand_path_returns ctx smalloc mountpoint (q ++ join cs) depth s
      (Err e, s', l).
Proof.
  intros B ctx smalloc mountpoint q cs depth s s' e l H Hq Hcs.
  now apply returns_err_below.
Qed.

Lemma failure_is_final_witness :
  expand_path_returns (tree_ctx [("/b", Dir)]) always "/cvmfs/repo"
    "/a" 0 [] (Err ENOENT, ["/a"], []) /\
  expand_path_returns (tree_ctx [("/b", Dir)]) always "/cvmfs/repo"
    ("/a" ++ join [".."; "b"; "."]) 0 [] (Err ENOENT, ["/a"], []).
Proof.
  assert (H : expand_path_returns (tree_ctx [("/b", Dir)]) always
                "/cvmfs/repo" "/a" 0 [] (Err ENOENT, ["/a"], []))
    by (exists 1%nat; reflexivity).
  split; [exact H|].
  apply (failure_is_final _ _ _ _ "/a" [".."; "b"; "."] 0 [] ["/a"]
           ENOENT [] H).
  - discriminate.
  - repeat constructor.
Defined.

(** X15 -- [cvmfs_stat] follows links to the end: on a backend whose
    answer about a path does not change and whose root is no link, the
    attributes a successful [cvmfs_stat] writes are never those of a
    symbolic link. *)
Theorem stat_never_reports_a_link :
  forall (B : Type) (ctx : cvmfs_context B) smalloc mountpoint
         (fuel : nat) (path : string) (errno : Z) (s : B)
         (rep : reply B stat),
    steady ctx ->
    (forall s0 rc0 st0 s1,
       GetAttr ctx "/" s0 = (rc0, st0, s1) -> 0 <= rc0 ->
       S_ISLNK (st_mode st0) = false) ->
    cvmfs_stat ctx smalloc mountpoint fuel path errno s = Some rep ->
    retval rep = 0 ->
    exists st, data rep = Some st /\ S_ISLNK (st_mode st) = false.
Proof.
  intros B ctx smalloc mountpoint fuel path errno s rep Hsteady Hroot.
  unfold cvmfs_stat.
  destruct (expand_path ctx smalloc mountpoint fuel path 0 s)
    as [[[[r|e] s1] l]|] eqn:E; [| |discriminate].
  - destruct (GetAttr ctx r s1) as [[rc st] s2] eqn:Hg.
    destruct (rc <? 0) eqn:Hrc.
    + intros [= <-]. discriminate.
    + intros [= <-] _. exists st. split; [reflexivity|].
      apply (result_is_no_link ctx smalloc mountpoint _ _ _ _ _ _ _ _ _ _
               Hsteady Hroot E Hg). lia.
  - intros [= <-]. discriminate.
Qed.

Lemma stat_never_reports_a_link_witness :
  steady (tree_ctx [("/a", Dir); ("/a/b", Link "c"); ("/a/c", File)]) /\
  cvmfs_stat (tree_ctx [("/a", Dir); ("/a/b", Link "c"); ("/a/c", File)])
    always "/cvmfs/repo" 4 "/a/b" 0 []
  = Some (Reply 0 0 (Some (stat_of File))
            ["/a"; "/a/b"; "/a"; "/a/c"; "/a/c"]) /\
  exists st,
    Some (stat_of File) = Some st /\ S_ISLNK (st_mode st) = false.
Proof.
  assert (H1 : steady (tree_ctx [("/a", Dir); ("/a/b", Link "c");
                                 ("/a/c", File)]))
    by apply TraceFacts.tree_ctx_steady.
  assert (H2 : cvmfs_stat
                 (tree_ctx [("/a", Dir); ("/a/b", Link "c"); ("/a/c", File)])
                 always "/cvmfs/repo" 4 "/a/b" 0 []
               = Some (Reply 0 0 (Some (stat_of File))
                         ["/a"; "/a/b"; "/a"; "/a/c"; "/a/c"]))
    by reflexivity.
  assert (H3 : forall s0 rc0 st0 s1,
             GetAttr (tree_ctx [("/a", Dir); ("/a/b", Link "c");
                                ("/a/c", File)]) "/" s0 = (rc0, st0, s1) ->
             0 <= rc0 -> S_ISLNK (st_mode st0) = false)
    by (intros s0 rc0 st0 s1; simpl; intros [= <- _ _] Hle;
        unfold ENOENT in Hle; lia).
  split; [exact H1|]. split; [exact H2|].
  exact (stat_never_reports_a_link _ _ _ _ _ _ _ _ _ H1 H3 H2 eq_refl).
Defined.

(** X16 -- A path [expand_path] returns never has two slashes in a row,
    whatever the path it was given and whatever the links say. *)
Theorem result_has_no_double_slash :
  forall (B : Type) (ctx : cvmfs_context B) smalloc mountpoint
         (path : string) (depth : Z) (s s' : B) (r : string)
         (l : list log_entry),
    expand_path_returns ctx smalloc mountpoint path depth s (Ok r, s', l) ->
    double_slash r = false.
Proof.
  intros B ctx smalloc mountpoint path depth s s' r l [fuel H].
  now apply (result_no_double_slash ctx smalloc mountpoint _ _ _ _ _ _ _ H).
Qed.

Lemma result_has_no_double_slash_witness :
  double_slash "/a//b" = true /\
  expand_path_returns (tree_ctx [("/a", Dir); ("/a/", Dir); ("/a/b", File)])
    always "/cvmfs/repo" "/a//b" 0 []
    (Ok "/a/b", ["/a"; "/a/"; "/a/b"], []) /\
  double_slash "/a/b" = false.
Proof.
  assert (H : expand_path_returns
                (tree_ctx [("/a", Dir); ("/a/", Dir); ("/a/b", File)])
                always "/cvmfs/repo" "/a//b" 0 []
                (Ok "/a/b", ["/a"; "/a/"; "/a/b"], []))
    by (exists 3%nat; reflexivity).
  split; [reflexivity|]. split; [exact H|].
  exact (result_has_no_double_slash _ _ _ _ _ _ _ _ _ _ H).
Defined.

(** X17 -- [expand_ppath] has no such guard: when the parent expands to a
    path that ends in a slash, as the root does, it puts a second slash
    behind it, and [cvmfs_lstat] asks the backend about that path; so
    [cvmfs_lstat] can fail on a path on which [cvmfs_stat] succeeds. *)
Theorem parent_only_doubles_slash :
  (forall (B : Type) (ctx : cvmfs_context B) smalloc mountpoint
          (path : string) (s s1 : B) (pe : string) (l : list log_entry),
     GetParentPath path <> "" ->
     expand_path_returns ctx smalloc mountpoint (GetParentPath path) 0 s
       (Ok pe, s1, l) ->
     Str.last_is_slash pe = true ->
     expand_ppath_returns ctx smalloc mountpoint path s
       (Ok (pe ++ "/" ++ GetFileName path), s1, l) /\
     double_slash (pe ++ "/" ++ GetFileName path) = true) /\
  cvmfs_lstat (tree_ctx [("/a", Dir); ("/x", File)]) always "/cvmfs/repo"
    2 "/a/../x" 0 []
  = Some (Reply (-1) ENOENT None ["/a"; "//x"]) /\
  cvmfs_stat (tree_ctx [("/a", Dir); ("/x", File)]) always "/cvmfs/repo"
    3 "/a/../x" 0 []
  = Some (Reply 0 0 (Some (stat_of File)) ["/a"; "/x"; "/x"]).
Proof.
  split; [|split; reflexivity].
  intros B ctx smalloc mountpoint path s s1 pe l Hp [fuel H] Hl. split.
  - exists fuel. unfold expand_ppath.
    apply String.eqb_neq in Hp. rewrite Hp, H.
    now rewrite StrFacts.append_assoc.
  - rewrite SlashFacts.double_slash_app, Hl. simpl.
    now rewrite orb_true_r.
Qed.

(** X18 -- What [expand_path] logs: nothing when it returns a path, and
    at most one message when it fails; the message that a path goes
    above the root or that a link leaves the mount point comes with
    ENOENT, the message about the recursion limit with ELOOP. *)
Theorem log_matches_result :
  forall (B : Type) (ctx : cvmfs_context B) smalloc mountpoint
         (path : string) (depth : Z) (s s' : B) (r : result)
         (l : list log_entry),
    expand_path_returns ctx smalloc mountpoint path depth s (r, s', l) ->
    log_fits r l.
Proof.
  intros B ctx smalloc mountpoint path depth s s' r l [fuel H].
  apply (origin_log_fits ctx smalloc mountpoint).
  exact (expand_path_origin ctx smalloc mountpoint _ _ _ _ _ _ _ H).
Qed.

Lemma log_matches_result_witness :
  expand_path_returns (tree_ctx [("/", Dir); ("/up", Link "..")])
    always (static_mountpoint [attach_cvmfs_repo]) "/up" 0 []
    (Err ENOENT, ["/up"; "/"], [LogAboveRoot "/.."]) /\
  log_fits (Err ENOENT) [LogAboveRoot "/.."].
Proof.
  assert (H : expand_path_returns
                (tree_ctx [("/", Dir); ("/up", Link "..")])
                always (static_mountpoint [attach_cvmfs_repo]) "/up" 0 []
                (Err ENOENT, ["/up"; "/"], [LogAboveRoot "/.."]))
    by (exists 3%nat; reflexivity).
  split; [exact H|].
  exact (log_matches_result _ _ _ _ _ _ _ _ _ _ H).
Defined.

(* ================================================================= *)
(** * Further properties: the letter command *)

Module LetterFacts.
Import Letter StrFacts.

(** *** Reading a line *)


Lemma read_line_terminated (line rest text : string) :
  no_newline line = true ->
  read_line text (line ++ String newline rest) = (text ++ line, true, rest).
Proof.
  revert text. induction line as [|c line IH]; intros text H.
  - simpl. now rewrite append_nil_r.
  - simpl in H. apply andb_true_iff in H. destruct H as [Hc Hl].
    cbn [append read_line]. apply negb_true_iff in Hc. rewrite Hc.
    rewrite (IH _ Hl), append_assoc. reflexivity.
Qed.

Lemma read_line_unterminated (text tail : string) :
  no_newline tail = true ->
  read_line text tail = (text ++ tail, false, "").
Proof.
  revert text. induction tail as [|c tail IH]; intros text H.
  - simpl. now rewrite append_nil_r.
  - simpl in H. apply andb_true_iff in H. destruct H as [Hc Hl].
    cbn [read_line]. apply negb_true_iff in Hc. rewrite Hc.
    rewrite (IH _ Hl), append_assoc. reflexivity.
Qed.

Lemma prompts_app (a b : list output) :
  prompts (a ++ b) = (prompts a + prompts b)%nat.
Proof.
  induction a as [|[n|s|s] a IH]; simpl; [reflexivity| | |]; now rewrite IH.
Qed.

Section Loops.

Context {W WL T A : Type}.
Variable env : collaborators W WL T A.

(** *** The verify loop *)

Lemma judge_code fqrn url text max_age wl w :
  In (fst (fst (fst (judge env fqrn url text max_age wl w)))) [0; 3; 4; 5].
Proof.
  unfold judge. destruct (time env w) as [now w1].
  destruct (if now + 3600 * 24 * 3 >? expires env wl
            then let '(ok, refresh, w2) := whitelist_Load env fqrn url w1 in
                 (if ok then refresh else wl, w2)
            else (wl, w1)) as [wl' w2].
  destruct (letter_Verify env fqrn text max_age w2) as [[ok message] w3].
  destruct ok; simpl; [|tauto].
  destruct (IsExpired env wl' w3) as [expired w4].
  destruct expired; simpl; [tauto|].
  destruct (VerifyLoadedCertificate env wl' w4) as [ok w5].
  destruct ok; simpl; tauto.
Qed.


Lemma verify_loop_code fuel loop fqrn url max_age exit_code text stdin
    wl w out code st' out' :
  In exit_code [0; 3; 4; 5] ->
  verify_loop env fuel loop fqrn url max_age exit_code text stdin wl w out
  = Exit code st' out' ->
  In code [0; 3; 4; 5] /\ prompts out' = prompts out.
Proof.
  revert exit_code text stdin wl w out.
  induction fuel as [|fuel IH]; intros exit_code text stdin wl w out Hc;
    [discriminate|].
  cbn [verify_loop].
  destruct (if (text =? "")%string then read_line text stdin
            else (text, true, stdin)) as [[text' got] stdin'].
  destruct got; cbn [negb]; [|intros [= <- _ <-]; now split].
  pose proof (judge_code fqrn url text' max_age wl w) as Hj.
  destruct (judge env fqrn url text' max_age wl w) as [[[code1 msg] wl'] w'].
  cbn [fst] in Hj.
  assert (Hp : prompts (out ++ report loop code1 msg) = prompts out).
  { rewrite prompts_app. unfold report.
    destruct loop, (code1 =? 0); simpl; lia. }
  destruct loop.
  - intros H. apply IH in H; [|exact Hj]. now rewrite Hp in H.
  - intros [= <- _ <-]. now split.
Qed.

(** In loop mode each line of stdin is judged in turn; what follows
    the last line break is dropped. *)
Lemma verify_loop_lines fqrn url max_age (lines : list string)
    (tail : string) :
  Forall (fun l => no_newline l = true) lines -> no_newline tail = true ->
  forall fuel exit_code wl w out,
    (List.length lines < fuel)%nat ->
    verify_loop env fuel true fqrn url max_age exit_code ""
      (terminated lines ++ tail) wl w out
    = let '(code, _, w', out') :=
        judge_all env true fqrn url max_age lines exit_code wl w out in
      Exit code ("", w') out'.
Proof.
  intros Hlines Htail. induction Hlines as [|l lines Hl _ IH];
    intros fuel exit_code wl w out Hf.
  - destruct fuel as [|fuel]; [simpl in Hf; lia|].
    cbn [terminated append verify_loop String.eqb judge_all].
    now rewrite (read_line_unterminated "" tail Htail).
  - destruct fuel as [|fuel]; [simpl in Hf; lia|].
    cbn [terminated verify_loop String.eqb judge_all].
    rewrite append_assoc.
    change (String newline (terminated lines) ++ tail)
      with (String newline (terminated lines ++ tail)).
    rewrite (read_line_terminated l _ "" Hl). cbn [append negb].
    destruct (judge env fqrn url l max_age wl w) as [[[code msg] wl'] w'].
    apply IH. simpl in Hf. lia.
Qed.

(** *** The password loop *)


(** The counter bounds the prompts: three in all from 0. *)
Lemma password_loop_prompts fuel key_path retry st out :
  match password_loop env fuel key_path retry st out with
  | TerminalFailure _ out' | Answered _ _ out' =>
      (prompts out' <= prompts out + Z.to_nat (Z.max 1 (3 - retry)))%nat
  | StillAsking => True
  end.
Proof.
  revert retry st out. induction fuel as [|fuel IH]; intros retry st out;
    [exact I|].
  cbn [password_loop].
  destruct (tcgetattr env st) as [defrsett st1].
  destruct (tcsetattr_flush env (echo_off env defrsett) st1) as [rc st2].
  destruct (negb (rc =? 0)); [lia|].
  destruct (GetLineFd env st2) as [password st3].
  destruct (LoadPrivateKeyPath env key_path password
              (snd (tcsetattr_now env defrsett st3))) as [success w].
  set (out1 := ((out ++ [OutPrompt "Enter password for private key: "])
                  ++ [OutText ""])%list).
  assert (Hp : prompts out1 = S (prompts out)).
  { unfold out1. rewrite !prompts_app. simpl. lia. }
  destruct (negb success && (retry + 1 <? 3)) eqn:E.
  - apply andb_true_iff in E. destruct E as [_ E]. apply Z.ltb_lt in E.
    specialize (IH (retry + 1)
                  (fst (tcsetattr_now env defrsett st3), w) out1).
    destruct (password_loop env fuel key_path (retry + 1) _ out1);
      [| |exact I]; lia.
  - lia.
Qed.

(** The loop is left with success only when the key has loaded. *)
Lemma password_loop_refused fuel key_path retry st out st' out' :
  (forall k p w, fst (LoadPrivateKeyPath env k p w) = false) ->
  password_loop env fuel key_path retry st out <> Answered true st' out'.
Proof.
  intros Href. revert retry st out. induction fuel as [|fuel IH];
    intros retry st out; [discriminate|].
  cbn [password_loop].
  destruct (tcgetattr env st) as [defrsett st1].
  destruct (tcsetattr_flush env (echo_off env defrsett) st1) as [rc st2].
  destruct (negb (rc =? 0)); [discriminate|].
  destruct (GetLineFd env st2) as [password st3].
  pose proof (Href key_path password (snd (tcsetattr_now env defrsett st3)))
    as Hk.
  destruct (LoadPrivateKeyPath env key_path password
              (snd (tcsetattr_now env defrsett st3))) as [success w].
  cbn [fst] in Hk. subst success. cbn [negb andb].
  destruct (retry + 1 <? 3); [apply IH | discriminate].
Qed.

Lemma sign_letter_exit fqrn text h st out :
  exists code st' signed,
    sign_letter env fqrn text h st out = Exit code st' (out ++ signed)%list
    /\ In code [0; 2] /\ prompts signed = 0%nat.
Proof.
  unfold sign_letter. destruct st as [stdin w].
  destruct (KeysMatch env w) as [ok w1]. destruct ok; cbn [negb].
  - destruct (if (text =? "")%string
              then let '(text0, _, stdin0) := read_line text stdin in
                   (text0, stdin0)
              else (text, stdin)) as [text' stdin'].
    destruct (letter_Sign env fqrn text' h w1) as [signed w2].
    eexists _, _, _. split; [reflexivity|]. simpl. tauto.
  - exists 2, (stdin, w1), []. rewrite app_nil_r. simpl. tauto.
Qed.

(** *** Main *)



Lemma Main_exit args st code st' out :
  Main env args st = Exit code st' out ->
  In code [0; 1; 2; 3; 4; 5] /\
  (given (args "v"%char) = false -> In code [0; 1; 2]) /\
  (prompts out <= 3)%nat /\
  ((forall k p w, fst (LoadPrivateKeyPath env k p w) = false) ->
   given (args "v"%char) = false -> In code [1; 2]).
Proof.
  unfold Main, mandatory. destruct st as [stdin w].
  destruct (given (args "s"%char) && given (args "v"%char)).
  { intros [= <- _ <-]. simpl. intuition lia. }
  destruct (given (args "v"%char)).
  - destruct (args "r"%char); [|discriminate].
    destruct (args "m"%char); [|discriminate].
    destruct (args "f"%char) as [fqrn|]; [|discriminate].
    destruct (args "k"%char) as [key_path|]; [|discriminate].
    destruct (verify_setup env _ _ _ _ _) as [[wl|] w1].
    + intros H. apply verify_loop_code in H; [|simpl; tauto].
      destruct H as [Hc Hp]. rewrite Hp. simpl in *.
      intuition (try discriminate; lia).
    + intros [= <- _ <-]. simpl. intuition (try discriminate; lia).
  - destruct (args "c"%char) as [certificate_path|]; [|discriminate].
    destruct (match match args "a"%char with
                    | Some a => Some (ParseHashAlgorithm env a)
                    | None => None
                    end with
              | Some h => is_kAny env h
              | None => false
              end).
    { intros [= <- _ <-]. simpl. intuition lia. }
    destruct (args "f"%char) as [fqrn|]; [|discriminate].
    destruct (args "k"%char) as [key_path|]; [|discriminate].
    destruct (LoadCertificatePath env _ _) as [ok w1].
    destruct ok; cbn [negb].
    2:{ intros [= <- _ <-]. simpl. intuition lia. }
    destruct (LoadPrivateKeyPath env _ _ w1) as [ok w2] eqn:Hk.
    destruct ok; cbn [negb].
    + destruct (sign_letter_exit fqrn (value_or_empty (args "t"%char))
                  match args "a"%char with
                  | Some a => Some (ParseHashAlgorithm env a)
                  | None => None
                  end (stdin, w2) []) as (c & st2 & o & -> & Hc & Hp).
      intros [= <- _ <-]. simpl in Hc |- *. rewrite Hp.
      split; [intuition lia|]. split; [intuition lia|]. split; [lia|].
      intros Href _. specialize (Href key_path
                                   (value_or_empty (args "p"%char)) w1).
      rewrite Hk in Href. discriminate.
    + pose proof (password_loop_prompts 3 key_path 0 (stdin, w2) []) as Hp.
      pose proof (fun st2 out2 H =>
                    password_loop_refused 3 key_path 0 (stdin, w2) []
                      st2 out2 H) as Hr.
      destruct (password_loop env 3 key_path 0 (stdin, w2) [])
        as [st2 out2|success st2 out2|]; [| |discriminate].
      * intros [= <- _ <-]. simpl in Hp |- *. intuition lia.
      * destruct success; cbn [negb].
        -- destruct (sign_letter_exit fqrn (value_or_empty (args "t"%char))
                       match args "a"%char with
                       | Some a => Some (ParseHashAlgorithm env a)
                       | None => None
                       end st2 out2) as (c & st3 & o & -> & Hc & Hp').
           intros [= <- _ <-]. simpl in Hc, Hp |- *.
           rewrite prompts_app, Hp'.
           split; [intuition lia|]. split; [intuition lia|].
           split; [lia|].
           intros Href _. exfalso. now apply (Hr st2 out2 Href).
        -- intros [= <- _ <-]. simpl in Hp |- *. intuition lia.
Qed.

End Loops.

End LetterFacts.



(** X20 -- In loop mode the verify loop judges each line of stdin in
    turn, an empty line as an empty letter, and carries the whitelist
    and the state from one letter to the next; it returns at the end of
    stdin with the code of the last line (the code it started with when
    there is none), drops what follows the last line break, and does not
    call [Fini]. *)
Theorem verify_loop_judges_each_line :
  forall (W WL T A : Type) (env : Letter.collaborators W WL T A)
         (fqrn repository_url : string) (max_age : Z)
         (lines : list string) (tail : string)
         (fuel : nat) (exit_code : Z) (whitelist : WL) (w : W)
         (out : list Letter.output),
    Forall (fun l => Letter.no_newline l = true) lines ->
    Letter.no_newline tail = true ->
    (List.length lines < fuel)%nat ->
    Letter.verify_loop env fuel true fqrn repository_url max_age exit_code
      "" (Letter.terminated lines ++ tail) whitelist w out
    = let '(code, _, w', out') :=
        Letter.judge_all env true fqrn repository_url max_age lines
          exit_code whitelist w out in
      Letter.Exit code ("", w') out'.
Proof.
  intros W WL T A env fqrn url max_age lines tail fuel exit_code wl w out
    Hl Ht Hf.
  now apply LetterFacts.verify_loop_lines.
Qed.

Lemma verify_loop_judges_each_line_witness :
  Letter.verify_loop Letter.sample_env 3 true "repo.example.org"
    "http://host/repo" 0 0 "" (Letter.terminated ["a"; ""] ++ "b") tt tt []
  = Letter.Exit 0 ("", tt)
      [Letter.OutNumber 0; Letter.OutNumber 1; Letter.OutText "a";
       Letter.OutNumber 0; Letter.OutNumber 0; Letter.OutText ""].
Proof.
  apply (verify_loop_judges_each_line unit unit unit unit Letter.sample_env
           "repo.example.org" "http://host/repo" 0 ["a"; ""] "b" 3 0 tt tt
           []).
  - repeat constructor.
  - reflexivity.
  - simpl. lia.
Defined.

(** X21 -- In verify mode without a text argument, input that ends
    before a line break is not verified: [Main] exits with code 0
    without a call of [Verify] and without a word on stdout, and leaves
    the managers as the setup left them. *)
Theorem verify_ignores_unterminated_input :
  forall (W WL T A : Type) (env : Letter.collaborators W WL T A)
         (args : ascii -> option string) (stdin : string) (w w1 : W)
         (repository_url m fqrn key_path : string) (whitelist : WL),
    Letter.given (args "v"%char) = true ->
    Letter.given (args "s"%char) = false ->
    args "r"%char = Some repository_url -> args "m"%char = Some m ->
    args "f"%char = Some fqrn -> args "k"%char = Some key_path ->
    Letter.value_or_empty (args "t"%char) = "" ->
    Letter.verify_setup env fqrn repository_url key_path
      (Letter.value_or_empty (args "z"%char)) (Letter.sm_Init env w)
    = (Some whitelist, w1) ->
    Letter.no_newline stdin = true ->
    Letter.Main env args (stdin, w) = Letter.Exit 0 ("", w1) [].
Proof.
  intros W WL T A env args stdin w w1 url m fqrn key_path wl
    Hv Hs Hr Hm Hf Hk Ht Hsetup Hn.
  unfold Letter.Main, Letter.mandatory.
  rewrite Hv, Hs, Hr, Hm, Hf, Hk, Ht, Hsetup. cbn [andb].
  rewrite Nat.add_comm. cbn [Nat.add Letter.verify_loop String.eqb].
  now rewrite (LetterFacts.read_line_unterminated "" stdin Hn).
Qed.

Lemma verify_ignores_unterminated_input_witness :
  Letter.no_newline "a letter without a line break" = true /\
  Letter.Main Letter.sample_env Letter.verify_args
    ("a letter without a line break", tt)
  = Letter.Exit 0 ("", tt) [].
Proof.
  split; [reflexivity|].
  apply (verify_ignores_unterminated_input unit unit unit unit
           Letter.sample_env Letter.verify_args _ tt tt
           "http://host/repo" "0" "repo.example.org" "/etc/keys" tt);
    reflexivity.
Defined.

(** X22 -- The exit codes of [Main]: always one of 0 to 5, in sign mode
    one of 0, 1 and 2; the password is asked for at most three times;
    and when [LoadPrivateKeyPath] fails whatever password it is given,
    the one of the arguments and the ones typed in, the sign mode ends
    with 1 or 2 and never with 0. *)
Theorem letter_exit_codes :
  forall (W WL T A : Type) (env : Letter.collaborators W WL T A)
         (args : ascii -> option string) (st st' : string * W)
         (code : Z) (out : list Letter.output),
    Letter.Main env args st = Letter.Exit code st' out ->
    In code [0; 1; 2; 3; 4; 5] /\
    (Letter.given (args "v"%char) = false -> In code [0; 1; 2]) /\
    (Letter.prompts out <= 3)%nat /\
    ((forall k p w, fst (Letter.LoadPrivateKeyPath env k p w) = false) ->
     Letter.given (args "v"%char) = false -> In code [1; 2]).
Proof.
  intros W WL T A env args st st' code out H.
  now apply (LetterFacts.Main_exit env args st code st' out).
Qed.

Lemma letter_exit_codes_witness :
  Letter.Main Letter.sample_env Letter.sign_args
    (Letter.terminated ["a"; "b"; "c"; "secret"], tt)
  = Letter.Exit 2 (Letter.terminated ["secret"], tt)
      [Letter.OutPrompt "Enter password for private key: ";
       Letter.OutText "";
       Letter.OutPrompt "Enter password for private key: ";
       Letter.OutText "";
       Letter.OutPrompt "Enter password for private key: ";
       Letter.OutText ""] /\
  In 2 [0; 1; 2; 3; 4; 5] /\
  (Letter.prompts
     [Letter.OutPrompt "Enter password for private key: ";
      Letter.OutText "";
      Letter.OutPrompt "Enter password for private key: ";
      Letter.OutText "";
      Letter.OutPrompt "Enter password for private key: ";
      Letter.OutText ""] <= 3)%nat.
Proof.
  assert (H : Letter.Main Letter.sample_env Letter.sign_args
                (Letter.terminated ["a"; "b"; "c"; "secret"], tt)
              = Letter.Exit 2 (Letter.terminated ["secret"], tt)
                  [Letter.OutPrompt "Enter password for private key: ";
                   Letter.OutText "";
                   Letter.OutPrompt "Enter password for private key: ";
                   Letter.OutText "";
                   Letter.OutPrompt "Enter password for private key: ";
                   Letter.OutText ""]) by reflexivity.
  split; [exact H|].
  destruct (letter_exit_codes _ _ _ _ _ _ _ _ _ _ H) as (H1 & _ & H3 & _).
  split; [exact H1 | exact H3].
Defined.
